(** * migres: cursor-based migration selection and transactional application

    A shallow embedding of [commitOrRollback] from [cli.js] (the migres
    command-line tool), together with the properties of its subset
    resolution, cursor computation, SQL assembly and transaction handling.

    JavaScript values are modelled as follows: an array of strings is a
    [list string], a number holding an integer is a [Z], [undefined] is
    [None], and a string is a Rocq [string] (its UTF-8 bytes). *)

From Stdlib Require Import List ZArith Lia Bool Ascii String Sorted Permutation.
Import ListNotations.

Local Open Scope Z_scope.

(** ** JavaScript array primitives used by [cli.js] *)

Module JsArray.

(** The relative-index clamping of [Array.prototype.slice]: a negative
    index counts from the end, and the result is clamped to [0, len]. *)
Definition rel_index (len i : Z) : Z :=
  if i <? 0 then Z.max (len + i) 0 else Z.min i len.

Definition len {A} (l : list A) : Z := Z.of_nat (List.length l).

(** [arr.slice(start)] *)
Definition slice_from {A} (l : list A) (start : Z) : list A :=
  skipn (Z.to_nat (rel_index (len l) start)) l.

(** [arr.slice(start, end)] *)
Definition slice {A} (l : list A) (start fin : Z) : list A :=
  let k := rel_index (len l) start in
  let f := rel_index (len l) fin in
  firstn (Z.to_nat (Z.max (f - k) 0)) (skipn (Z.to_nat k) l).

(** [arr.reverse()] applied to the fresh copy [arr.slice(0)]. *)
Definition reverse {A} (l : list A) : list A := rev (slice_from l 0).

(** [arr[i]] for a number [i]: [undefined] outside [0 .. len-1]. *)
Definition get {A} (l : list A) (i : Z) : option A :=
  if i <? 0 then None else nth_error l (Z.to_nat i).

(** [arr.findIndex(p)]: the first index whose element satisfies [p],
    or [-1]. *)
Fixpoint findIndex_from {A} (p : A -> bool) (l : list A) (i : Z) : Z :=
  match l with
  | [] => -1
  | x :: r => if p x then i else findIndex_from p r (i + 1)
  end.

Definition findIndex {A} (p : A -> bool) (l : list A) : Z :=
  findIndex_from p l 0.

End JsArray.

(** ** Subset resolution and the new cursor (cli.js, lines 126-128, 154-161) *)

Inductive command := Commit | Rollback.

(** [args.cmd === "commit"] *)
Definition is_commit (c : command) : bool :=
  match c with Commit => true | Rollback => false end.

(** [const subset = args.cmd === "commit" ? dirNames.slice(cursor + 1)
      : dirNames.slice(0).reverse().slice(dirNames.length - (cursor + 1))] *)
Definition subset (cmd : command) (dirNames : list string) (cursor : Z)
  : list string :=
  if is_commit cmd
  then JsArray.slice_from dirNames (cursor + 1)
  else JsArray.slice_from (JsArray.reverse dirNames)
         (JsArray.len dirNames - (cursor + 1)).

(** [d => d === subset[migrateTo]], where the right-hand side may be
    [undefined]; a string is never strictly equal to [undefined]. *)
Definition strict_eq_entry (target : option string) (d : string) : bool :=
  match target with
  | Some t => String.eqb d t
  | None => false
  end.

(** [const newCursor = args.cmd === "commit"
      ? dirNames.findIndex(d => d === subset[migrateTo])
      : dirNames.findIndex(d => d === subset[migrateTo]) - 1] *)
Definition newCursor (cmd : command) (dirNames sub : list string)
    (migrateTo : Z) : Z :=
  let target := JsArray.get sub migrateTo in
  if is_commit cmd
  then JsArray.findIndex (strict_eq_entry target) dirNames
  else JsArray.findIndex (strict_eq_entry target) dirNames - 1.

(** [subset.slice(0, migrateTo + 1)]: the units selected for application. *)
Definition selected (sub : list string) (migrateTo : Z) : list string :=
  JsArray.slice sub 0 (migrateTo + 1).

(** ** The coercing comparison [subset < 1] (cli.js, line 131)

    [subset] is an array, so [subset < 1] first converts it to a primitive
    with [Array.prototype.toString] (the elements joined with commas),
    converts that string to a number ([StringToNumber]) and compares the
    number with [1]; a comparison involving [NaN] is false. *)

Module JsCoerce.

(** The numeric value denoted by a string: [NaN], an infinity, or the
    mathematical value [(-1)^negative * digits * 10^exp10] that is then
    rounded to a double. *)
Inductive numeric :=
| NaN
| Infinite (negative : bool)
| Decimal (negative : bool) (digits : Z) (exp10 : Z).

Definition codes (s : string) : list Z :=
  map (fun c => Z.of_N (N_of_ascii c)) (list_ascii_of_string s).

(** [Array.prototype.toString]: [this.join(",")]. *)
Definition array_toString (l : list string) : string := String.concat "," l.

(** [StrWhiteSpaceChar], on the UTF-8 encoding: TAB, LF, VT, FF, CR, SP;
    then U+00A0; then U+1680, U+2000..U+200A, U+2028, U+2029, U+202F,
    U+205F, U+3000 and U+FEFF. *)
Definition ws1 (a : Z) : bool :=
  ((9 <=? a) && (a <=? 13)) || (a =? 32).

Definition ws2 (a b : Z) : bool := (a =? 194) && (b =? 160).

Definition ws3 (a b c : Z) : bool :=
  ((a =? 225) && (b =? 154) && (c =? 128))
  || ((a =? 226) && (b =? 128)
      && (((128 <=? c) && (c <=? 138)) || (c =? 168) || (c =? 169)
          || (c =? 175)))
  || ((a =? 226) && (b =? 129) && (c =? 159))
  || ((a =? 227) && (b =? 128) && (c =? 128))
  || ((a =? 239) && (b =? 187) && (c =? 191)).

(** Drop leading white space; with [backwards] the list is a reversed
    string, so the bytes of a character arrive last-first. *)
Fixpoint trim_start (backwards : bool) (l : list Z) : list Z :=
  match l with
  | [] => []
  | a :: r1 =>
      if ws1 a then trim_start backwards r1 else
      match r1 with
      | [] => l
      | b :: r2 =>
          if (if backwards then ws2 b a else ws2 a b)
          then trim_start backwards r2 else
          match r2 with
          | [] => l
          | c :: r3 =>
              if (if backwards then ws3 c b a else ws3 a b c)
              then trim_start backwards r3 else l
          end
      end
  end.

Definition trim (l : list Z) : list Z :=
  rev (trim_start true (rev (trim_start false l))).

(** The value of a digit in the given radix (2, 8, 10 or 16). *)
Definition digit_value (radix c : Z) : option Z :=
  let v :=
    if (48 <=? c) && (c <=? 57) then c - 48
    else if (97 <=? c) && (c <=? 102) then c - 87
    else if (65 <=? c) && (c <=? 70) then c - 55
    else radix in
  if v <? radix then Some v else None.

(** Read the longest run of digits: the accumulated value, the number of
    digits read and the unread rest. *)
Fixpoint read_digits (radix : Z) (l : list Z) (acc count : Z)
  : Z * Z * list Z :=
  match l with
  | [] => (acc, count, [])
  | c :: r =>
      match digit_value radix c with
      | Some d => read_digits radix r (radix * acc + d) (count + 1)
      | None => (acc, count, l)
      end
  end.

Definition is_nil {A} (l : list A) : bool :=
  match l with [] => true | _ => false end.

(** [ExponentPart_opt] followed by the end of the string. *)
Definition parse_exponent (l : list Z) : option Z :=
  match l with
  | [] => Some 0
  | c :: r =>
      if (c =? 101) || (c =? 69) then
        let '(neg, ds) :=
          match r with
          | s :: r' =>
              if s =? 43 then (false, r')
              else if s =? 45 then (true, r')
              else (false, r)
          | [] => (false, r)
          end in
        let '(v, n, rest) := read_digits 10 ds 0 0 in
        if (0 <? n) && is_nil rest
        then Some (if neg then - v else v) else None
      else None
  end.

(** [StrUnsignedDecimalLiteral] *)
Definition parse_unsigned (negative : bool) (l : list Z) : numeric :=
  if list_eq_dec Z.eq_dec l (codes "Infinity") then Infinite negative else
  let '(ip, n1, r1) := read_digits 10 l 0 0 in
  match r1 with
  | 46 :: r2 =>
      let '(m, n2, r3) := read_digits 10 r2 ip 0 in
      if (0 <? n1) || (0 <? n2) then
        match parse_exponent r3 with
        | Some e => Decimal negative m (e - n2)
        | None => NaN
        end
      else NaN
  | _ =>
      if 0 <? n1 then
        match parse_exponent r1 with
        | Some e => Decimal negative ip e
        | None => NaN
        end
      else NaN
  end.

(** [StrDecimalLiteral]: an optional sign, then the unsigned literal. *)
Definition parse_decimal (l : list Z) : numeric :=
  match l with
  | 43 :: r => parse_unsigned false r
  | 45 :: r => parse_unsigned true r
  | _ => parse_unsigned false l
  end.

(** The radix announced by a [0x], [0o] or [0b] prefix. *)
Definition prefix_radix (c : Z) : option Z :=
  if (c =? 120) || (c =? 88) then Some 16
  else if (c =? 111) || (c =? 79) then Some 8
  else if (c =? 98) || (c =? 66) then Some 2
  else None.

(** [StrNumericLiteral]: a non-decimal integer literal (never signed) or
    a decimal literal. *)
Definition parse_numeric (l : list Z) : numeric :=
  match l with
  | 48 :: p :: ds =>
      match prefix_radix p with
      | Some radix =>
          let '(v, n, rest) := read_digits radix ds 0 0 in
          if (0 <? n) && is_nil rest then Decimal false v 0 else NaN
      | None => parse_decimal l
      end
  | _ => parse_decimal l
  end.

(** [StringToNumber]: a string of white space only denotes [0]. *)
Definition StringToNumber (s : string) : numeric :=
  match trim (codes s) with
  | [] => Decimal false 0 0
  | l => parse_numeric l
  end.

(** [x < 1] for the double nearest to the value: the largest double
    below [1] is [1 - 2^-53], and the tie at [1 - 2^-54] rounds to the
    even significand, which is [1]; so the double is below [1] exactly
    when the value is below [1 - 2^-54]. *)
Definition lt_one (v : numeric) : bool :=
  match v with
  | NaN => false
  | Infinite negative => negative
  | Decimal true _ _ => true
  | Decimal false m e =>
      if 0 <=? e
      then m * 10 ^ e * 2 ^ 54 <? 2 ^ 54 - 1
      else m * 2 ^ 54 <? (2 ^ 54 - 1) * 10 ^ (- e)
  end.

(** [arr < 1] for an array of strings. *)
Definition array_lt_one (l : list string) : bool :=
  lt_one (StringToNumber (array_toString l)).

End JsCoerce.

(** ** The catalog (cli.js, lines 109-117) *)

(** [subDir => !subDir.startsWith(".")] *)
Definition not_hidden (subDir : string) : bool :=
  negb (String.prefix "." subDir).

(** [fs.readdirSync(pathToMigrations).filter(...)]: the listing with the
    hidden entries removed, in the order of the listing. *)
Definition dirNames_of (listing : list string) : list string :=
  filter not_hidden listing.

(** ** Script selection and SQL assembly (cli.js, lines 159-174) *)

Definition newline : string := String (ascii_of_nat 10) EmptyString.

Definition quote_mark : string := String (ascii_of_nat 34) EmptyString.

(** [resolve(dir, entry)] for an absolute, normalised [dir] and a single
    path component [entry], which is what a directory listing returns. *)
Definition resolve (dir entry : string) : string :=
  (dir ++ "/" ++ entry)%string.

(** [files => args.cmd === "commit" ? files[0] : files[1]] *)
Definition pick_script (cmd : command) (files : list string) : option string :=
  if is_commit cmd then JsArray.get files 0 else JsArray.get files 1.

(** [sql.reduce((sql, content) => sql.concat(content, "\n"), "")] *)
Definition concat_sql (contents : list string) : string :=
  fold_left (fun sql content => (sql ++ content ++ newline)%string)
    contents EmptyString.

(** ** Processes: console, exceptions and [process.exit] *)

Inductive outcome (A : Type) :=
| Val (a : A)
| Thrown (e : string)
| Exited (code : Z).
Arguments Val {A} a.
Arguments Thrown {A} e.
Arguments Exited {A} code.

Inductive level := info | error | log.

(** ** The database

    The [_migrations] table is a list of rows, each holding a cursor; the
    rest of the database is a value of an arbitrary type [data], acted on
    by an arbitrary SQL engine.  [None] means the table does not exist. *)

Record store (data : Type) := mkStore {
  migrations : option (list Z);
  tables : data
}.
Arguments mkStore {data}.
Arguments migrations {data}.
Arguments tables {data}.

Inductive pg_command :=
| BOOTSTRAP
| SELECT_CURSOR
| BEGIN
| QUERY (sql : string)
| UPDATE_CURSOR (cursor : Z)
| COMMIT
| ROLLBACK.

(** The database as the session of the transaction client has it: the
    committed database and the working copy of the open transaction, if
    any. *)
Definition session (data : Type) : Type :=
  (store data * option (store data))%type.

(** What the connection of the transaction client receives while a
    statement is awaited: an error ([m instanceof Error], with its [code]
    and its [toString()]), or another message with its [name] and, for
    some messages, a [text]. *)
Inductive message :=
| ErrorMessage (code text : string)
| Message (name : string) (text : option string).

(** The server the transaction client talks to.

    [sql_exec] is the SQL engine: running a script in a session gives the
    session it leaves behind and the error, if the script failed.  A
    script may carry statements of transaction control of its own, so it
    may change the committed database and close the transaction.

    [refused] tells, from the statements sent so far (the one now sent
    last), whether the server leaves the statement without effect and the
    client rejects it, as when the connection is lost; it gives the
    error.

    [heard] gives the messages the connection receives while the
    statement sent last is awaited. *)
Record server (data : Type) := mkServer {
  sql_exec : string -> session data -> session data * option string;
  refused : list pg_command -> option string;
  heard : list pg_command -> list message
}.
Arguments mkServer {data}.
Arguments sql_exec {data}.
Arguments refused {data}.
Arguments heard {data}.

(** The state of a run: what was printed, the committed database, the
    working copy of the open transaction (if any) and the statements sent
    so far. *)
Record world (data : Type) := mkWorld {
  console : list (level * string);
  durable : store data;
  working : option (store data);
  sent : list pg_command
}.
Arguments mkWorld {data}.
Arguments console {data}.
Arguments durable {data}.
Arguments working {data}.
Arguments sent {data}.

(** What the run reads from outside: the directory listings, the file
    contents and the answer of the selection menu.  A failing call carries
    the text of its error.  Of several reads started together,
    [settles_first] tells which of the failing ones fails first in time:
    it gives its position in the list of their errors. *)
Record environment := mkEnv {
  readdirSync : string -> string + list string;
  readDirAsync : string -> string + list string;
  readFileAsync : string -> string + string;
  spawnSelection : list string -> string + Z;
  settles_first : list string -> nat
}.

(** The errors of the calls that fail and the results of the calls that
    succeed, in list order. *)
Definition rejections {A B} (f : A -> string + B) (xs : list A)
  : list string :=
  flat_map (fun x => match f x with inl e => [e] | inr _ => [] end) xs.

Definition fulfilled {A B} (f : A -> string + B) (xs : list A) : list B :=
  flat_map (fun x => match f x with inl _ => [] | inr y => [y] end) xs.

Record arguments := mkArgs {
  cmd : command;
  all : bool
}.

Definition M (data A : Type) : Type := world data -> outcome A * world data.

Section Monad.
Context {data : Type}.

Definition ret {A} (a : A) : M data A := fun w => (Val a, w).

Definition bind {A B} (m : M data A) (f : A -> M data B) : M data B :=
  fun w =>
    match m w with
    | (Val a, w') => f a w'
    | (Thrown e, w') => (Thrown e, w')
    | (Exited c, w') => (Exited c, w')
    end.

Definition throw {A} (e : string) : M data A := fun w => (Thrown e, w).

(** [process.exit(code)]: nothing runs afterwards, not even [finally]. *)
Definition process_exit {A} (code : Z) : M data A :=
  fun w => (Exited code, w).

(** [try { body } catch (e) { handler }] *)
Definition try_catch {A} (body : M data A) (handler : string -> M data A)
  : M data A :=
  fun w =>
    match body w with
    | (Thrown e, w') => handler e w'
    | r => r
    end.

(** [try { body } finally { final }]: [final] runs after a normal or an
    abrupt completion of [body] and, when it completes normally, the
    completion of [body] stands. *)
Definition try_finally {A} (body : M data A) (final : M data unit)
  : M data A :=
  fun w =>
    match body w with
    | (Exited c, w') => (Exited c, w')
    | (r, w') =>
        match final w' with
        | (Val _, w'') => (r, w'')
        | (Thrown e, w'') => (Thrown e, w'')
        | (Exited c, w'') => (Exited c, w'')
        end
    end.

Definition print (l : level) (text : string) : M data unit :=
  fun w => (Val tt, mkWorld (console w ++ [(l, text)]) (durable w)
                      (working w) (sent w)).

(** A promise or a synchronous call that fails throws its error. *)
Definition await {A} (r : string + A) : M data A :=
  match r with
  | inl e => throw e
  | inr a => ret a
  end.

(** [await Promise.all(xs.map(f))]: every call is started; when all
    succeed the results come in list order, and otherwise the failure
    that comes first in time is thrown, which [first] picks among the
    errors. *)
Definition await_all {A B} (first : list string -> nat)
    (f : A -> string + B) (xs : list A) : M data (list B) :=
  match rejections f xs with
  | [] => ret (fulfilled f xs)
  | e :: es => throw (nth (first (e :: es)) (e :: es) e)
  end.

End Monad.

Notation "x <- m ;; k" := (bind m (fun x => k))
  (at level 61, m at next level, right associativity).
Notation "m ;;; k" := (bind m (fun _ => k))
  (at level 61, right associativity).

(** ** The program (cli.js, lines 86-200)

    The run starts after the connection test of lines 94-100 has passed;
    the two statements sent through [pool.query] are answered and act on
    the committed database.  Statements sent through the transaction
    client act on its session, may be refused, and have their messages
    printed by the listener of [debugClient]. *)

(** [debugClient] (lines 245-254): the listener it puts on the connection
    prints a line for every message that is an error or has a text. *)
Definition listener (m : message) : list (level * string) :=
  match m with
  | ErrorMessage code text =>
      [(error, ("postgres[error:" ++ code ++ "] " ++ text)%string)]
  | Message name (Some (String a text)) =>
      [(info, ("postgres[message:" ++ name ++ "] " ++ String a text)%string)]
  | Message _ _ => []
  end.

Section Program.
Context {data : Type}.

Variable pg : server data.

Definition send (c : pg_command) : M data unit :=
  fun w => (Val tt, mkWorld (console w) (durable w) (working w)
                      (sent w ++ [c])).

(** [CREATE TABLE IF NOT EXISTS _migrations(...); INSERT INTO
    _migrations(cursor) SELECT -1 WHERE NOT exists(SELECT 1 FROM
    _migrations)] *)
Definition bootstrap_store (s : store data) : store data :=
  mkStore
    (match migrations s with
     | None | Some [] => Some [-1]
     | Some rows => Some rows
     end)
    (tables s).

Definition pg_bootstrap : M data unit :=
  send BOOTSTRAP ;;;
  fun w => (Val tt, mkWorld (console w) (bootstrap_store (durable w))
                      (working w) (sent w)).

Definition no_relation : string := "relation _migrations does not exist".

(** [rows && rows[0] ? rows[0].cursor : -1] *)
Definition first_cursor (rows : list Z) : Z :=
  match rows with
  | c :: _ => c
  | [] => -1
  end.

(** [SELECT cursor FROM _migrations] through the pool. *)
Definition pg_select_cursor : M data Z :=
  send SELECT_CURSOR ;;;
  fun w =>
    match migrations (durable w) with
    | Some rows => (Val (first_cursor rows), w)
    | None => (Thrown no_relation, w)
    end.

(** The database a statement of the transaction client acts on. *)
Definition current (w : world data) : store data :=
  match working w with
  | Some s => s
  | None => durable w
  end.

(** Store the result of a statement of the transaction client: in the
    working copy inside a transaction, directly otherwise. *)
Definition put (s : store data) (w : world data) : world data :=
  match working w with
  | Some _ => mkWorld (console w) (durable w) (Some s) (sent w)
  | None => mkWorld (console w) s None (sent w)
  end.

(** [await transaction.query(...)] on the client of [debugClient]: the
    statement is sent, the listener prints what the connection receives,
    and the statement is refused or takes its [effect]. *)
Definition transaction_query (c : pg_command) (effect : M data unit)
  : M data unit :=
  fun w =>
    let history := sent w ++ [c] in
    let w' :=
      mkWorld (console w ++ flat_map listener (heard pg history))
        (durable w) (working w) history in
    match refused pg history with
    | Some e => (Thrown e, w')
    | None => effect w'
    end.

Definition pg_begin : M data unit :=
  transaction_query BEGIN
    (fun w => (Val tt, mkWorld (console w) (durable w) (Some (current w))
                         (sent w))).

Definition pg_query (sql : string) : M data unit :=
  transaction_query (QUERY sql)
    (fun w =>
       match sql_exec pg sql (durable w, working w) with
       | ((d, t), Some e) => (Thrown e, mkWorld (console w) d t (sent w))
       | ((d, t), None) => (Val tt, mkWorld (console w) d t (sent w))
       end).

(** [UPDATE _migrations SET cursor = $1, completed = now()] *)
Definition pg_update_cursor (n : Z) : M data unit :=
  transaction_query (UPDATE_CURSOR n)
    (fun w =>
       match migrations (current w) with
       | Some rows =>
           (Val tt, put (mkStore (Some (map (fun _ => n) rows))
                           (tables (current w))) w)
       | None => (Thrown no_relation, w)
       end).

Definition pg_commit : M data unit :=
  transaction_query COMMIT
    (fun w => (Val tt, mkWorld (console w) (current w) None (sent w))).

Definition pg_rollback : M data unit :=
  transaction_query ROLLBACK
    (fun w => (Val tt, mkWorld (console w) (durable w) None (sent w))).

(** [x || "clean"] for a string or [undefined]. *)
Definition or_clean (x : option string) : string :=
  match x with
  | None | Some EmptyString => "clean"
  | Some s => s
  end.

Definition cmd_name (c : command) : string :=
  match c with Commit => "commit" | Rollback => "rollback" end.

Definition reason (c : command) : string :=
  if is_commit c
  then "the database is already fully migrated"
  else "the database is already clean".

Definition type_error : string :=
  ("TypeError [ERR_INVALID_ARG_TYPE]: The " ++ quote_mark ++ "paths[1]"
   ++ quote_mark ++ " argument must be of type string. Received undefined")%string.

(** [fileArrays.map(files => ...).map((file, i) =>
    resolve(migrationDirPaths[i], file))]; [resolve] throws on
    [undefined]. *)
Fixpoint resolve_scripts (c : command) (dirs : list string)
    (fileArrays : list (list string)) : M data (list string) :=
  match dirs, fileArrays with
  | d :: ds, files :: rest =>
      match pick_script c files with
      | Some file =>
          paths <- resolve_scripts c ds rest ;;
          ret (resolve d file :: paths)
      | None => throw type_error
      end
  | _, _ => ret []
  end.

(** Lines 167-174. *)
Definition read_sql (env : environment) (c : command)
    (migrationDirPaths : list string) : M data string :=
  fileArrays <-
    await_all (settles_first env) (readDirAsync env) migrationDirPaths ;;
  scripts <- resolve_scripts c migrationDirPaths fileArrays ;;
  sql <- await_all (settles_first env) (readFileAsync env) scripts ;;
  ret (concat_sql sql).

(** Lines 182-199; the transaction client is the one of [debugClient],
    which the pool is taken to give, and releasing it plays no part. *)
Definition transact (c : command) (dirNames : list string) (sql : string)
    (newCursor : Z) : M data unit :=
  try_finally
    (try_catch
       (print info (newline ++ "Starting " ++ cmd_name c ++ "...") ;;;
        pg_begin ;;;
        pg_query sql ;;;
        pg_update_cursor newCursor ;;;
        pg_commit ;;;
        print info (newline ++ "Migration successful. Cursor now at: "
                    ++ or_clean (JsArray.get dirNames newCursor)))
       (fun e =>
          pg_rollback ;;;
          print info (newline ++ "Migration unsuccessful - view the log above for details. Cursor remains unchanged") ;;;
          print error ("Error during migration transaction: " ++ e) ;;;
          process_exit 1))
    (process_exit 0).

(** Lines 141-151: the stopping offset. *)
Definition choose (env : environment) (a : arguments) (prompt : string)
    (sub : list string) : M data Z :=
  if all a then ret (JsArray.len sub - 1)
  else
    try_catch
      (print log prompt ;;; await (spawnSelection env sub))
      (fun e =>
         print error ("Nothing was selected: You must select a migration to go to "
                      ++ e) ;;;
         process_exit 1).

Definition commitOrRollback (env : environment) (a : arguments)
    (pathToMigrations prompt : string) : M data unit :=
  pg_bootstrap ;;;
  dirNames <-
    try_catch
      (listing <- await (readdirSync env pathToMigrations) ;;
       ret (dirNames_of listing))
      (fun e =>
         print error ("Reading migrations directory failed. " ++ e) ;;;
         process_exit 1) ;;
  cursor <- pg_select_cursor ;;
  print info (newline ++ "Cursor currently at: "
              ++ or_clean (JsArray.get dirNames cursor)) ;;;
  let sub := subset (cmd a) dirNames cursor in
  if JsCoerce.array_lt_one sub then
    print info ("Cannot perform " ++ cmd_name (cmd a) ++ ": "
                ++ reason (cmd a)) ;;;
    process_exit 0
  else
    migrateTo <- choose env a prompt sub ;;
    let newCursor := newCursor (cmd a) dirNames sub migrateTo in
    let migrationDirPaths :=
      map (resolve pathToMigrations) (selected sub migrateTo) in
    sql <-
      try_catch
        (read_sql env (cmd a) migrationDirPaths)
        (fun e =>
           print error ("Error reading SQL migration files. " ++ e) ;;;
           process_exit 1) ;;
    transact (cmd a) dirNames sql newCursor.

(** Lines 27-38: the prompt that goes with each command. *)
Definition prompt_of (c : command) : string :=
  if is_commit c
  then "Please select a migration point to commit up to:"
  else "Please select a migration point to roll back past:".

Definition run (env : environment) (a : arguments)
    (pathToMigrations : string) : M data unit :=
  commitOrRollback env a pathToMigrations (prompt_of (cmd a)).

End Program.

(** ** Scaffolding (cli.js, lines 70-71): the two files [create] writes *)

Definition commit_file (migrationName : string) : string :=
  (migrationName ++ "_commit.sql")%string.

Definition rollback_file (migrationName : string) : string :=
  (migrationName ++ "_rollback.sql")%string.

(** ** The specification's vocabulary

    These definitions follow the words of the specification, to be
    compared with the definitions taken from the code. *)

(** Ascending lexicographic order on identifiers. *)
Definition name_le (a b : string) : Prop := String.leb a b = true.

Fixpoint insert_name (x : string) (l : list string) : list string :=
  match l with
  | [] => [x]
  | y :: r => if String.leb x y then x :: l else y :: insert_name x r
  end.

Definition sort_names (l : list string) : list string :=
  fold_right insert_name [] l.

(** The catalog of the specification: the non-hidden names sorted
    ascending by identifier string. *)
Definition sorted_catalog (listing : list string) : list string :=
  sort_names (filter not_hidden listing).

(** The script text of a unit: the text of the file that [pick_script]
    takes from the listing of the unit's directory. *)
Definition script_text (env : environment) (c : command) (dir text : string)
  : Prop :=
  exists files file,
    readDirAsync env dir = inr files /\
    pick_script c files = Some file /\
    readFileAsync env (resolve dir file) = inr text.

(** The script texts in order, a newline after each. *)
Definition sql_of (texts : list string) : string :=
  String.concat "" (map (fun t => (t ++ newline)%string) texts).

(** The stopping offset an operation works with: the last offset under
    [--all], the answer of the selection menu otherwise. *)
Definition offset (env : environment) (a : arguments) (sub : list string)
  : string + Z :=
  if all a then inr (JsArray.len sub - 1) else spawnSelection env sub.

(** The cursor an operation reads: the first row after the bootstrap. *)
Definition cursor_of {data} (w : world data) : Z :=
  match migrations (bootstrap_store (durable w)) with
  | Some rows => first_cursor rows
  | None => -1
  end.

(** The state in which the operation reaches the selection: bootstrapped,
    with the current position printed. *)
Definition resolved {data} (w : world data) (dirNames : list string)
  : world data :=
  mkWorld
    (console w ++
       [(info, (newline ++ "Cursor currently at: "
                ++ or_clean (JsArray.get dirNames (cursor_of w)))%string)])
    (bootstrap_store (durable w))
    (working w)
    (sent w ++ [BOOTSTRAP; SELECT_CURSOR]).

(** The state in which the operation reaches the transaction: the menu
    has been shown unless [--all] was given. *)
Definition prompted {data} (a : arguments) (w : world data) : world data :=
  if all a then w
  else mkWorld (console w ++ [(log, prompt_of (cmd a))]) (durable w)
         (working w) (sent w).

(** The lines a transaction prints. *)
Definition starting (c : command) : level * string :=
  (info, (newline ++ "Starting " ++ cmd_name c ++ "...")%string).

Definition unsuccessful : level * string :=
  (info, (newline ++ "Migration unsuccessful - view the log above for details. Cursor remains unchanged")%string).

Definition surfaced (e : string) : level * string :=
  (error, ("Error during migration transaction: " ++ e)%string).

Definition cannot_perform (c : command) : level * string :=
  (info, ("Cannot perform " ++ cmd_name c ++ ": " ++ reason c)%string).

(** A line that comes from the listener of [debugClient]. *)
Definition postgres_line (l : level * string) : Prop :=
  exists m : message, In l (listener m).

(** The server answers each of the [statements], sent one after the
    other after [history]. *)
Fixpoint answered {data} (pg : server data)
    (history statements : list pg_command) : bool :=
  match statements with
  | [] => true
  | c :: rest =>
      match refused pg (history ++ [c]) with
      | None => answered pg (history ++ [c]) rest
      | Some _ => false
      end
  end.

(** The session right after [BEGIN] on a database with no open
    transaction. *)
Definition begun {data} (s : store data) : session data := (s, Some s).

(** The database a statement sent in a session acts on. *)
Definition present {data} (db : session data) : store data :=
  match snd db with
  | Some t => t
  | None => fst db
  end.

(** What the listener prints while the [statements] are sent one after
    the other after [history]. *)
Fixpoint overheard {data} (pg : server data)
    (history statements : list pg_command) : list (level * string) :=
  match statements with
  | [] => []
  | c :: rest =>
      flat_map listener (heard pg (history ++ [c]))
        ++ overheard pg (history ++ [c]) rest
  end.

(** The script of a unit as the specification names it: among the file
    names of the unit's directory, the one that sorts first for a commit
    and the one that sorts second for a rollback. *)
Definition script_by_order (c : command) (files : list string)
  : option string :=
  JsArray.get (sort_names files) (if is_commit c then 0 else 1).

(** ** A small database and migrations directory to run the program on *)

Module Example.

(** The database remembers the scripts applied to it.  A script that
    mentions [FAIL] fails after changing the database, and when it also
    mentions [COMMIT] it has committed that change on its own before it
    fails; a script that mentions [DROP] removes the cursor table. *)
Definition engine (sql : string) (db : session (list string))
  : session (list string) * option string :=
  let s := match snd db with Some t => t | None => fst db end in
  let write (t : store (list string)) : session (list string) :=
    match snd db with Some _ => (fst db, Some t) | None => (t, None) end in
  match String.index 0 "FAIL" sql with
  | Some _ =>
      let half := mkStore (migrations s) (tables s ++ ["half"%string]) in
      (match String.index 0 "COMMIT" sql with
       | Some _ => (half, None)
       | None => write half
       end,
       Some "error: division by zero"%string)
  | None =>
      match String.index 0 "DROP" sql with
      | Some _ => (write (mkStore None (tables s ++ [sql])), None)
      | None => (write (mkStore (migrations s) (tables s ++ [sql])), None)
      end
  end.

Definition lost : string := "Error: Connection terminated unexpectedly".

(** What the connection hears for a statement that is answered. *)
Definition replies (history : list pg_command) : list message :=
  match last history BOOTSTRAP with
  | BEGIN => [Message "commandComplete" (Some "BEGIN"%string)]
  | COMMIT => [Message "commandComplete" (Some "COMMIT"%string)]
  | ROLLBACK => [Message "commandComplete" (Some "ROLLBACK"%string)]
  | UPDATE_CURSOR _ => [Message "commandComplete" (Some "UPDATE 1"%string)]
  | _ => [Message "readyForQuery" None]
  end.

(** A server that answers the first [patience] statements of the run,
    after which the connection is lost. *)
Definition postgres (patience : nat) : server (list string) :=
  mkServer engine
    (fun history =>
       if (patience <? List.length history)%nat then Some lost else None)
    (fun history =>
       if (patience <? List.length history)%nat then [] else replies history).

(** A server that answers whatever the runs below send. *)
Definition reliable : server (list string) := postgres 99.

(** Every unit directory lists the same [files]; the text of a file is
    its path between angle brackets. *)
Definition env (listing files : list string) (answer : string + Z)
  : environment :=
  mkEnv (fun _ => inr listing)
        (fun _ => inr files)
        (fun file => inr ("<" ++ file ++ ">")%string)
        (fun _ => answer)
        (fun _ => 0%nat).

Definition unit_files : list string := ["commit.sql"; "rollback.sql"]%string.

Definition start (rows : option (list Z)) : world (list string) :=
  mkWorld [] (mkStore rows []) None [].

End Example.

(** ** Command-line arguments (the module [cli.js] loads as
    [./parse-argv])

    [options] and [aliases] are plain objects, so [options[arg]] also finds
    what they inherit from [Object.prototype]: its methods, the object
    itself under the name [__proto__], and any property the loop has put
    on it.  The state of the loop is the [value] each option has got so
    far and whether [Object.prototype.value] has been set. *)

Module ParseArgv.

Definition dquote : string := String (ascii_of_nat 34) EmptyString.

Definition commands : list string := ["create"; "commit"; "rollback"]%string.

(** The keys of [options], in the order they are written. *)
Inductive key := all_key | env_key | migrations_key | prefix_key.

Definition keys : list key := [all_key; env_key; migrations_key; prefix_key].

Definition key_name (k : key) : string :=
  match k with
  | all_key => "--all"
  | env_key => "--env"
  | migrations_key => "--migrations"
  | prefix_key => "--prefix"
  end.

Inductive regex := filenameRgx | time_rgx.

Inductive js_value := js_true | js_false | js_string (s : string).

Definition valid_for (k : key) : list string :=
  match k with
  | all_key | env_key => ["commit"; "rollback"]%string
  | migrations_key => commands
  | prefix_key => ["create"]%string
  end.

Definition expect (k : key) : option regex :=
  match k with
  | all_key => None
  | env_key | migrations_key => Some filenameRgx
  | prefix_key => Some time_rgx
  end.

Definition default (k : key) : js_value :=
  match k with
  | all_key => js_false
  | env_key => js_string ".env"
  | migrations_key => js_string "postgres_migrations"
  | prefix_key => js_string "time"
  end.

Definition own_option (name : string) : option key :=
  if (name =? "--all")%string then Some all_key
  else if (name =? "--env")%string then Some env_key
  else if (name =? "--migrations")%string then Some migrations_key
  else if (name =? "--prefix")%string then Some prefix_key
  else None.

Definition aliases (name : string) : option string :=
  if (name =? "-a")%string then Some "--all"%string
  else if (name =? "-e")%string then Some "--env"%string
  else if (name =? "-m")%string then Some "--migrations"%string
  else if (name =? "-p")%string then Some "--prefix"%string
  else None.

(** [\w] *)
Definition word_byte (a : Z) : bool :=
  ((48 <=? a) && (a <=? 57)) || ((65 <=? a) && (a <=? 90))
  || ((97 <=? a) && (a <=? 122)) || (a =? 95).

(** A one-byte member of the class [[\\\/\w\s\._-]]. *)
Definition filename_byte (a : Z) : bool :=
  (a =? 92) || (a =? 47) || word_byte a || JsCoerce.ws1 a
  || (a =? 46) || (a =? 95) || (a =? 45).

(** Every character is in the class; the white space of [\s] beyond ASCII
    takes two or three bytes. *)
Fixpoint filename_chars (l : list Z) : bool :=
  match l with
  | [] => true
  | a :: r1 =>
      if filename_byte a then filename_chars r1 else
      match r1 with
      | [] => false
      | b :: r2 =>
          if JsCoerce.ws2 a b then filename_chars r2 else
          match r2 with
          | [] => false
          | c :: r3 =>
              if JsCoerce.ws3 a b c then filename_chars r3 else false
          end
      end
  end.

(** [rgx.test(value)] for [/^[\\\/\w\s\._-]+$/] and [/time/]. *)
Definition test (r : regex) (value : string) : bool :=
  match r with
  | filenameRgx =>
      negb (JsCoerce.is_nil (JsCoerce.codes value))
      && filename_chars (JsCoerce.codes value)
  | time_rgx =>
      match String.index 0 "time" value with
      | Some _ => true
      | None => false
      end
  end.

(** [String(rgx)] *)
Definition regex_text (r : regex) : string :=
  match r with
  | filenameRgx => "/^[\\\/\w\s\._-]+$/"
  | time_rgx => "/time/"
  end.

Record options := mkOptions {
  all_value : option js_value;
  env_value : option js_value;
  migrations_value : option js_value;
  prefix_value : option js_value;
  polluted : bool
}.

Definition initial : options := mkOptions None None None None false.

Definition own_value (o : options) (k : key) : option js_value :=
  match k with
  | all_key => all_value o
  | env_key => env_value o
  | migrations_key => migrations_value o
  | prefix_key => prefix_value o
  end.

(** [options[k].value = v] *)
Definition set_value (k : key) (v : js_value) (o : options) : options :=
  match k with
  | all_key =>
      mkOptions (Some v) (env_value o) (migrations_value o) (prefix_value o)
        (polluted o)
  | env_key =>
      mkOptions (all_value o) (Some v) (migrations_value o) (prefix_value o)
        (polluted o)
  | migrations_key =>
      mkOptions (all_value o) (env_value o) (Some v) (prefix_value o)
        (polluted o)
  | prefix_key =>
      mkOptions (all_value o) (env_value o) (migrations_value o) (Some v)
        (polluted o)
  end.

(** [Object.prototype.value = true] *)
Definition pollute (o : options) : options :=
  mkOptions (all_value o) (env_value o) (migrations_value o) (prefix_value o)
    true.

(** What [options[name]] finds. *)
Inductive property :=
| own (k : key)
| object_prototype
| inherited_function
| inherited_value
| undefined.

(** The methods of [Object.prototype]. *)
Definition prototype_functions : list string :=
  ["constructor"; "__defineGetter__"; "__defineSetter__"; "hasOwnProperty";
   "__lookupGetter__"; "__lookupSetter__"; "isPrototypeOf";
   "propertyIsEnumerable"; "toString"; "valueOf"; "toLocaleString"]%string.

Definition lookup (o : options) (name : string) : property :=
  match own_option name with
  | Some k => own k
  | None =>
      if (name =? "__proto__")%string then object_prototype
      else if existsb (String.eqb name) prototype_functions
      then inherited_function
      else if polluted o && (name =? "value")%string then inherited_value
      else undefined
  end.

(** [arg = options[arg] ? arg : aliases[arg]], then [options[arg]]; an
    [arg] that is not an alias becomes [undefined], and [options] has no
    property of that name. *)
Definition resolve_arg (o : options) (arg : string) : property :=
  match lookup o arg with
  | undefined =>
      match aliases arg with
      | Some long => lookup o long
      | None => undefined
      end
  | found => found
  end.

Inductive error :=
| incorrect_usage
| invalid_command (cmd : string)
| invalid_argument
| no_value (arg : string)
| invalid_value (arg value : string) (r : regex).

(** The text of the error thrown. *)
Definition message (e : error) : string :=
  match e with
  | incorrect_usage =>
      "Incorrect usage of migres. " ++ dquote
      ++ "Expected: create|commit|rollback [options]"
  | invalid_command cmd =>
      "Command is invalid. Got: " ++ cmd
      ++ " Expected: create, commit, rollback"
  | invalid_argument =>
      "Argument undefined is invalid. Options: --all, --env, --migrations, --prefix "
  | no_value arg =>
      "No value provided for arg " ++ arg ++ " where one was expected"
  | invalid_value arg value r =>
      "Invalid value for argument " ++ arg ++ ". Got: " ++ dquote ++ value
      ++ dquote ++ ", Expected: " ++ regex_text r
  end%string.

(** The [while] loop over [process.argv.slice(3)]. *)
Fixpoint parse_loop (o : options) (args : list string) : error + options :=
  match args with
  | [] => inr o
  | arg :: rest =>
      match resolve_arg o arg with
      | undefined => inl invalid_argument
      | object_prototype => parse_loop (pollute o) rest
      | inherited_function | inherited_value => parse_loop o rest
      | own k =>
          match expect k with
          | None => parse_loop (set_value k js_true o) rest
          | Some r =>
              match rest with
              | [] => inl (no_value (key_name k))
              | value :: rest' =>
                  if (value =? "")%string then inl (no_value (key_name k))
                  else if test r value
                  then parse_loop (set_value k (js_string value) o) rest'
                  else inl (invalid_value (key_name k) value r)
              end
          end
      end
  end.

(** [options[op].value], own or inherited. *)
Definition read_value (o : options) (k : key) : option js_value :=
  match own_value o k with
  | Some v => Some v
  | None => if polluted o then Some js_true else None
  end.

Definition truthy (v : js_value) : bool :=
  match v with
  | js_true => true
  | js_false => false
  | js_string s => negb (s =? "")%string
  end.

(** [options[op].value || options[op].default] *)
Definition or_default (o : options) (k : key) : js_value :=
  match read_value o k with
  | Some v => if truthy v then v else default k
  | None => default k
  end.

(** The exported object; [for (const op in options)] also visits the key
    [value] once [Object.prototype] has it. *)
Record exported := mkExported {
  cmd : string;
  all : js_value;
  env : js_value;
  migrations : js_value;
  prefix : js_value;
  value : option js_value
}.

Definition finish (cmd : string) (o : options) : exported :=
  mkExported cmd (or_default o all_key) (or_default o env_key)
    (or_default o migrations_key) (or_default o prefix_key)
    (if polluted o then Some js_true else None).

(** The module as a whole, from [process.argv]. *)
Definition parse_argv (argv : list string) : error + exported :=
  match argv with
  | _ :: _ :: cmd :: args =>
      if existsb (String.eqb cmd) commands then
        match parse_loop initial args with
        | inl e => inl e
        | inr o => inr (finish cmd o)
        end
      else inl (invalid_command cmd)
  | _ => inl incorrect_usage
  end.

End ParseArgv.

(** A command line written out option by option, to be compared with what
    the parser makes of it. *)

Module Settings.
Import ParseArgv.

(** One option as the user gives it: by its name or its alias, with the
    value that follows (not used for [--all]). *)
Record setting := mkSetting {
  setting_key : key;
  by_alias : bool;
  setting_value : string
}.

Definition alias_of (k : key) : string :=
  match k with
  | all_key => "-a"
  | env_key => "-e"
  | migrations_key => "-m"
  | prefix_key => "-p"
  end.

Definition render (s : setting) : list string :=
  (if by_alias s then alias_of (setting_key s) else key_name (setting_key s))
  :: match expect (setting_key s) with
     | None => []
     | Some _ => [setting_value s]
     end.

(** The value passes the test of its option. *)
Definition well_formed (s : setting) : Prop :=
  match expect (setting_key s) with
  | None => True
  | Some r => test r (setting_value s) = true
  end.

Definition given (s : setting) : js_value :=
  match expect (setting_key s) with
  | None => js_true
  | Some _ => js_string (setting_value s)
  end.

Definition apply_setting (o : options) (s : setting) : options :=
  set_value (setting_key s) (given s) o.

Definition key_eqb (a b : key) : bool :=
  match a, b with
  | all_key, all_key | env_key, env_key
  | migrations_key, migrations_key | prefix_key, prefix_key => true
  | _, _ => false
  end.

(** The value given last for a key, if any. *)
Fixpoint last_given (k : key) (ss : list setting) : option js_value :=
  match ss with
  | [] => None
  | s :: r =>
      match last_given k r with
      | Some v => Some v
      | None => if key_eqb (setting_key s) k then Some (given s) else None
      end
  end.

(** A validated value: [true] for a flag, a string that passes the test
    for an option with a value. *)
Definition validated (k : key) (v : js_value) : Prop :=
  match expect k with
  | None => v = js_true
  | Some r => exists s, v = js_string s /\ test r s = true
  end.

(** The value an option ends up with: the one given last, or its
    default. *)
Definition chosen (k : key) (ss : list setting) : js_value :=
  match last_given k ss with
  | Some v => v
  | None => default k
  end.

(** The field of the exported object that belongs to a key. *)
Definition field (e : exported) (k : key) : js_value :=
  match k with
  | all_key => all e
  | env_key => env e
  | migrations_key => migrations e
  | prefix_key => prefix e
  end.

End Settings.

(** ** Naming a new migration (cli.js, lines 50-55) *)

Module Create.

Definition code (c : ascii) : Z := Z.of_N (N_of_ascii c).

(** [.replace(/[\r\n]/g, "")] *)
Definition strip_line_breaks (l : list ascii) : list ascii :=
  filter (fun c => negb ((code c =? 13) || (code c =? 10))) l.

(** [.replace(/\s/g, "_")]: every white space character, of one, two or
    three bytes, becomes one underscore. *)
Fixpoint underscore_spaces (l : list ascii) : list ascii :=
  match l with
  | [] => []
  | a :: r1 =>
      if JsCoerce.ws1 (code a) then "_"%char :: underscore_spaces r1 else
      match r1 with
      | [] => [a]
      | b :: r2 =>
          if JsCoerce.ws2 (code a) (code b)
          then "_"%char :: underscore_spaces r2 else
          match r2 with
          | [] => a :: underscore_spaces r1
          | c :: r3 =>
              if JsCoerce.ws3 (code a) (code b) (code c)
              then "_"%char :: underscore_spaces r3
              else a :: underscore_spaces r1
          end
      end
  end.

(** [x || "new_migration"] *)
Definition or_new_migration (x : string) : string :=
  if (x =? "")%string then "new_migration"%string else x.

(** [JSON.parse(JSON.stringify(x))] gives a string back as it is; then
    the two replacements. *)
Definition sanitise (x : string) : string :=
  string_of_list_ascii
    (underscore_spaces (strip_line_breaks (list_ascii_of_string x))).

Definition digit_char (d : Z) : ascii := ascii_of_N (Z.to_N (48 + d)).

(** The [k] lowest decimal digits of [n], the highest first. *)
Fixpoint fixed (k : nat) (n : Z) : string :=
  match k with
  | O => EmptyString
  | S k' => String (digit_char ((n / 10 ^ Z.of_nat k') mod 10)) (fixed k' n)
  end.

(** The number of decimal digits of [n >= 0], counting up from [k]. *)
Fixpoint width_from (fuel k : nat) (n : Z) : nat :=
  match fuel with
  | O => k
  | S fuel' =>
      if n <? 10 ^ Z.of_nat k then k else width_from fuel' (S k) n
  end.

Definition width (n : Z) : nat := width_from (Z.to_nat (Z.log2 n)) 1 n.

(** The decimal text of an integer, as in [`${Date.now()}`]. *)
Definition number_toString (n : Z) : string :=
  if n <? 0 then String "-"%char (fixed (width (- n)) (- n))
  else fixed (width n) n.

(** Lines 50-55: the answer to the prompt, made into the name of the
    directory, at the time [now]. *)
Definition migrationName (now : Z) (answer : string) : string :=
  (number_toString now ++ "_"
   ++ or_new_migration (sanitise (or_new_migration answer)))%string.

(** No white space character starts at any byte of the text. *)
Fixpoint no_space (l : list ascii) : bool :=
  match l with
  | [] => true
  | a :: r1 =>
      negb (JsCoerce.ws1 (code a))
      && negb (match r1 with
               | [] => false
               | b :: r2 =>
                   JsCoerce.ws2 (code a) (code b)
                   || match r2 with
                      | [] => false
                      | c :: _ => JsCoerce.ws3 (code a) (code b) (code c)
                      end
               end)
      && no_space r1
  end.

(** A byte is kept where no white space character starts. *)
Definition kept_at (l : list ascii) : Prop :=
  match l with
  | [] => False
  | a :: r1 =>
      JsCoerce.ws1 (code a) = false /\
      match r1 with
      | [] => True
      | b :: r2 =>
          JsCoerce.ws2 (code a) (code b) = false /\
          match r2 with
          | [] => True
          | c :: _ => JsCoerce.ws3 (code a) (code b) (code c) = false
          end
      end
  end.

(** A byte that is not white space and starts no longer character. *)
Definition plain (c : ascii) : Prop :=
  JsCoerce.ws1 (code c) = false /\ code c < 128.

End Create.

(** ** Reasons for a failed connection (cli.js, lines 257-269) *)

Definition pgVars : list string :=
  ["PGDATABASE"; "PGHOST"; "PGPASSWORD"; "PGPORT"; "PGUSER"]%string.

(** [!process.env[pgv]]: not set, or set to the empty string. *)
Definition not_present (process_env : string -> option string)
    (pgv : string) : bool :=
  match process_env pgv with
  | None => true
  | Some v => (v =? "")%string
  end.

Definition verifyEnv (process_env : string -> option string)
    (existsSync : string -> bool) (pathToEnv : string) : list string :=
  let varsNotPresent := filter (not_present process_env) pgVars in
  (if (0 <? JsArray.len varsNotPresent)
   then [("Some pg environment variables are not present. Missing variables: "
          ++ String.concat ", " varsNotPresent)%string]
   else [])
  ++ (if existsSync pathToEnv then []
      else [("No env file was found at path " ++ pathToEnv)%string]).

(** An ASCII character that no number is written with: not a letter, a
    digit, a sign, a dot or white space. *)
Definition foreign (c : Z) : bool :=
  (0 <=? c) && (c <? 128) && negb (JsCoerce.ws1 c)
  && negb ((48 <=? c) && (c <=? 57))
  && negb ((65 <=? c) && (c <=? 90))
  && negb ((97 <=? c) && (c <=? 122))
  && negb (c =? 43) && negb (c =? 45) && negb (c =? 46).

(** ** The earlier version of the operation (the second unnamed source
    file, lines 85-159)

    It takes the command as a text, lists the directory outside any [try],
    has no [--all], and wraps the selection, the reading of the scripts
    and the transaction in one [try] whose [catch] sends ROLLBACK and
    whose [finally] exits with status 0. *)

Module Legacy.

Section Program.
Context {data : Type}.
Variable pg : server data.

(** How [console.error("... %s", e)] prints the error caught. *)
Variable format_error : string -> string.

(** [cmd === "commit"] decides everything that depends on the direction. *)
Definition direction (cmd : string) : command :=
  if (cmd =? "commit")%string then Commit else Rollback.

Definition not_found (pathToMigrations : string) : string :=
  ("Error: Directory at path: " ++ pathToMigrations
   ++ " could not be found")%string.

Definition commitOrRollback (env : environment) (existsSync : string -> bool)
    (pathToMigrations prompt cmd : string) : M data unit :=
  if negb (existsSync pathToMigrations)
  then throw (not_found pathToMigrations)
  else
    pg_bootstrap ;;;
    listing <- await (readdirSync env pathToMigrations) ;;
    let dirNames := dirNames_of listing in
    cursor <- pg_select_cursor ;;
    print info ("Currently at: " ++ or_clean (JsArray.get dirNames cursor)) ;;;
    let sub := subset (direction cmd) dirNames cursor in
    if JsCoerce.array_lt_one sub then
      print error ("Cannot perform " ++ cmd ++ ": "
                   ++ reason (direction cmd)) ;;;
      process_exit 0
    else
      try_finally
        (try_catch
           (print log prompt ;;;
            selected_offset <- await (spawnSelection env sub) ;;
            let newCursor :=
              newCursor (direction cmd) dirNames sub selected_offset in
            let migrationDirPaths :=
              map (resolve pathToMigrations) (selected sub selected_offset) in
            sql <- read_sql env (direction cmd) migrationDirPaths ;;
            pg_begin pg ;;;
            pg_query pg sql ;;;
            pg_update_cursor pg newCursor ;;;
            pg_commit pg)
           (fun e =>
              pg_rollback pg ;;;
              print error ("Error occurred - exiting migration: "
                           ++ format_error e)))
        (process_exit 0).

End Program.

End Legacy.

(** The lines an operation prints when it stops before the transaction. *)
Definition reading_failed (e : string) : level * string :=
  (error, ("Reading migrations directory failed. " ++ e)%string).

Definition nothing_selected (e : string) : level * string :=
  (error,
   ("Nothing was selected: You must select a migration to go to " ++ e)%string).

Definition sql_read_failed (e : string) : level * string :=
  (error, ("Error reading SQL migration files. " ++ e)%string).

Definition successful (dirNames : list string) (n : Z) : level * string :=
  (info, (newline ++ "Migration successful. Cursor now at: "
          ++ or_clean (JsArray.get dirNames n))%string).

(** The ways the three passes of [read_sql] over the selected directories
    can end: all read, or a failure in one of the passes. *)
Inductive passes {data : Type} (env : environment) (c : command)
    (dirs : list string) : Prop :=
| all_read (fileArrays : list (list string)) (scripts texts : list string) :
    (forall w : world data,
        await_all (settles_first env) (readDirAsync env) dirs w
        = (Val fileArrays, w)) ->
    (forall w : world data,
        resolve_scripts c dirs fileArrays w = (Val scripts, w)) ->
    (forall w : world data,
        await_all (settles_first env) (readFileAsync env) scripts w
        = (Val texts, w)) ->
    Forall2 (script_text env c) dirs texts ->
    passes env c dirs
| listing_thrown (e : string) :
    (forall w : world data,
        await_all (settles_first env) (readDirAsync env) dirs w
        = (Thrown e, w)) ->
    passes env c dirs
| script_missing (fileArrays : list (list string)) :
    (forall w : world data,
        await_all (settles_first env) (readDirAsync env) dirs w
        = (Val fileArrays, w)) ->
    (forall w : world data,
        resolve_scripts c dirs fileArrays w = (Thrown type_error, w)) ->
    passes env c dirs
| file_thrown (fileArrays : list (list string)) (scripts : list string)
    (e : string) :
    (forall w : world data,
        await_all (settles_first env) (readDirAsync env) dirs w
        = (Val fileArrays, w)) ->
    (forall w : world data,
        resolve_scripts c dirs fileArrays w = (Val scripts, w)) ->
    (forall w : world data,
        await_all (settles_first env) (readFileAsync env) scripts w
        = (Thrown e, w)) ->
    passes env c dirs.

(** ** Proof automation *)

(** Run the statements of [transact] up to the next answer of the
    server. *)
Ltac run_transact Hw :=
  repeat progress
    (unfold transact, try_finally, try_catch, bind, print, pg_begin,
       pg_query, pg_update_cursor, pg_commit, pg_rollback,
       transaction_query, send, process_exit, put, current, begun, present;
     cbn [durable sent console working fst snd app];
     rewrite <- ?app_assoc;
     rewrite ?Hw).

(** Bring the statements sent and the lines printed to their normal
    form. *)
Ltac normal_form :=
  cbn [overheard fst snd durable sent console working];
  rewrite <- ?app_assoc; cbn [app]; rewrite ?app_nil_r.

(** ** Basic facts about the array primitives *)

Section ArrayFacts.
Context {A : Type}.
Implicit Types l : list A.

Lemma slice_from_skipn l (n : Z) :
  0 <= n <= JsArray.len l ->
  JsArray.slice_from l n = skipn (Z.to_nat n) l.
Proof.
  intros H. unfold JsArray.slice_from, JsArray.rel_index.
  destruct (Z.ltb_spec n 0); [lia|].
  now rewrite Z.min_l by lia.
Qed.

Lemma reverse_rev l : JsArray.reverse l = rev l.
Proof.
  unfold JsArray.reverse, JsArray.slice_from, JsArray.rel_index. simpl.
  rewrite Z.min_l by (unfold JsArray.len; lia). reflexivity.
Qed.

Lemma len_rev l : JsArray.len (rev l) = JsArray.len l.
Proof. unfold JsArray.len. now rewrite length_rev. Qed.

Lemma skipn_rev_firstn l (n : nat) :
  (n <= List.length l)%nat ->
  skipn (List.length l - n) (rev l) = rev (firstn n l).
Proof.
  intros H. rewrite skipn_rev. do 2 f_equal. lia.
Qed.

Lemma slice_prefix l (n : Z) :
  0 <= n ->
  JsArray.slice l 0 n = firstn (Z.to_nat n) l.
Proof.
  intros H. unfold JsArray.slice, JsArray.rel_index. simpl.
  destruct (Z.ltb_spec n 0); [lia|].
  rewrite (Z.min_l 0) by (unfold JsArray.len; lia). simpl.
  rewrite Z.sub_0_r.
  destruct (Z.le_gt_cases n (JsArray.len l)).
  - rewrite Z.min_l by lia. now rewrite Z.max_l by lia.
  - rewrite Z.min_r by lia. rewrite Z.max_l by (unfold JsArray.len; lia).
    unfold JsArray.len in *. rewrite Nat2Z.id.
    rewrite firstn_all. symmetry. apply firstn_all2. lia.
Qed.

End ArrayFacts.

(** ** Subset resolution *)

Section SubsetResolution.

Variable C : list string.
Variable k : Z.
Hypothesis k_range : -1 <= k < JsArray.len C.

Lemma subset_forward : subset Commit C k = skipn (Z.to_nat (k + 1)) C.
Proof. unfold subset; simpl. apply slice_from_skipn. lia. Qed.

Lemma subset_backward :
  subset Rollback C k = rev (firstn (Z.to_nat (k + 1)) C).
Proof.
  unfold subset; simpl. rewrite reverse_rev.
  rewrite slice_from_skipn by (rewrite len_rev; lia).
  unfold JsArray.len in *.
  replace (Z.to_nat (Z.of_nat (List.length C) - (k + 1)))
    with (List.length C - Z.to_nat (k + 1))%nat by lia.
  apply skipn_rev_firstn. lia.
Qed.

End SubsetResolution.

(** ** [findIndex] returns the first match *)

Section FindIndex.
Context {A : Type}.
Variable p : A -> bool.

Lemma get_of_nat (l : list A) (n : nat) :
  JsArray.get l (Z.of_nat n) = nth_error l n.
Proof.
  unfold JsArray.get. destruct (Z.ltb_spec (Z.of_nat n) 0); [lia|].
  now rewrite Nat2Z.id.
Qed.

Lemma get_Some (l : list A) (i : Z) (x : A) :
  JsArray.get l i = Some x ->
  0 <= i < JsArray.len l /\ nth_error l (Z.to_nat i) = Some x.
Proof.
  unfold JsArray.get, JsArray.len.
  destruct (Z.ltb_spec i 0); [discriminate|]. intros E. split; [|exact E].
  assert (nth_error l (Z.to_nat i) <> None) as N by congruence.
  apply nth_error_Some in N. lia.
Qed.

Lemma get_in_range (l : list A) (i : Z) :
  0 <= i < JsArray.len l -> exists x, JsArray.get l i = Some x.
Proof.
  unfold JsArray.get, JsArray.len. intros H.
  destruct (Z.ltb_spec i 0); [lia|].
  destruct (nth_error l (Z.to_nat i)) eqn:E; [eauto|].
  apply nth_error_None in E. lia.
Qed.

Lemma findIndex_from_first (l : list A) :
  forall (i : Z) (n : nat) (x : A),
    nth_error l n = Some x ->
    p x = true ->
    (forall m y, (m < n)%nat -> nth_error l m = Some y -> p y = false) ->
    JsArray.findIndex_from p l i = i + Z.of_nat n.
Proof.
  induction l as [|a l IH]; intros i n x Hn Hp Hfirst.
  - destruct n; discriminate.
  - destruct n as [|n]; simpl in *.
    + injection Hn as ->. rewrite Hp. lia.
    + rewrite (Hfirst 0%nat a) by (reflexivity || lia).
      rewrite (IH (i + 1) n x Hn Hp); [lia|].
      intros m y Hm E. apply (Hfirst (S m) y); [lia | exact E].
Qed.

Lemma findIndex_from_found (l : list A) :
  forall (i : Z) (n : nat) (x : A),
    nth_error l n = Some x ->
    p x = true ->
    exists m y,
      (m <= n)%nat /\ nth_error l m = Some y /\ p y = true /\
      (forall j z, (j < m)%nat -> nth_error l j = Some z -> p z = false) /\
      JsArray.findIndex_from p l i = i + Z.of_nat m.
Proof.
  induction l as [|a l IH]; intros i n x Hn Hp.
  - destruct n; discriminate.
  - simpl. destruct (p a) eqn:Ea.
    + exists 0%nat, a. repeat split; try lia; auto.
    + destruct n as [|n]; simpl in Hn.
      * injection Hn as ->. congruence.
      * destruct (IH (i + 1) n x Hn Hp) as (m & y & Hm & Ey & Py & F & E).
        exists (S m), y. repeat split; try lia; auto.
        intros [|j] z Hj Ez; simpl in Ez.
        -- injection Ez as <-. exact Ea.
        -- apply (F j z); [lia | exact Ez].
Qed.

End FindIndex.

Lemma strict_eq_entry_true (x d : string) :
  strict_eq_entry (Some x) d = true <-> d = x.
Proof. simpl. apply String.eqb_eq. Qed.

(** In a catalog without duplicates the search finds the position of the
    name. *)
Lemma findIndex_NoDup (C : list string) (i : Z) (x : string) :
  NoDup C ->
  JsArray.get C i = Some x ->
  JsArray.findIndex (strict_eq_entry (Some x)) C = i.
Proof.
  intros ND E. apply get_Some in E as [R E].
  unfold JsArray.findIndex.
  rewrite (findIndex_from_first _ C 0 (Z.to_nat i) x E).
  - lia.
  - now apply strict_eq_entry_true.
  - intros m y Hm Ey. destruct (strict_eq_entry (Some x) y) eqn:T; [|easy].
    apply strict_eq_entry_true in T. subst y.
    assert (m = Z.to_nat i); [|lia].
    apply (proj1 (NoDup_nth_error C) ND).
    + apply nth_error_Some. congruence.
    + congruence.
Qed.

(** In any catalog the search finds the first position that holds the
    name. *)
Lemma findIndex_first_match (C : list string) (pos : Z) (x : string) :
  JsArray.get C pos = Some x ->
  let i := JsArray.findIndex (strict_eq_entry (Some x)) C in
  0 <= i <= pos /\ JsArray.get C i = Some x /\
  (forall j, 0 <= j < i -> JsArray.get C j <> Some x).
Proof.
  intros E i. apply get_Some in E as [R E].
  destruct (findIndex_from_found (strict_eq_entry (Some x)) C 0
              (Z.to_nat pos) x E) as (m & y & Hm & Ey & Py & F & Ei).
  { now apply strict_eq_entry_true. }
  apply strict_eq_entry_true in Py. subst y.
  assert (i = Z.of_nat m) as -> by (unfold i, JsArray.findIndex; lia).
  split; [lia|]. split; [now rewrite get_of_nat|].
  intros j Hj Ej. apply get_Some in Ej as [_ Ej].
  assert (strict_eq_entry (Some x) x = false) as T
    by (apply (F (Z.to_nat j)); [lia | exact Ej]).
  simpl in T. now rewrite String.eqb_refl in T.
Qed.

(** ** Positions of the subset entries in the catalog *)

Lemma subset_incl (c : command) (C : list string) (cursor : Z) :
  incl (subset c C cursor) C.
Proof.
  intros x. unfold subset, JsArray.slice_from.
  destruct (is_commit c); intros H.
  - revert H. generalize (Z.to_nat (JsArray.rel_index (JsArray.len C) (cursor + 1))).
    intros n H. rewrite <- (firstn_skipn n C). apply in_or_app. now right.
  - rewrite reverse_rev in H. apply in_rev.
    revert H.
    generalize (Z.to_nat (JsArray.rel_index (JsArray.len (rev C))
                            (JsArray.len C - (cursor + 1)))).
    intros n H. rewrite <- (firstn_skipn n (rev C)). apply in_or_app.
    now right.
Qed.


Section Positions.

Variable C : list string.
Variable k : Z.
Hypothesis k_range : -1 <= k < JsArray.len C.

Lemma len_subset_forward :
  JsArray.len (subset Commit C k) = JsArray.len C - (k + 1).
Proof.
  rewrite subset_forward by exact k_range.
  unfold JsArray.len in *. rewrite length_skipn. lia.
Qed.

Lemma len_subset_backward :
  JsArray.len (subset Rollback C k) = k + 1.
Proof.
  rewrite subset_backward by exact k_range.
  unfold JsArray.len in *. rewrite length_rev, length_firstn. lia.
Qed.

Lemma get_subset_forward (s : Z) :
  0 <= s ->
  JsArray.get (subset Commit C k) s = JsArray.get C (k + 1 + s).
Proof.
  intros Hs. rewrite subset_forward by exact k_range.
  unfold JsArray.get.
  destruct (Z.ltb_spec s 0); [lia|].
  destruct (Z.ltb_spec (k + 1 + s) 0); [lia|].
  rewrite nth_error_skipn. f_equal. lia.
Qed.

Lemma get_subset_backward (s : Z) :
  0 <= s < k + 1 ->
  JsArray.get (subset Rollback C k) s = JsArray.get C (k - s).
Proof.
  intros Hs. rewrite subset_backward by exact k_range.
  unfold JsArray.get, JsArray.len in *.
  destruct (Z.ltb_spec s 0); [lia|].
  destruct (Z.ltb_spec (k - s) 0); [lia|].
  rewrite nth_error_rev, length_firstn.
  destruct (Nat.ltb_spec (Z.to_nat s) (Nat.min (Z.to_nat (k + 1)) (List.length C)));
    [|lia].
  rewrite nth_error_firstn.
  destruct (Nat.ltb_spec
              (Nat.min (Z.to_nat (k + 1)) (List.length C) - S (Z.to_nat s))
              (Z.to_nat (k + 1))); [|lia].
  f_equal. lia.
Qed.

(** The position in the catalog of the entry at offset [s]. *)
Lemma get_subset_position (c : command) (s : Z) :
  0 <= s < JsArray.len (subset c C k) ->
  JsArray.get (subset c C k) s
  = JsArray.get C (if is_commit c then k + 1 + s else k - s).
Proof.
  destruct c; simpl; intros Hs.
  - apply get_subset_forward. lia.
  - apply get_subset_backward. rewrite len_subset_backward in Hs. lia.
Qed.

End Positions.

(** C1. For every catalog [C] and cursor [k] with [-1 <= k < len(C)], the
    subset resolved for a forward (commit) operation is [C[k+1:]] in
    ascending (catalog) order, and the subset resolved for a backward
    (rollback) operation is [reverse(C[0:k+1])]. *)
Theorem subset_resolution (C : list string) (k : Z) :
  -1 <= k < JsArray.len C ->
  subset Commit C k = skipn (Z.to_nat (k + 1)) C /\
  subset Rollback C k = rev (firstn (Z.to_nat (k + 1)) C).
Proof.
  intros H. split; [now apply subset_forward | now apply subset_backward].
Qed.

Lemma subset_resolution_witness :
  -1 <= 1 < JsArray.len ["A"; "B"; "C"; "D"]%string /\
  subset Commit ["A"; "B"; "C"; "D"]%string 1 = ["C"; "D"]%string /\
  subset Rollback ["A"; "B"; "C"; "D"]%string 1 = ["B"; "A"]%string.
Proof.
  split; [vm_compute; split; congruence|].
  apply (subset_resolution ["A"; "B"; "C"; "D"]%string 1).
  vm_compute; split; congruence.
Defined.

(** ** The new cursor *)

Lemma newCursor_NoDup (c : command) (C sub : list string) (s i : Z) :
  NoDup C ->
  (exists x, JsArray.get C i = Some x) ->
  JsArray.get sub s = JsArray.get C i ->
  newCursor c C sub s = (if is_commit c then i else i - 1).
Proof.
  intros ND [x Ex] E. unfold newCursor. rewrite E, Ex.
  now rewrite (findIndex_NoDup C i x ND Ex).
Qed.

(** C7. Round trip: in a catalog with pairwise distinct names, a commit
    from cursor [k] to offset [s] gives the cursor [j = k + 1 + s]; a
    rollback from [j] with an offset that selects the unit at catalog index
    [k + 1] (the offset [s] does) gives back the cursor [k]. *)
Theorem round_trip (C : list string) (k s : Z) :
  NoDup C ->
  -1 <= k < JsArray.len C ->
  0 <= s < JsArray.len (subset Commit C k) ->
  let j := newCursor Commit C (subset Commit C k) s in
  j = k + 1 + s /\
  JsArray.get (subset Rollback C j) s = JsArray.get C (k + 1) /\
  forall s', JsArray.get (subset Rollback C j) s' = JsArray.get C (k + 1) ->
             newCursor Rollback C (subset Rollback C j) s' = k.
Proof.
  intros ND Hk Hs j.
  pose proof (len_subset_forward C k Hk) as L.
  assert (j = k + 1 + s) as Ej.
  { unfold j. apply (newCursor_NoDup Commit); auto.
    - apply get_in_range. lia.
    - apply get_subset_forward; lia. }
  split; [exact Ej|]. rewrite Ej.
  assert (-1 <= k + 1 + s < JsArray.len C) as Hj by lia.
  split.
  - rewrite (get_subset_backward C (k + 1 + s) Hj) by lia. f_equal. lia.
  - intros s' E.
    rewrite (newCursor_NoDup Rollback C _ s' (k + 1)); auto.
    + simpl. lia.
    + apply get_in_range. lia.
Qed.

Lemma round_trip_witness :
  newCursor Commit ["A"; "B"; "C"; "D"]%string
    (subset Commit ["A"; "B"; "C"; "D"]%string 0) 1 = 2 /\
  newCursor Rollback ["A"; "B"; "C"; "D"]%string
    (subset Rollback ["A"; "B"; "C"; "D"]%string 2) 1 = 0.
Proof.
  assert (NoDup ["A"; "B"; "C"; "D"]%string) as ND
    by (repeat constructor; simpl; intuition discriminate).
  assert (-1 <= 0 < JsArray.len ["A"; "B"; "C"; "D"]%string) as Hk
    by (vm_compute; split; congruence).
  assert (0 <= 1 < JsArray.len (subset Commit ["A"; "B"; "C"; "D"]%string 0))
    as Hs by (vm_compute; split; congruence).
  destruct (round_trip ["A"; "B"; "C"; "D"]%string 0 1 ND Hk Hs)
    as (Ej & Es & Back).
  split; [exact Ej|].
  exact (Back 1 eq_refl).
Defined.

(** C10. The new cursor is found by searching the whole catalog for the
    first name equal to the selected subset entry: it is the least index
    holding that name (minus one for a rollback), which is at most the
    position the entry was taken from; when the names are pairwise
    distinct it is [cursor + 1 + s] for a commit and [cursor - s - 1] for a
    rollback; with duplicate names it can differ from the position of the
    selected unit, as in the catalog [a, a] at cursor [0]. *)
Theorem new_cursor_first_match :
  (forall (C : list string) (k : Z) (c : command) (s : Z),
      -1 <= k < JsArray.len C ->
      0 <= s < JsArray.len (subset c C k) ->
      let pos := if is_commit c then k + 1 + s else k - s in
      let i :=
        JsArray.findIndex
          (strict_eq_entry (JsArray.get (subset c C k) s)) C in
      newCursor c C (subset c C k) s = (if is_commit c then i else i - 1) /\
      0 <= i <= pos /\
      JsArray.get C i = JsArray.get C pos /\
      (forall j, 0 <= j < i -> JsArray.get C j <> JsArray.get C pos) /\
      (NoDup C ->
       newCursor c C (subset c C k) s
       = if is_commit c then k + 1 + s else k - s - 1))
  /\
  (JsArray.get (subset Commit ["a"; "a"]%string 0) 0
   = JsArray.get ["a"; "a"]%string 1 /\
   newCursor Commit ["a"; "a"]%string (subset Commit ["a"; "a"]%string 0) 0
   = 0).
Proof.
  split; [|split; reflexivity].
  intros C k c s Hk Hs pos i.
  pose proof (get_subset_position C k Hk c s Hs) as P. fold pos in P.
  destruct (get_in_range _ _ Hs) as [x Ex].
  assert (JsArray.get C pos = Some x) as Ep by congruence.
  split; [reflexivity|].
  unfold i. rewrite Ex, Ep.
  destruct (findIndex_first_match C pos x Ep) as (R & G & F).
  split; [exact R|]. split; [exact G|]. split; [exact F|].
  intros ND.
  rewrite (newCursor_NoDup c C _ s pos ND); eauto.
  unfold pos. destruct c; simpl; lia.
Qed.

Lemma new_cursor_first_match_witness :
  newCursor Rollback ["A"; "B"; "C"; "D"]%string
    (subset Rollback ["A"; "B"; "C"; "D"]%string 2) 1 = 2 - 1 - 1.
Proof.
  assert (-1 <= 2 < JsArray.len ["A"; "B"; "C"; "D"]%string) as Hk
    by (vm_compute; split; congruence).
  assert (0 <= 1 < JsArray.len (subset Rollback ["A"; "B"; "C"; "D"]%string 2))
    as Hs by (vm_compute; split; congruence).
  destruct (proj1 new_cursor_first_match
              ["A"; "B"; "C"; "D"]%string 2 Rollback 1 Hk Hs)
    as (_ & _ & _ & _ & Distinct).
  apply Distinct.
  repeat constructor; simpl; intuition discriminate.
Defined.

(** ** The order on identifiers and sorted listings *)

Lemma compare_Lt_trans (a b c : string) :
  String.compare a b = Lt -> String.compare b c = Lt ->
  String.compare a c = Lt.
Proof.
  revert b c. induction a as [|x a IH]; intros [|y b] [|z c]; simpl;
    try congruence.
  unfold Ascii.compare.
  destruct (N.compare_spec (N_of_ascii x) (N_of_ascii y)) as [E1|L1|G1];
    destruct (N.compare_spec (N_of_ascii y) (N_of_ascii z)) as [E2|L2|G2];
    try congruence; intros H1 H2.
  - rewrite E1, E2, N.compare_refl. eauto.
  - rewrite E1. now rewrite (proj2 (N.compare_lt_iff _ _) L2).
  - rewrite <- E2. now rewrite (proj2 (N.compare_lt_iff _ _) L1).
  - now rewrite (proj2 (N.compare_lt_iff _ _) (N.lt_trans _ _ _ L1 L2)).
Qed.

Lemma name_le_trans (a b c : string) :
  name_le a b -> name_le b c -> name_le a c.
Proof.
  unfold name_le, String.leb. intros H1 H2.
  destruct (String.compare a b) eqn:E1; try discriminate;
    destruct (String.compare b c) eqn:E2; try discriminate.
  - apply String.compare_eq_iff in E1, E2. subst.
    pose proof (String.compare_antisym c c) as E.
    destruct (String.compare c c); auto; discriminate.
  - apply String.compare_eq_iff in E1. subst. now rewrite E2.
  - apply String.compare_eq_iff in E2. subst. now rewrite E1.
  - now rewrite (compare_Lt_trans a b c E1 E2).
Qed.

Lemma Sorted_filter (f : string -> bool) (l : list string) :
  Sorted name_le l -> Sorted name_le (filter f l).
Proof.
  intros S. apply Sorted_StronglySorted in S;
    [|intros a b c; apply name_le_trans].
  apply StronglySorted_Sorted.
  induction S as [|a l S IH F]; simpl; [constructor|].
  destruct (f a); [|exact IH].
  constructor; [exact IH|].
  apply Forall_forall. intros x Hx. apply filter_In in Hx as [Hx _].
  now apply (proj1 (Forall_forall _ _) F).
Qed.

(** Sorting leaves a list that is already in ascending order as it is. *)
Lemma sort_names_Sorted (l : list string) :
  Sorted name_le l -> sort_names l = l.
Proof.
  induction 1 as [|a l S IH Hd]; simpl; [reflexivity|].
  rewrite IH. destruct Hd as [|b l Hab]; simpl; [reflexivity|].
  unfold name_le in Hab. now rewrite Hab.
Qed.

Lemma insert_name_Permutation (x : string) (l : list string) :
  Permutation (x :: l) (insert_name x l).
Proof.
  induction l as [|y l IH]; simpl; [apply Permutation_refl|].
  destruct (String.leb x y); [apply Permutation_refl|].
  eapply Permutation_trans; [apply perm_swap|]. now apply perm_skip.
Qed.

Lemma sort_names_Permutation (l : list string) :
  Permutation l (sort_names l).
Proof.
  induction l as [|x l IH]; simpl; [constructor|].
  eapply Permutation_trans; [apply perm_skip, IH|].
  apply insert_name_Permutation.
Qed.

Lemma insert_name_Sorted (x : string) (l : list string) :
  Sorted name_le l -> Sorted name_le (insert_name x l).
Proof.
  induction 1 as [|y l S IH Hd]; simpl.
  - repeat constructor.
  - destruct (String.leb x y) eqn:E.
    + constructor; [now constructor|]. now constructor.
    + constructor; [exact IH|].
      assert (name_le y x) as Hyx
        by (destruct (String.leb_total x y); [congruence | assumption]).
      destruct Hd as [|z l Hyz]; simpl.
      * now constructor.
      * destruct (String.leb x z); now constructor.
Qed.

Lemma sort_names_is_Sorted (l : list string) : Sorted name_le (sort_names l).
Proof.
  induction l as [|x l IH]; simpl; [constructor|].
  now apply insert_name_Sorted.
Qed.

(** The catalog of the code holds the names the sorted catalog holds. *)
Lemma dirNames_same_names (listing : list string) :
  Permutation (dirNames_of listing) (sorted_catalog listing).
Proof. apply sort_names_Permutation. Qed.

(** C4 (as the code has it). The catalog is the listing with the hidden
    names removed, in the order of the listing: no sort is applied.  When
    the listing arrives in ascending order, the catalog is the set of
    non-hidden names sorted ascending by identifier string. *)
Theorem catalog_of_sorted_listing (listing : list string) :
  Sorted name_le listing ->
  dirNames_of listing = sorted_catalog listing.
Proof.
  intros S. unfold sorted_catalog, dirNames_of.
  symmetry. apply sort_names_Sorted. now apply Sorted_filter.
Qed.

Lemma catalog_of_sorted_listing_witness :
  Sorted name_le [".git"; "1_init"; "2_users"]%string /\
  dirNames_of [".git"; "1_init"; "2_users"]%string
  = sorted_catalog [".git"; "1_init"; "2_users"]%string.
Proof.
  assert (Sorted name_le [".git"; "1_init"; "2_users"]%string) as S
    by (repeat constructor).
  split; [exact S|].
  exact (catalog_of_sorted_listing [".git"; "1_init"; "2_users"]%string S).
Defined.

(** C4 as stated fails: a listing that arrives out of order gives a
    catalog that is not the sorted one. *)
Lemma catalog_not_sorted :
  dirNames_of ["2_users"; "1_init"]%string = ["2_users"; "1_init"]%string /\
  sorted_catalog ["2_users"; "1_init"]%string
  = ["1_init"; "2_users"]%string /\
  dirNames_of ["2_users"; "1_init"]%string
  <> sorted_catalog ["2_users"; "1_init"]%string.
Proof. repeat split. discriminate. Qed.

(** ** Script selection *)

Lemma commit_before_rollback (migrationName : string) :
  String.ltb (commit_file migrationName) (rollback_file migrationName) = true.
Proof.
  unfold String.ltb, commit_file, rollback_file.
  induction migrationName as [|x n IH]; simpl; [reflexivity|].
  unfold Ascii.compare. now rewrite N.compare_refl.
Qed.

(** The two files [create] writes, sorted ascending, are the commit file
    and then the rollback file, whatever the order of the listing. *)
Lemma scaffold_sorted (migrationName : string) :
  sort_names [commit_file migrationName; rollback_file migrationName]
  = [commit_file migrationName; rollback_file migrationName] /\
  sort_names [rollback_file migrationName; commit_file migrationName]
  = [commit_file migrationName; rollback_file migrationName].
Proof.
  pose proof (commit_before_rollback migrationName) as L.
  unfold String.ltb in L. simpl. unfold String.leb.
  rewrite (String.compare_antisym (rollback_file migrationName)).
  destruct (String.compare (commit_file migrationName)
              (rollback_file migrationName)); try discriminate.
  now simpl.
Qed.

Lemma pick_script_sorted (c : command) (files : list string) :
  Sorted name_le files -> pick_script c files = script_by_order c files.
Proof.
  intros S. unfold script_by_order. rewrite (sort_names_Sorted files S).
  unfold pick_script. now destruct c.
Qed.

(** ** Reading the scripts *)

Lemma append_nil_r (s : string) : (s ++ "")%string = s.
Proof. induction s; simpl; congruence. Qed.

Lemma append_assoc (a b c : string) :
  ((a ++ b) ++ c)%string = (a ++ (b ++ c))%string.
Proof. induction a; simpl; congruence. Qed.

Lemma sql_of_cons (t : string) (texts : list string) :
  sql_of (t :: texts) = (t ++ newline ++ sql_of texts)%string.
Proof.
  unfold sql_of. cbn [map String.concat]. destruct texts; cbn [map].
  - cbn [String.concat]. now rewrite append_nil_r.
  - rewrite append_assoc. reflexivity.
Qed.

(** The accumulating loop of the code builds the text of the
    specification. *)
Lemma concat_sql_sql_of (texts : list string) : concat_sql texts = sql_of texts.
Proof.
  unfold concat_sql.
  assert (forall acc,
             fold_left (fun sql content => (sql ++ content ++ newline)%string)
               texts acc = (acc ++ sql_of texts)%string) as G.
  { induction texts as [|t texts IH]; intros acc; simpl.
    - now rewrite append_nil_r.
    - rewrite IH, sql_of_cons. now rewrite !append_assoc. }
  now rewrite G.
Qed.

Section Reading.
Context {data : Type}.
Implicit Types w : world data.

Lemma settled_ok {A B} (f : A -> string + B) (xs : list A) (ys : list B) :
  Forall2 (fun x y => f x = inr y) xs ys ->
  rejections f xs = [] /\ fulfilled f xs = ys.
Proof.
  induction 1 as [|x y xs ys E F [IH1 IH2]]; [now split|].
  unfold rejections, fulfilled in *. simpl. rewrite E. simpl.
  split; congruence.
Qed.

Lemma settled_all {A B} (f : A -> string + B) (xs : list A) :
  rejections f xs = [] ->
  Forall2 (fun x y => f x = inr y) xs (fulfilled f xs).
Proof.
  unfold rejections, fulfilled.
  induction xs as [|x xs IH]; simpl; [constructor|].
  destruct (f x) as [e|y] eqn:E; simpl; [discriminate|].
  intros H. constructor; auto.
Qed.

Lemma await_all_ok {A B} (first : list string -> nat) (f : A -> string + B)
    (xs : list A) (ys : list B) w :
  Forall2 (fun x y => f x = inr y) xs ys ->
  await_all first f xs w = (Val ys, w).
Proof.
  intros F. destruct (settled_ok f xs ys F) as [E1 E2].
  unfold await_all. now rewrite E1, E2.
Qed.

(** A failure thrown by [await_all] is the failure of one of the
    calls. *)
Lemma await_all_thrown {A B} (first : list string -> nat)
    (f : A -> string + B) (xs : list A) (e : string) (es : list string) :
  rejections f xs = e :: es ->
  exists e', In e' (e :: es) /\
             forall w, await_all first f xs w = (Thrown e', w).
Proof.
  intros E. exists (nth (first (e :: es)) (e :: es) e). split.
  - destruct (Nat.lt_ge_cases (first (e :: es)) (List.length (e :: es)))
      as [L|L].
    + now apply nth_In.
    + rewrite nth_overflow by exact L. now left.
  - intros w. unfold await_all. now rewrite E.
Qed.

Lemma script_text_split (env : environment) (c : command)
    (dirs texts : list string) :
  Forall2 (script_text env c) dirs texts ->
  exists fileArrays scripts,
    Forall2 (fun d files => readDirAsync env d = inr files) dirs fileArrays /\
    (forall w, resolve_scripts c dirs fileArrays w = (Val scripts, w)) /\
    Forall2 (fun file t => readFileAsync env file = inr t) scripts texts.
Proof.
  induction 1 as [|d t dirs texts (files & file & Ed & Ep & Ef) F IH].
  - exists [], []. repeat split; constructor.
  - destruct IH as (fileArrays & scripts & A1 & A2 & A3).
    exists (files :: fileArrays), (resolve d file :: scripts).
    split; [now constructor|]. split; [|now constructor].
    intros w. simpl. rewrite Ep. unfold bind. now rewrite A2.
Qed.

(** When every selected unit has a script of the wanted kind and it can
    be read, the assembled SQL is the script texts in order, a newline
    after each. *)
Lemma read_sql_ok (env : environment) (c : command)
    (dirs texts : list string) w :
  Forall2 (script_text env c) dirs texts ->
  read_sql env c dirs w = (Val (sql_of texts), w).
Proof.
  intros F. destruct (script_text_split env c dirs texts F)
    as (fileArrays & scripts & A1 & A2 & A3).
  unfold read_sql. unfold bind at 1.
  rewrite (await_all_ok _ _ _ _ w A1).
  unfold bind at 1. rewrite A2.
  unfold bind at 1. rewrite (await_all_ok _ _ _ _ w A3).
  unfold ret. now rewrite concat_sql_sql_of.
Qed.

End Reading.

(** ** The run up to the transaction *)

Section Run.
Context {data : Type}.
Variable pg : server data.
Variable env : environment.
Variable a : arguments.
Variable pathToMigrations : string.
Variable w : world data.
Variable listing : list string.

Hypothesis listed : readdirSync env pathToMigrations = inr listing.

Lemma bootstrap_store_rows (s : store data) :
  exists rows, migrations (bootstrap_store s) = Some rows.
Proof.
  unfold bootstrap_store. simpl.
  destruct (migrations s) as [[|c rows]|]; eauto.
Qed.

(** The steps every operation takes first: bootstrap, listing, cursor. *)
Ltac run_prefix :=
  unfold run, commitOrRollback;
  unfold bind at 1; unfold pg_bootstrap at 1; unfold bind at 1;
  cbn [send]; unfold bind at 1; unfold try_catch at 1; unfold bind at 1;
  rewrite listed; cbn [await ret];
  unfold bind at 1; unfold pg_select_cursor at 1; unfold bind at 1;
  cbn [send durable sent console working].

Lemma resolved_eq (dirNames : list string) :
  resolved w dirNames
  = mkWorld
      (console w ++
         [(info, (newline ++ "Cursor currently at: "
                  ++ or_clean (JsArray.get dirNames (cursor_of w)))%string)])
      (bootstrap_store (durable w)) (working w)
      ((sent w ++ [BOOTSTRAP]) ++ [SELECT_CURSOR]).
Proof. unfold resolved. now rewrite <- app_assoc. Qed.

(** The operation stops as a no-op when the coercing comparison holds. *)
Lemma run_noop :
  JsCoerce.array_lt_one (subset (cmd a) (dirNames_of listing) (cursor_of w))
  = true ->
  run pg env a pathToMigrations w
  = (Exited 0,
     mkWorld
       (console (resolved w (dirNames_of listing)) ++ [cannot_perform (cmd a)])
       (bootstrap_store (durable w))
       (working w)
       (sent w ++ [BOOTSTRAP; SELECT_CURSOR])).
Proof.
  intros T. run_prefix.
  rewrite (resolved_eq (dirNames_of listing)).
  unfold cursor_of in T |- *.
  destruct (bootstrap_store_rows (durable w)) as [rows Er].
  rewrite Er in T |- *.
  unfold bind at 1. cbn [print durable sent console working].
  rewrite T.
  unfold bind, print, process_exit. cbn [durable sent console working].
  now rewrite <- !app_assoc.
Qed.

Variable s : Z.
Variable texts : list string.

Hypothesis nonempty :
  JsCoerce.array_lt_one (subset (cmd a) (dirNames_of listing) (cursor_of w))
  = false.
Hypothesis chosen :
  offset env a (subset (cmd a) (dirNames_of listing) (cursor_of w)) = inr s.
Hypothesis readable :
  Forall2 (script_text env (cmd a))
    (map (resolve pathToMigrations)
       (selected (subset (cmd a) (dirNames_of listing) (cursor_of w)) s))
    texts.

(** Otherwise, with an offset chosen and the scripts read, the
    operation enters the transaction with the assembled SQL and the new
    cursor. *)
Lemma run_to_transact :
  run pg env a pathToMigrations w
  = transact pg (cmd a) (dirNames_of listing) (sql_of texts)
      (newCursor (cmd a) (dirNames_of listing)
         (subset (cmd a) (dirNames_of listing) (cursor_of w)) s)
      (prompted a (resolved w (dirNames_of listing))).
Proof.
  run_prefix.
  pose proof nonempty as T. pose proof chosen as Ch.
  pose proof readable as Rd.
  rewrite (resolved_eq (dirNames_of listing)).
  unfold cursor_of in T, Ch, Rd |- *.
  destruct (bootstrap_store_rows (durable w)) as [rows Er].
  rewrite Er in T, Ch, Rd |- *.
  unfold bind at 1. cbn [print durable sent console working].
  rewrite T.
  set (sub := subset (cmd a) (dirNames_of listing) (first_cursor rows)) in *.
  set (w1 := mkWorld _ _ _ _).
  unfold offset in Ch. unfold prompted.
  unfold bind at 1. unfold choose.
  destruct (all a).
  - injection Ch as Es. cbn [ret]. rewrite Es.
    unfold bind at 1. unfold try_catch at 1.
    now rewrite (read_sql_ok env (cmd a) _ texts w1 Rd).
  - unfold try_catch at 1. unfold bind at 1.
    cbn [print]. rewrite Ch. cbn [await ret].
    unfold bind at 1. unfold try_catch at 1.
    now rewrite (read_sql_ok env (cmd a) _ texts _ Rd).
Qed.

End Run.

(** ** The transaction *)

Lemma answered_cons {data : Type} (pg : server data)
    (history : list pg_command) (c : pg_command) (rest : list pg_command) :
  answered pg history (c :: rest) = true ->
  refused pg (history ++ [c]) = None /\
  answered pg (history ++ [c]) rest = true.
Proof.
  simpl. destruct (refused pg (history ++ [c])); [discriminate|]. auto.
Qed.

Lemma overheard_postgres {data : Type} (pg : server data)
    (statements history : list pg_command) :
  Forall postgres_line (overheard pg history statements).
Proof.
  revert history. induction statements as [|c rest IH]; intros history.
  - constructor.
  - simpl. apply Forall_app. split; [|apply IH].
    apply Forall_forall. intros l Hl. apply in_flat_map in Hl.
    destruct Hl as (m & _ & Hm). now exists m.
Qed.

(** Take the answers of the server out of [answered]. *)
Ltac answers H :=
  repeat match type of H with
         | answered _ _ (_ :: _) = true =>
             let R := fresh "R" in
             apply answered_cons in H; destruct H as [R H];
             rewrite <- ?app_assoc in R; cbn [app] in R;
             rewrite <- ?app_assoc in H; cbn [app] in H
         end.

Section Transaction.
Context {data : Type}.
Variable pg : server data.
Variable c : command.
Variable dirNames : list string.
Variable sql : string.
Variable n : Z.
Variable w : world data.

Hypothesis idle : working w = None.

(** The script fails. *)
Lemma transact_sql_fails (after : session data) (e : string) :
  answered pg (sent w) [BEGIN; QUERY sql; ROLLBACK] = true ->
  sql_exec pg sql (begun (durable w)) = (after, Some e) ->
  transact pg c dirNames sql n w
  = (Exited 1,
     mkWorld
       (console w ++ starting c
          :: overheard pg (sent w) [BEGIN; QUERY sql; ROLLBACK]
          ++ [unsuccessful; surfaced e])
       (fst after) None (sent w ++ [BEGIN; QUERY sql; ROLLBACK])).
Proof.
  intros A E. answers A. destruct after as [d t].
  run_transact idle. rewrite R. run_transact idle.
  rewrite R0. run_transact idle. unfold begun in E. rewrite E.
  run_transact idle. rewrite R1. run_transact idle.
  unfold starting, unsuccessful, surfaced. now normal_form.
Qed.

(** The cursor update fails because the cursor table is gone. *)
Lemma transact_update_fails (after : session data) :
  answered pg (sent w) [BEGIN; QUERY sql; UPDATE_CURSOR n; ROLLBACK] = true ->
  sql_exec pg sql (begun (durable w)) = (after, None) ->
  migrations (present after) = None ->
  transact pg c dirNames sql n w
  = (Exited 1,
     mkWorld
       (console w ++ starting c
          :: overheard pg (sent w)
               [BEGIN; QUERY sql; UPDATE_CURSOR n; ROLLBACK]
          ++ [unsuccessful; surfaced no_relation])
       (fst after) None
       (sent w ++ [BEGIN; QUERY sql; UPDATE_CURSOR n; ROLLBACK])).
Proof.
  intros A E Em. answers A. destruct after as [d t].
  run_transact idle. rewrite R. run_transact idle.
  rewrite R0. run_transact idle. unfold begun in E. rewrite E.
  run_transact idle. rewrite R1. run_transact idle.
  unfold present in Em. cbn [fst snd] in Em. rewrite Em.
  run_transact idle. rewrite R2. run_transact idle.
  unfold starting, unsuccessful, surfaced. now normal_form.
Qed.

(** The cursor update is refused. *)
Lemma transact_update_refused (after : session data) (e : string) :
  answered pg (sent w) [BEGIN; QUERY sql] = true ->
  sql_exec pg sql (begun (durable w)) = (after, None) ->
  refused pg (sent w ++ [BEGIN; QUERY sql; UPDATE_CURSOR n]) = Some e ->
  refused pg (sent w ++ [BEGIN; QUERY sql; UPDATE_CURSOR n; ROLLBACK])
  = None ->
  transact pg c dirNames sql n w
  = (Exited 1,
     mkWorld
       (console w ++ starting c
          :: overheard pg (sent w)
               [BEGIN; QUERY sql; UPDATE_CURSOR n; ROLLBACK]
          ++ [unsuccessful; surfaced e])
       (fst after) None
       (sent w ++ [BEGIN; QUERY sql; UPDATE_CURSOR n; ROLLBACK])).
Proof.
  intros A E U B. answers A. destruct after as [d t].
  run_transact idle. rewrite R. run_transact idle.
  rewrite R0. run_transact idle. unfold begun in E. rewrite E.
  run_transact idle. rewrite U. run_transact idle.
  rewrite B. run_transact idle.
  unfold starting, unsuccessful, surfaced. now normal_form.
Qed.

(** Every statement is answered and the script goes through. *)
Lemma transact_succeeds (after : session data) (rows : list Z) :
  answered pg (sent w) [BEGIN; QUERY sql; UPDATE_CURSOR n; COMMIT] = true ->
  sql_exec pg sql (begun (durable w)) = (after, None) ->
  migrations (present after) = Some rows ->
  transact pg c dirNames sql n w
  = (Exited 0,
     mkWorld
       (console w ++ starting c
          :: overheard pg (sent w)
               [BEGIN; QUERY sql; UPDATE_CURSOR n; COMMIT]
          ++ [(info, (newline ++ "Migration successful. Cursor now at: "
                      ++ or_clean (JsArray.get dirNames n))%string)])
       (mkStore (Some (map (fun _ => n) rows)) (tables (present after)))
       None
       (sent w ++ [BEGIN; QUERY sql; UPDATE_CURSOR n; COMMIT])).
Proof.
  intros A E Em. answers A. destruct after as [d t].
  run_transact idle. rewrite R. run_transact idle.
  rewrite R0. run_transact idle. unfold begun in E. rewrite E.
  run_transact idle. rewrite R1. run_transact idle.
  unfold present in Em |- *. cbn [fst snd] in Em |- *. rewrite Em.
  destruct t as [st|]; run_transact idle; rewrite R2; run_transact idle;
    unfold starting; now normal_form.
Qed.

(** The rollback is refused: the handler ends there, and [finally] exits
    with status 0. *)
Lemma transact_rollback_refused (after : session data) (e e' : string) :
  answered pg (sent w) [BEGIN; QUERY sql] = true ->
  sql_exec pg sql (begun (durable w)) = (after, Some e) ->
  refused pg (sent w ++ [BEGIN; QUERY sql; ROLLBACK]) = Some e' ->
  transact pg c dirNames sql n w
  = (Exited 0,
     mkWorld
       (console w ++ starting c
          :: overheard pg (sent w) [BEGIN; QUERY sql; ROLLBACK])
       (fst after) (snd after) (sent w ++ [BEGIN; QUERY sql; ROLLBACK])).
Proof.
  intros A E B. answers A. destruct after as [d t].
  run_transact idle. rewrite R. run_transact idle.
  rewrite R0. run_transact idle. unfold begun in E. rewrite E.
  run_transact idle. rewrite B. run_transact idle.
  unfold starting. now normal_form.
Qed.

End Transaction.

(** ** The world in which the transaction starts *)

Section Prompted.
Context {data : Type}.
Variable a : arguments.
Variable w : world data.
Variable dirNames : list string.

Lemma durable_prompted :
  durable (prompted a (resolved w dirNames)) = bootstrap_store (durable w).
Proof. unfold prompted. now destruct (all a). Qed.

Lemma working_prompted :
  working (prompted a (resolved w dirNames)) = working w.
Proof. unfold prompted. now destruct (all a). Qed.

Lemma sent_prompted :
  sent (prompted a (resolved w dirNames))
  = sent w ++ [BOOTSTRAP; SELECT_CURSOR].
Proof. unfold prompted. now destruct (all a). Qed.

Lemma current_prompted :
  working w = None ->
  current (prompted a (resolved w dirNames)) = bootstrap_store (durable w).
Proof.
  intros H. unfold current. rewrite working_prompted, H.
  apply durable_prompted.
Qed.

End Prompted.

(** A run that goes through: the listing and the scripts are read, an
    offset is chosen, every statement is answered, the engine accepts the
    SQL and the cursor table is still there. *)
Lemma run_succeeds {data : Type} (pg : server data)
    (env : environment) (a : arguments) (pathToMigrations : string)
    (w : world data) (listing : list string) (s : Z) (texts : list string)
    (after : session data) (rows : list Z) :
  let dirNames := dirNames_of listing in
  let sub := subset (cmd a) dirNames (cursor_of w) in
  let n := newCursor (cmd a) dirNames sub s in
  let statements :=
    [BEGIN; QUERY (sql_of texts); UPDATE_CURSOR n; COMMIT] in
  working w = None ->
  readdirSync env pathToMigrations = inr listing ->
  JsCoerce.array_lt_one sub = false ->
  offset env a sub = inr s ->
  Forall2 (script_text env (cmd a))
    (map (resolve pathToMigrations) (selected sub s)) texts ->
  answered pg (sent w ++ [BOOTSTRAP; SELECT_CURSOR]) statements = true ->
  sql_exec pg (sql_of texts) (begun (bootstrap_store (durable w)))
  = (after, None) ->
  migrations (present after) = Some rows ->
  run pg env a pathToMigrations w
  = (Exited 0,
     mkWorld
       (console (prompted a (resolved w dirNames))
          ++ starting (cmd a)
          :: overheard pg (sent w ++ [BOOTSTRAP; SELECT_CURSOR]) statements
          ++ [successful dirNames n])
       (mkStore (Some (map (fun _ => n) rows)) (tables (present after)))
       None
       (sent w ++ [BOOTSTRAP; SELECT_CURSOR] ++ statements)).
Proof.
  intros dirNames sub n statements Hw Hl Hn Ho Hr Ha He Hm.
  rewrite (run_to_transact pg env a pathToMigrations w listing Hl
             s texts Hn Ho Hr).
  fold dirNames sub n.
  assert (working (prompted a (resolved w dirNames)) = None) as Hi
    by (now rewrite working_prompted).
  rewrite (transact_succeeds pg (cmd a) dirNames (sql_of texts) n
             (prompted a (resolved w dirNames)) Hi after rows).
  - rewrite sent_prompted. unfold successful, statements.
    now rewrite <- app_assoc.
  - now rewrite sent_prompted.
  - now rewrite durable_prompted.
  - exact Hm.
Qed.

(** ** Properties of the operation *)






(** C6. The SQL run in the transaction is the script texts of the
    selected units in subset order with a newline after each (the last
    included): when the listing and the scripts are read and an offset is
    chosen, it is sent once, right after BEGIN, and when the engine
    accepts it and the statements are answered the cursor update and
    COMMIT follow, so that the committed database is the one the engine
    made of that text, with every row of the cursor table set to the new
    cursor, which the next operation reads when the table has a row. *)
Theorem executed_sql {data : Type} (pg : server data)
    (env : environment) (a : arguments) (pathToMigrations : string)
    (w : world data) (listing : list string) (s : Z) (texts : list string)
    (after : session data) (rows : list Z) :
  let dirNames := dirNames_of listing in
  let sub := subset (cmd a) dirNames (cursor_of w) in
  let n := newCursor (cmd a) dirNames sub s in
  let sql := fold_right (fun text rest => text ++ newline ++ rest)%string
               EmptyString texts in
  working w = None ->
  readdirSync env pathToMigrations = inr listing ->
  JsCoerce.array_lt_one sub = false ->
  offset env a sub = inr s ->
  Forall2 (script_text env (cmd a))
    (map (resolve pathToMigrations) (selected sub s)) texts ->
  answered pg (sent w ++ [BOOTSTRAP; SELECT_CURSOR])
    [BEGIN; QUERY sql; UPDATE_CURSOR n; COMMIT] = true ->
  sql_exec pg sql (begun (bootstrap_store (durable w))) = (after, None) ->
  migrations (present after) = Some rows ->
  let result := run pg env a pathToMigrations w in
  fst result = Exited 0 /\
  sent (snd result)
  = sent w ++ [BOOTSTRAP; SELECT_CURSOR; BEGIN; QUERY sql;
               UPDATE_CURSOR n; COMMIT] /\
  durable (snd result)
  = mkStore (Some (map (fun _ => n) rows)) (tables (present after)) /\
  working (snd result) = None /\
  (rows <> [] -> cursor_of (snd result) = n).
Proof.
  intros dirNames sub n sql Hw Hl Hn Ho Hr Ha He Hm result.
  assert (sql = sql_of texts) as Es.
  { unfold sql. clear. induction texts as [|t r IH]; [reflexivity|].
    cbn [fold_right]. now rewrite sql_of_cons, IH. }
  rewrite Es in Ha, He |- *. unfold result.
  rewrite (run_succeeds pg env a pathToMigrations w listing s texts after
             rows Hw Hl Hn Ho Hr Ha He Hm).
  fold dirNames sub n. cbn [fst snd durable sent working].
  repeat split.
  intros Hrows. unfold cursor_of. cbn [durable].
  destruct rows as [|r rows]; [congruence|]. reflexivity.
Qed.

(** The scenario of the specification: catalog [A, B, C, D], cursor [-1],
    a commit with offset [1] applies the commit scripts of [A] and [B]
    and sets the cursor to [1]. *)
Lemma executed_sql_witness :
  let result :=
    run Example.reliable
      (Example.env ["A"; "B"; "C"; "D"]%string Example.unit_files (inr 1))
      (mkArgs Commit false) "/m" (Example.start None) in
  fst result = Exited 0 /\
  sent (snd result)
  = [BOOTSTRAP; SELECT_CURSOR; BEGIN;
     QUERY ("</m/A/commit.sql>" ++ newline
            ++ "</m/B/commit.sql>" ++ newline);
     UPDATE_CURSOR 1; COMMIT] /\
  durable (snd result)
  = mkStore (Some [1])
      [("</m/A/commit.sql>" ++ newline
        ++ "</m/B/commit.sql>" ++ newline)%string] /\
  working (snd result) = None /\
  ([-1] <> [] -> cursor_of (snd result) = 1).
Proof.
  apply (executed_sql Example.reliable
           (Example.env ["A"; "B"; "C"; "D"]%string Example.unit_files (inr 1))
           (mkArgs Commit false) "/m" (Example.start None)
           ["A"; "B"; "C"; "D"]%string 1
           ["</m/A/commit.sql>"; "</m/B/commit.sql>"]%string
           (mkStore (Some [-1]) [],
            Some (mkStore (Some [-1])
                    [("</m/A/commit.sql>" ++ newline
                      ++ "</m/B/commit.sql>" ++ newline)%string]))
           [-1]).
  - reflexivity.
  - reflexivity.
  - reflexivity.
  - reflexivity.
  - repeat constructor;
      exists Example.unit_files, "commit.sql"%string; repeat split.
  - reflexivity.
  - reflexivity.
  - reflexivity.
Defined.

(** The same scenario run to its end, with what the listener prints. *)
Example scenario_commit_two_units :
  run Example.reliable
    (Example.env ["A"; "B"; "C"; "D"]%string Example.unit_files (inr 1))
    (mkArgs Commit false) "/m" (Example.start None)
  = (Exited 0,
     mkWorld
       [(info, (newline ++ "Cursor currently at: clean")%string);
        (log, "Please select a migration point to commit up to:"%string);
        starting Commit;
        (info, "postgres[message:commandComplete] BEGIN"%string);
        (info, "postgres[message:commandComplete] UPDATE 1"%string);
        (info, "postgres[message:commandComplete] COMMIT"%string);
        (info, (newline ++ "Migration successful. Cursor now at: B")%string)]
       (mkStore (Some [1])
          [("</m/A/commit.sql>" ++ newline
            ++ "</m/B/commit.sql>" ++ newline)%string])
       None
       [BOOTSTRAP; SELECT_CURSOR; BEGIN;
        QUERY ("</m/A/commit.sql>" ++ newline
               ++ "</m/B/commit.sql>" ++ newline);
        UPDATE_CURSOR 1; COMMIT]).
Proof. reflexivity. Qed.

(** The rollback scenario of the specification: catalog [A, B, C, D],
    cursor [2], offset [1] rolls back [C] then [B]; the cursor becomes
    [0]. *)
Example scenario_rollback_two_units :
  run Example.reliable
    (Example.env ["A"; "B"; "C"; "D"]%string Example.unit_files (inr 1))
    (mkArgs Rollback false) "/m" (Example.start (Some [2]))
  = (Exited 0,
     mkWorld
       [(info, (newline ++ "Cursor currently at: C")%string);
        (log, "Please select a migration point to roll back past:"%string);
        starting Rollback;
        (info, "postgres[message:commandComplete] BEGIN"%string);
        (info, "postgres[message:commandComplete] UPDATE 1"%string);
        (info, "postgres[message:commandComplete] COMMIT"%string);
        (info, (newline ++ "Migration successful. Cursor now at: A")%string)]
       (mkStore (Some [0])
          [("</m/C/rollback.sql>" ++ newline
            ++ "</m/B/rollback.sql>" ++ newline)%string])
       None
       [BOOTSTRAP; SELECT_CURSOR; BEGIN;
        QUERY ("</m/C/rollback.sql>" ++ newline
               ++ "</m/B/rollback.sql>" ++ newline);
        UPDATE_CURSOR 0; COMMIT]).
Proof. reflexivity. Qed.

(** C8 (as the code has it). For every unit in the selected range a
    commit applies the file listed first in the unit's directory and a
    rollback the file listed second.  When the listing of each unit arrives
    in ascending order these are the file that sorts first (the commit
    script) and the file that sorts second (the rollback script), and the
    SQL is made of their texts. *)
Theorem scripts_of_sorted_listings {data : Type} (env : environment)
    (c : command) (dirs texts : list string) (w : world data) :
  Forall2
    (fun dir text =>
       exists files file,
         readDirAsync env dir = inr files /\
         Sorted name_le files /\
         script_by_order c files = Some file /\
         readFileAsync env (resolve dir file) = inr text)
    dirs texts ->
  read_sql env c dirs w = (Val (sql_of texts), w).
Proof.
  intros F. apply read_sql_ok.
  induction F as [|d t dirs texts (files & file & Ed & S & Ep & Ef) F IH];
    constructor; [|exact IH].
  exists files, file. repeat split; try assumption.
  now rewrite (pick_script_sorted c files S).
Qed.

Lemma scripts_of_sorted_listings_witness :
  read_sql
    (Example.env ["1_init"]%string
       [commit_file "1_init"; rollback_file "1_init"] (inr 0))
    Rollback ["/m/1_init"]%string (Example.start None)
  = (Val (sql_of ["</m/1_init/1_init_rollback.sql>"%string]),
     Example.start None).
Proof.
  apply (scripts_of_sorted_listings
           (Example.env ["1_init"]%string
              [commit_file "1_init"; rollback_file "1_init"] (inr 0))
           Rollback ["/m/1_init"]%string
           ["</m/1_init/1_init_rollback.sql>"%string] (Example.start None)).
  repeat constructor.
  exists [commit_file "1_init"; rollback_file "1_init"],
    (rollback_file "1_init").
  repeat split. repeat constructor.
Defined.

(** C8 as stated fails: when the listing gives the rollback file first, a
    commit applies the rollback file although the commit file sorts
    first. *)
Lemma script_not_by_sort_order :
  script_by_order Commit [rollback_file "1_init"; commit_file "1_init"]
  = Some (commit_file "1_init") /\
  pick_script Commit [rollback_file "1_init"; commit_file "1_init"]
  = Some (rollback_file "1_init") /\
  read_sql
    (Example.env ["1_init"]%string
       [rollback_file "1_init"; commit_file "1_init"] (inr 0))
    Commit ["/m/1_init"]%string (Example.start None)
  = (Val ("</m/1_init/1_init_rollback.sql>" ++ newline)%string,
     Example.start None).
Proof. repeat split. Qed.

(** ** The no-op test *)

Lemma subset_empty_iff (C : list string) (k : Z) :
  -1 <= k < JsArray.len C ->
  (subset Commit C k = [] <-> k = JsArray.len C - 1) /\
  (subset Rollback C k = [] <-> k = -1).
Proof.
  intros Hk.
  pose proof (len_subset_forward C k Hk) as Lf.
  pose proof (len_subset_backward C k Hk) as Lb.
  unfold JsArray.len in *.
  split; split; intros H.
  - rewrite H in Lf. simpl in Lf. lia.
  - apply length_zero_iff_nil. lia.
  - rewrite H in Lb. simpl in Lb. lia.
  - apply length_zero_iff_nil. lia.
Qed.

(** An empty subset passes the test: the operation is reported as a
    no-op, with exit status 0. *)
Lemma empty_subset_lt_one : JsCoerce.array_lt_one [] = true.
Proof. reflexivity. Qed.

(** The text of a one-element array is its element. *)
Lemma array_toString_single (d : string) : JsCoerce.array_toString [d] = d.
Proof. reflexivity. Qed.

(** C9. The emptiness test is the coercing comparison [subset < 1] on the
    array: when the subset has one name and that name, read as a number,
    is below 1, the operation prints the no-op message and exits with
    status 0, having sent nothing but the bootstrap and the cursor query,
    although the subset is not empty. *)
Theorem single_numeric_name_is_noop {data : Type}
    (pg : server data)
    (env : environment) (a : arguments) (pathToMigrations : string)
    (w : world data) (listing : list string) (d : string) :
  readdirSync env pathToMigrations = inr listing ->
  subset (cmd a) (dirNames_of listing) (cursor_of w) = [d] ->
  JsCoerce.lt_one (JsCoerce.StringToNumber d) = true ->
  let result := run pg env a pathToMigrations w in
  fst result = Exited 0 /\
  console (snd result)
  = console (resolved w (dirNames_of listing)) ++ [cannot_perform (cmd a)] /\
  sent (snd result) = sent w ++ [BOOTSTRAP; SELECT_CURSOR] /\
  durable (snd result) = bootstrap_store (durable w) /\
  working (snd result) = working w.
Proof.
  intros Hl Hs Hd result. unfold result.
  rewrite (run_noop pg env a pathToMigrations w listing Hl).
  - simpl. repeat split.
  - rewrite Hs. unfold JsCoerce.array_lt_one.
    now rewrite array_toString_single.
Qed.

Lemma single_numeric_name_is_noop_witness :
  subset Commit (dirNames_of ["0"]%string) (-1) = ["0"]%string /\
  JsCoerce.lt_one (JsCoerce.StringToNumber "0") = true /\
  let result :=
    run Example.reliable (Example.env ["0"]%string Example.unit_files (inr 0))
      (mkArgs Commit true) "/m" (Example.start None) in
  fst result = Exited 0 /\
  sent (snd result) = [BOOTSTRAP; SELECT_CURSOR].
Proof.
  split; [reflexivity|]. split; [reflexivity|].
  destruct (single_numeric_name_is_noop Example.reliable
              (Example.env ["0"]%string Example.unit_files (inr 0))
              (mkArgs Commit true) "/m" (Example.start None)
              ["0"]%string "0"%string eq_refl eq_refl eq_refl)
    as (E1 & _ & E2 & _).
  split; assumption.
Defined.

(** C5 fails on the code: with migrations numbered [0], [1], [2] and the
    cursor at [0], the subset of a rollback is the one unit [0], yet the
    operation reports that the database is already clean and exits with
    status 0 without sending any statement of a transaction. *)
Theorem nonempty_subset_reported_clean :
  subset Rollback (dirNames_of ["0"; "1"; "2"]%string) 0 = ["0"]%string /\
  run Example.reliable
    (Example.env ["0"; "1"; "2"]%string Example.unit_files (inr 0))
    (mkArgs Rollback true) "/m" (Example.start (Some [0]))
  = (Exited 0,
     mkWorld
       [(info, (newline ++ "Cursor currently at: 0")%string);
        (info,
         "Cannot perform rollback: the database is already clean"%string)]
       (mkStore (Some [0]) [])
       None
       [BOOTSTRAP; SELECT_CURSOR]).
Proof. split; reflexivity. Qed.

(** The third scenario of the specification: cursor [3] on a catalog of
    four units; a commit is reported as a no-op and nothing is written. *)
Example scenario_fully_migrated :
  subset Commit (dirNames_of ["A"; "B"; "C"; "D"]%string) 3 = [] /\
  run Example.reliable
    (Example.env ["A"; "B"; "C"; "D"]%string Example.unit_files (inr 0))
    (mkArgs Commit false) "/m" (Example.start (Some [3]))
  = (Exited 0,
     mkWorld
       [(info, (newline ++ "Cursor currently at: D")%string);
        cannot_perform Commit]
       (mkStore (Some [3]) [])
       None
       [BOOTSTRAP; SELECT_CURSOR]).
Proof. split; reflexivity. Qed.

(** The bootstrap is idempotent and never resets an existing cursor. *)
Lemma bootstrap_store_idempotent {data : Type} (s : store data) :
  bootstrap_store (bootstrap_store s) = bootstrap_store s.
Proof.
  unfold bootstrap_store. simpl.
  now destruct (migrations s) as [[|c rows]|].
Qed.

Lemma bootstrap_store_keeps_cursor {data : Type} (s : store data)
    (c : Z) (rows : list Z) :
  migrations s = Some (c :: rows) -> bootstrap_store s = s.
Proof.
  intros E. destruct s as [m t]. simpl in E. subst m. reflexivity.
Qed.

(** ** The no-op test, exactly

    A subset of two or more names is joined with commas, and a text with a
    comma in it is not a number: the test can only hold for the empty
    subset and for a subset of one name. *)

Section Comma.

Import JsCoerce.

Lemma read_digits_keeps_comma (radix : Z) (l : list Z) :
  forall acc count v n rest,
    In 44 l ->
    read_digits radix l acc count = (v, n, rest) ->
    In 44 rest.
Proof.
  induction l as [|x l IH]; intros acc count v n rest Hin E.
  - destruct Hin.
  - simpl in E. destruct (digit_value radix x) eqn:D.
    + destruct Hin as [-> | Hin].
      * unfold digit_value in D. simpl in D.
        destruct (Z.ltb_spec radix radix); [lia | discriminate].
      * exact (IH _ _ _ _ _ Hin E).
    + injection E as _ _ <-. exact Hin.
Qed.

Lemma is_nil_comma (l : list Z) : In 44 l -> is_nil l = false.
Proof. destruct l; [intros [] | reflexivity]. Qed.

Lemma parse_exponent_comma (l : list Z) :
  In 44 l -> parse_exponent l = None.
Proof.
  intros Hin. destruct l as [|x r]; [destruct Hin|]. simpl.
  destruct ((x =? 101) || (x =? 69)) eqn:Ex; [|reflexivity].
  assert (x <> 44) as Nx by (intros ->; discriminate).
  destruct Hin as [->|Hin]; [congruence|].
  assert (exists neg ds,
             (match r with
              | [] => (false, r)
              | s :: r' =>
                  if s =? 43 then (false, r')
                  else if s =? 45 then (true, r') else (false, r)
              end) = (neg, ds) /\ In 44 ds) as (neg & ds & -> & Hds).
  { destruct r as [|s r']; [destruct Hin|].
    destruct (Z.eqb_spec s 43) as [->|N1].
    - exists false, r'. split; [reflexivity|].
      destruct Hin as [E|Hin]; [discriminate E | exact Hin].
    - destruct (Z.eqb_spec s 45) as [->|N2].
      + exists true, r'. split; [reflexivity|].
        destruct Hin as [E|Hin]; [discriminate E | exact Hin].
      + exists false, (s :: r'). split; [reflexivity | exact Hin]. }
  destruct (read_digits 10 ds 0 0) as [[v n] rest] eqn:R.
  rewrite (is_nil_comma rest (read_digits_keeps_comma _ _ _ _ _ _ _ Hds R)).
  now rewrite andb_false_r.
Qed.

Lemma parse_unsigned_comma (negative : bool) (l : list Z) :
  In 44 l -> parse_unsigned negative l = NaN.
Proof.
  intros Hin. unfold parse_unsigned.
  destruct (list_eq_dec Z.eq_dec l (codes "Infinity")) as [->|_].
  { exfalso. vm_compute in Hin. intuition discriminate. }
  destruct (read_digits 10 l 0 0) as [[ip n1] r1] eqn:R1.
  pose proof (read_digits_keeps_comma _ _ _ _ _ _ _ Hin R1) as H1.
  assert (parse_exponent r1 = None) as P1 by now apply parse_exponent_comma.
  destruct r1 as [|x r2]; [destruct H1|].
  destruct (Z.eq_dec x 46) as [->|Nx].
  - destruct H1 as [E|H2]; [discriminate E|].
    destruct (read_digits 10 r2 ip 0) as [[m n2] r3] eqn:R2.
    pose proof (read_digits_keeps_comma _ _ _ _ _ _ _ H2 R2) as H3.
    rewrite (parse_exponent_comma r3 H3).
    now destruct ((0 <? n1) || (0 <? n2)).
  - rewrite P1.
    assert (forall other : numeric,
               match x with
               | 46 => other
               | _ => if 0 <? n1 then NaN else NaN
               end = NaN) as G.
    { intros other. destruct x as [|p|p]; try (now destruct (0 <? n1)).
      do 6 (destruct p as [p|p|]; try (now destruct (0 <? n1)));
        congruence. }
    apply G.
Qed.

Lemma parse_decimal_comma (l : list Z) :
  In 44 l -> parse_decimal l = NaN.
Proof.
  intros Hin. unfold parse_decimal.
  destruct l as [|x r]; [destruct Hin|].
  destruct (Z.eq_dec x 43) as [->|N1].
  { destruct Hin as [E|Hin]; [discriminate E|].
    now apply parse_unsigned_comma. }
  destruct (Z.eq_dec x 45) as [->|N2].
  { destruct Hin as [E|Hin]; [discriminate E|].
    now apply parse_unsigned_comma. }
  assert (forall p q : numeric,
             match x with
             | 43 => p
             | 45 => q
             | _ => parse_unsigned false (x :: r)
             end = parse_unsigned false (x :: r)) as G.
  { intros p q. destruct x as [|y|y]; try reflexivity.
    do 6 (destruct y as [y|y|]; try reflexivity); congruence. }
  rewrite G. now apply parse_unsigned_comma.
Qed.

Lemma parse_numeric_comma (l : list Z) :
  In 44 l -> parse_numeric l = NaN.
Proof.
  intros Hin. unfold parse_numeric.
  destruct l as [|x r]; [destruct Hin|].
  destruct (Z.eq_dec x 48) as [->|Nx].
  - destruct r as [|p ds]; [now apply parse_decimal_comma|].
    destruct (prefix_radix p) as [radix|] eqn:Ep;
      [|now apply parse_decimal_comma].
    destruct Hin as [E|[->|Hin]]; [discriminate E | discriminate Ep |].
    destruct (read_digits radix ds 0 0) as [[v n] rest] eqn:R.
    rewrite (is_nil_comma rest (read_digits_keeps_comma _ _ _ _ _ _ _ Hin R)).
    now rewrite andb_false_r.
  - destruct x as [|y|y]; try (now apply parse_decimal_comma).
    do 6 (destruct y as [y|y|]; try (now apply parse_decimal_comma)).
    congruence.
Qed.

Lemma ws2_not_comma (a b : Z) :
  ws2 a b = true -> a <> 44 /\ b <> 44.
Proof. unfold ws2. lia. Qed.

Lemma ws3_not_comma (a b c : Z) :
  ws3 a b c = true -> a <> 44 /\ b <> 44 /\ c <> 44.
Proof. unfold ws3. lia. Qed.

Lemma trim_start_keeps_comma (backwards : bool) (n : nat) :
  forall l, (List.length l <= n)%nat ->
            In 44 l -> In 44 (trim_start backwards l).
Proof.
  induction n as [|n IH]; intros l Hlen Hin.
  - destruct l; [destruct Hin | simpl in Hlen; lia].
  - destruct l as [|a r1]; [destruct Hin|]. simpl in Hlen.
    cbn [trim_start].
    destruct (ws1 a) eqn:W1.
    { apply IH; [lia|]. destruct Hin as [->|Hin]; [discriminate W1|exact Hin]. }
    destruct r1 as [|b r2]; [exact Hin|]. simpl in Hlen.
    destruct (if backwards then ws2 b a else ws2 a b) eqn:W2.
    { apply IH; [lia|].
      assert (a <> 44 /\ b <> 44) as [Na Nb]
        by (destruct backwards; apply ws2_not_comma in W2; tauto).
      destruct Hin as [E|[E|Hin]]; [congruence | congruence | exact Hin]. }
    destruct r2 as [|c r3]; [exact Hin|]. simpl in Hlen.
    destruct (if backwards then ws3 c b a else ws3 a b c) eqn:W3;
      [|exact Hin].
    apply IH; [lia|].
    assert (a <> 44 /\ b <> 44 /\ c <> 44) as (Na & Nb & Nc)
      by (destruct backwards; apply ws3_not_comma in W3; tauto).
    destruct Hin as [E|[E|[E|Hin]]]; congruence || exact Hin.
Qed.

Lemma trim_keeps_comma (l : list Z) : In 44 l -> In 44 (trim l).
Proof.
  intros Hin. unfold trim. apply in_rev. rewrite rev_involutive.
  apply (trim_start_keeps_comma true _ _ (le_n _)).
  apply in_rev. rewrite rev_involutive.
  now apply (trim_start_keeps_comma false _ _ (le_n _)).
Qed.

(** A text with a comma in it is not a number. *)
Lemma StringToNumber_comma (s : string) :
  In 44 (codes s) -> StringToNumber s = NaN.
Proof.
  intros Hin. apply trim_keeps_comma in Hin. unfold StringToNumber.
  destruct (trim (codes s)) as [|x l] eqn:E; [destruct Hin|].
  now apply parse_numeric_comma.
Qed.

Lemma codes_append (a b : string) : codes (a ++ b) = codes a ++ codes b.
Proof.
  unfold codes. induction a as [|x a IH]; simpl; [reflexivity|].
  now rewrite IH.
Qed.

Lemma array_toString_comma (x y : string) (l : list string) :
  In 44 (codes (array_toString (x :: y :: l))).
Proof.
  unfold array_toString. cbn [String.concat].
  rewrite !codes_append. apply in_or_app. right.
  apply in_or_app. left. now left.
Qed.

End Comma.

(** The operation is stopped as a no-op exactly when the subset is empty
    or holds a single name that reads as a number below 1. *)
Lemma noop_test_exact (sub : list string) :
  JsCoerce.array_lt_one sub = true <->
  sub = [] \/
  exists d, sub = [d] /\ JsCoerce.lt_one (JsCoerce.StringToNumber d) = true.
Proof.
  destruct sub as [|x [|y l]].
  - split; [now left | reflexivity].
  - unfold JsCoerce.array_lt_one. rewrite array_toString_single. split.
    + intros H. right. now exists x.
    + intros [E|(d & E & H)]; [discriminate E|]. now injection E as ->.
  - unfold JsCoerce.array_lt_one.
    rewrite (StringToNumber_comma _ (array_toString_comma x y l)). split.
    + discriminate.
    + intros [E|(d & E & _)]; discriminate E.
Qed.


(** * Further properties of the program *)

(** ** The ways an operation stops before the transaction *)

Section Stops.
Context {data : Type}.
Variable pg : server data.
Variable env : environment.
Variable a : arguments.
Variable pathToMigrations : string.
Variable w : world data.

Ltac run_start :=
  unfold run, commitOrRollback;
  unfold bind at 1; unfold pg_bootstrap at 1; unfold bind at 1;
  cbn [send]; unfold bind at 1; unfold try_catch at 1; unfold bind at 1.

Ltac run_cursor :=
  cbn [await ret];
  unfold bind at 1; unfold pg_select_cursor at 1; unfold bind at 1;
  cbn [send durable sent console working].

(** When the migrations directory cannot be listed the operation prints
    the error and exits with status 1; by then the cursor table has been
    bootstrapped, and nothing else was sent. *)
Lemma run_listing_fails (e : string) :
  readdirSync env pathToMigrations = inl e ->
  run pg env a pathToMigrations w
  = (Exited 1,
     mkWorld (console w ++ [reading_failed e])
       (bootstrap_store (durable w)) (working w) (sent w ++ [BOOTSTRAP])).
Proof.
  intros E. run_start. rewrite E. reflexivity.
Qed.

Variable listing : list string.
Hypothesis listed : readdirSync env pathToMigrations = inr listing.
Hypothesis nonempty :
  JsCoerce.array_lt_one (subset (cmd a) (dirNames_of listing) (cursor_of w))
  = false.

(** A cancelled selection. *)
Lemma run_cancelled (e : string) :
  offset env a (subset (cmd a) (dirNames_of listing) (cursor_of w)) = inl e ->
  run pg env a pathToMigrations w
  = (Exited 1,
     mkWorld
       (console (resolved w (dirNames_of listing))
          ++ [(log, prompt_of (cmd a)); nothing_selected e])
       (bootstrap_store (durable w)) (working w)
       (sent w ++ [BOOTSTRAP; SELECT_CURSOR])).
Proof.
  intros Ch. pose proof nonempty as T.
  run_start. rewrite listed. run_cursor.
  rewrite (resolved_eq w (dirNames_of listing)).
  unfold cursor_of in T, Ch |- *.
  destruct (bootstrap_store_rows (durable w)) as [rows Er].
  rewrite Er in T, Ch |- *.
  unfold bind at 1. cbn [print durable sent console working].
  rewrite T.
  unfold offset in Ch. unfold bind at 1. unfold choose.
  destruct (all a); [discriminate Ch|].
  unfold try_catch at 1. unfold bind at 1. cbn [print].
  rewrite Ch. cbn [await throw].
  unfold bind, print, process_exit, nothing_selected.
  cbn [durable sent console working].
  now rewrite <- !app_assoc.
Qed.

(** Scripts that cannot be read. *)
Lemma run_unreadable (s : Z) (e : string) :
  offset env a (subset (cmd a) (dirNames_of listing) (cursor_of w)) = inr s ->
  (forall w' : world data,
      read_sql env (cmd a)
        (map (resolve pathToMigrations)
           (selected (subset (cmd a) (dirNames_of listing) (cursor_of w)) s))
        w' = (Thrown e, w')) ->
  run pg env a pathToMigrations w
  = (Exited 1,
     mkWorld
       (console (prompted a (resolved w (dirNames_of listing)))
          ++ [sql_read_failed e])
       (bootstrap_store (durable w)) (working w)
       (sent w ++ [BOOTSTRAP; SELECT_CURSOR])).
Proof.
  intros Ch Rd. pose proof nonempty as T.
  run_start. rewrite listed. run_cursor.
  rewrite (resolved_eq w (dirNames_of listing)).
  unfold cursor_of in T, Ch, Rd |- *.
  destruct (bootstrap_store_rows (durable w)) as [rows Er].
  rewrite Er in T, Ch, Rd |- *.
  unfold bind at 1. cbn [print durable sent console working].
  rewrite T.
  unfold offset in Ch. unfold prompted.
  unfold bind at 1. unfold choose.
  destruct (all a).
  - injection Ch as Es. cbn [ret]. rewrite Es.
    unfold bind at 1. unfold try_catch at 1. rewrite Rd.
    unfold bind, print, process_exit, sql_read_failed.
    cbn [durable sent console working].
    now rewrite <- !app_assoc.
  - unfold try_catch at 1. unfold bind at 1.
    cbn [print]. rewrite Ch. cbn [await ret].
    unfold bind at 1. unfold try_catch at 1. rewrite Rd.
    unfold bind, print, process_exit, sql_read_failed.
    cbn [durable sent console working].
    now rewrite <- !app_assoc.
Qed.

End Stops.

(** ** Reading the scripts either gives the SQL or throws *)

Section ReadingTotal.
Context {data : Type}.
Variable env : environment.
Variable c : command.

Lemma resolve_scripts_outcome (dirs : list string)
    (fileArrays : list (list string)) :
  Forall2 (fun d files => readDirAsync env d = inr files) dirs fileArrays ->
  (exists scripts,
      (forall w : world data,
          resolve_scripts c dirs fileArrays w = (Val scripts, w)) /\
      forall texts,
        Forall2 (fun file t => readFileAsync env file = inr t) scripts texts ->
        Forall2 (script_text env c) dirs texts)
  \/ (forall w : world data,
         resolve_scripts c dirs fileArrays w = (Thrown type_error, w)).
Proof.
  induction 1 as [|d files dirs fileArrays Ed F IH].
  - left. exists []. split; [reflexivity|].
    intros texts T. inversion T. constructor.
  - destruct (pick_script c files) as [file|] eqn:Ep.
    + destruct IH as [(scripts & H2 & K) | H2].
      * left. exists (resolve d file :: scripts). split.
        -- intros w. simpl. rewrite Ep. unfold bind. now rewrite H2.
        -- intros texts T. inversion T as [|x t xs ts Ef T']; subst.
           constructor; [now exists files, file | now apply K].
      * right. intros w. simpl. rewrite Ep. unfold bind. now rewrite H2.
    + right. intros w. simpl. now rewrite Ep.
Qed.

Lemma passes_total (dirs : list string) : @passes data env c dirs.
Proof.
  destruct (rejections (readDirAsync env) dirs) as [|e1 es1] eqn:E1.
  - pose proof (settled_all _ _ E1) as F1.
    destruct (resolve_scripts_outcome dirs _ F1) as [(scripts & H2 & K) | H2].
    + destruct (rejections (readFileAsync env) scripts) as [|e3 es3] eqn:E3.
      * pose proof (settled_all _ _ E3) as F3.
        apply (all_read env c dirs
                 (fulfilled (readDirAsync env) dirs) scripts
                 (fulfilled (readFileAsync env) scripts)); auto.
        -- intros w. now apply await_all_ok.
        -- intros w. now apply await_all_ok.
      * destruct (@await_all_thrown data _ _ (settles_first env) _ _ _ _ E3)
          as (e & _ & H3).
        apply (file_thrown env c dirs
                 (fulfilled (readDirAsync env) dirs) scripts e); auto.
        intros w. now apply await_all_ok.
    + apply (script_missing env c dirs (fulfilled (readDirAsync env) dirs));
        auto.
      intros w. now apply await_all_ok.
  - destruct (@await_all_thrown data _ _ (settles_first env) _ _ _ _ E1)
      as (e & _ & H1).
    now apply (listing_thrown env c dirs e).
Qed.

End ReadingTotal.

Lemma read_sql_outcome {data : Type} (env : environment) (c : command)
    (dirs : list string) :
  (exists texts,
      Forall2 (script_text env c) dirs texts /\
      forall w : world data, read_sql env c dirs w = (Val (sql_of texts), w))
  \/ (exists e,
         forall w : world data, read_sql env c dirs w = (Thrown e, w)).
Proof.
  destruct (@passes_total data env c dirs)
    as [fileArrays scripts texts H1 H2 H3 F
       | e H1
       | fileArrays H1 H2
       | fileArrays scripts e H1 H2 H3].
  - left. exists texts. split; [exact F|]. intros w.
    now apply read_sql_ok.
  - right. exists e. intros w. unfold read_sql, bind. now rewrite H1.
  - right. exists type_error. intros w. unfold read_sql, bind.
    now rewrite H1, H2.
  - right. exists e. intros w. unfold read_sql, bind.
    now rewrite H1, H2, H3.
Qed.

Lemma read_sql_unreadable {data : Type} (env : environment) (c : command)
    (dirs : list string) :
  ~ (exists texts, Forall2 (script_text env c) dirs texts) ->
  exists e, forall w : world data, read_sql env c dirs w = (Thrown e, w).
Proof.
  intros N. destruct (@read_sql_outcome data env c dirs)
    as [(texts & F & _) | H]; [|exact H].
  exfalso. apply N. now exists texts.
Qed.

(** X1. A cancelled selection stops the operation with exit status 1: the
    menu was shown, the error is printed, and nothing but the bootstrap
    and the cursor query was sent to the database. *)
Theorem cancelled_selection_aborts {data : Type}
    (pg : server data)
    (env : environment) (a : arguments) (pathToMigrations : string)
    (w : world data) (listing : list string) (e : string) :
  let dirNames := dirNames_of listing in
  let sub := subset (cmd a) dirNames (cursor_of w) in
  readdirSync env pathToMigrations = inr listing ->
  JsCoerce.array_lt_one sub = false ->
  all a = false ->
  spawnSelection env sub = inl e ->
  let result := run pg env a pathToMigrations w in
  fst result = Exited 1 /\
  console (snd result)
  = console (resolved w dirNames)
      ++ [(log, prompt_of (cmd a)); nothing_selected e] /\
  sent (snd result) = sent w ++ [BOOTSTRAP; SELECT_CURSOR] /\
  durable (snd result) = bootstrap_store (durable w) /\
  working (snd result) = working w.
Proof.
  intros dirNames sub Hl Hn Ha Hs result. unfold result.
  rewrite (run_cancelled pg env a pathToMigrations w listing Hl Hn e).
  - repeat split.
  - unfold offset. now rewrite Ha.
Qed.

Lemma cancelled_selection_aborts_witness :
  let result :=
    run Example.reliable
      (Example.env ["A"; "B"]%string Example.unit_files (inl "cancel"%string))
      (mkArgs Rollback false) "/m" (Example.start (Some [1])) in
  fst result = Exited 1 /\
  sent (snd result) = [BOOTSTRAP; SELECT_CURSOR] /\
  durable (snd result) = mkStore (Some [1]) [].
Proof.
  destruct (cancelled_selection_aborts Example.reliable
              (Example.env ["A"; "B"]%string Example.unit_files
                 (inl "cancel"%string))
              (mkArgs Rollback false) "/m" (Example.start (Some [1]))
              ["A"; "B"]%string "cancel"%string
              eq_refl eq_refl eq_refl eq_refl) as (E1 & _ & E2 & E3 & _).
  repeat split; assumption.
Defined.

(** X2. When the script of some selected unit cannot be had (its directory
    cannot be listed, it lists too few files, or the file cannot be read)
    the operation prints an error and exits with status 1 before BEGIN:
    nothing but the bootstrap and the cursor query was sent. *)
Theorem unreadable_scripts_abort {data : Type}
    (pg : server data)
    (env : environment) (a : arguments) (pathToMigrations : string)
    (w : world data) (listing : list string) (s : Z) :
  let dirNames := dirNames_of listing in
  let sub := subset (cmd a) dirNames (cursor_of w) in
  readdirSync env pathToMigrations = inr listing ->
  JsCoerce.array_lt_one sub = false ->
  offset env a sub = inr s ->
  ~ (exists texts,
        Forall2 (script_text env (cmd a))
          (map (resolve pathToMigrations) (selected sub s)) texts) ->
  let result := run pg env a pathToMigrations w in
  fst result = Exited 1 /\
  (exists e,
      console (snd result)
      = console (prompted a (resolved w dirNames)) ++ [sql_read_failed e]) /\
  sent (snd result) = sent w ++ [BOOTSTRAP; SELECT_CURSOR] /\
  durable (snd result) = bootstrap_store (durable w) /\
  working (snd result) = working w.
Proof.
  intros dirNames sub Hl Hn Ho Hu result. unfold result.
  destruct (@read_sql_unreadable data env (cmd a) _ Hu) as [e He].
  rewrite (run_unreadable pg env a pathToMigrations w listing Hl Hn
             s e Ho He).
  simpl. repeat split. now exists e.
Qed.

(** A unit directory with the commit file only: a rollback finds no second
    file. *)
Lemma unreadable_scripts_abort_witness :
  let result :=
    run Example.reliable
      (Example.env ["A"; "B"]%string ["commit.sql"]%string (inr 0))
      (mkArgs Rollback false) "/m" (Example.start (Some [1])) in
  fst result = Exited 1 /\
  sent (snd result) = [BOOTSTRAP; SELECT_CURSOR] /\
  durable (snd result) = mkStore (Some [1]) [].
Proof.
  destruct (unreadable_scripts_abort Example.reliable
              (Example.env ["A"; "B"]%string ["commit.sql"]%string (inr 0))
              (mkArgs Rollback false) "/m" (Example.start (Some [1]))
              ["A"; "B"]%string 0 eq_refl eq_refl eq_refl)
    as (E1 & _ & E2 & E3 & _).
  - intros (texts & F). inversion F as [|d t ds ts (files & file & Ed & Ep & _)].
    subst. injection Ed as <-. discriminate Ep.
  - repeat split; assumption.
Defined.

(** X3. When the migrations directory cannot be listed the operation
    prints the error and exits with status 1; the cursor table has been
    bootstrapped by then, and the cursor is not even queried. *)
Theorem listing_failure_after_bootstrap {data : Type}
    (pg : server data)
    (env : environment) (a : arguments) (pathToMigrations : string)
    (w : world data) (e : string) :
  readdirSync env pathToMigrations = inl e ->
  let result := run pg env a pathToMigrations w in
  fst result = Exited 1 /\
  console (snd result) = console w ++ [reading_failed e] /\
  sent (snd result) = sent w ++ [BOOTSTRAP] /\
  durable (snd result) = bootstrap_store (durable w).
Proof.
  intros Hl result. unfold result.
  rewrite (run_listing_fails pg env a pathToMigrations w e Hl).
  repeat split.
Qed.

Lemma listing_failure_after_bootstrap_witness :
  let result :=
    run Example.reliable
      (mkEnv (fun _ => inl "EACCES"%string) (fun _ => inr [])
         (fun _ => inr ""%string) (fun _ => inr 0) (fun _ => 0%nat))
      (mkArgs Commit true) "/m" (Example.start None) in
  fst result = Exited 1 /\
  sent (snd result) = [BOOTSTRAP] /\
  durable (snd result) = mkStore (Some [-1]) [].
Proof.
  destruct (listing_failure_after_bootstrap Example.reliable
              (mkEnv (fun _ => inl "EACCES"%string) (fun _ => inr [])
                 (fun _ => inr ""%string) (fun _ => inr 0) (fun _ => 0%nat))
              (mkArgs Commit true) "/m" (Example.start None)
              "EACCES"%string eq_refl) as (E1 & _ & E2 & E3).
  repeat split; assumption.
Defined.

(** X4. When the operation goes through (scripts read, every statement
    answered, SQL accepted, the cursor table still there) it exits with
    status 0 after COMMIT; the committed database is the one the engine
    left, with every row of the cursor table set to the new cursor, so
    that the next operation reads the new cursor when the table has a
    row. *)
Theorem successful_operation {data : Type}
    (pg : server data)
    (env : environment) (a : arguments) (pathToMigrations : string)
    (w : world data) (listing : list string) (s : Z) (texts : list string)
    (after : session data) (rows : list Z) :
  let dirNames := dirNames_of listing in
  let sub := subset (cmd a) dirNames (cursor_of w) in
  let n := newCursor (cmd a) dirNames sub s in
  working w = None ->
  readdirSync env pathToMigrations = inr listing ->
  JsCoerce.array_lt_one sub = false ->
  offset env a sub = inr s ->
  Forall2 (script_text env (cmd a))
    (map (resolve pathToMigrations) (selected sub s)) texts ->
  answered pg (sent w ++ [BOOTSTRAP; SELECT_CURSOR])
    [BEGIN; QUERY (sql_of texts); UPDATE_CURSOR n; COMMIT] = true ->
  sql_exec pg (sql_of texts) (begun (bootstrap_store (durable w)))
  = (after, None) ->
  migrations (present after) = Some rows ->
  let result := run pg env a pathToMigrations w in
  fst result = Exited 0 /\
  durable (snd result)
  = mkStore (Some (map (fun _ => n) rows)) (tables (present after)) /\
  working (snd result) = None /\
  sent (snd result)
  = sent w ++ [BOOTSTRAP; SELECT_CURSOR; BEGIN; QUERY (sql_of texts);
               UPDATE_CURSOR n; COMMIT] /\
  (rows <> [] -> cursor_of (snd result) = n).
Proof.
  intros dirNames sub n Hw Hl Hn Ho Hr Ha He Hm result. unfold result.
  rewrite (run_succeeds pg env a pathToMigrations w listing s texts
             after rows Hw Hl Hn Ho Hr Ha He Hm).
  cbn [fst snd durable working sent]. repeat split.
  intros Hrows. unfold cursor_of. cbn [durable].
  destruct rows as [|c rows]; [congruence|]. reflexivity.
Qed.

Lemma successful_operation_witness :
  let result :=
    run Example.reliable
      (Example.env ["A"; "B"; "C"]%string Example.unit_files (inr 0))
      (mkArgs Commit true) "/m" (Example.start (Some [0])) in
  fst result = Exited 0 /\
  durable (snd result)
  = mkStore (Some [2])
      [sql_of ["</m/B/commit.sql>"; "</m/C/commit.sql>"]%string] /\
  cursor_of (snd result) = 2.
Proof.
  destruct (successful_operation Example.reliable
              (Example.env ["A"; "B"; "C"]%string Example.unit_files (inr 0))
              (mkArgs Commit true) "/m" (Example.start (Some [0]))
              ["A"; "B"; "C"]%string 1
              ["</m/B/commit.sql>"; "</m/C/commit.sql>"]%string
              (mkStore (Some [0]) [],
               Some
                 (mkStore (Some [0])
                    [sql_of
                       ["</m/B/commit.sql>"; "</m/C/commit.sql>"]%string]))
              [0] eq_refl eq_refl eq_refl eq_refl)
    as (E1 & E2 & _ & _ & E3).
  - repeat constructor;
      exists Example.unit_files, "commit.sql"%string; repeat split.
  - reflexivity.
  - reflexivity.
  - reflexivity.
  - split; [exact E1|]. split; [exact E2|]. apply E3. discriminate.
Defined.

(** ** Fast-forward ([--all]) *)

Lemma subset_nonempty_len (sub : list string) :
  sub <> [] -> 0 <= JsArray.len sub - 1 < JsArray.len sub.
Proof.
  unfold JsArray.len. destruct sub; [congruence|]. cbn [List.length]. lia.
Qed.

Lemma fast_forward_cursor (C : list string) (k : Z) (c : command) :
  NoDup C ->
  -1 <= k < JsArray.len C ->
  subset c C k <> [] ->
  newCursor c C (subset c C k) (JsArray.len (subset c C k) - 1)
  = if is_commit c then JsArray.len C - 1 else -1.
Proof.
  intros ND Hk Hne.
  pose proof (subset_nonempty_len _ Hne) as Hs.
  pose proof (get_subset_position C k Hk c _ Hs) as P.
  destruct c; simpl in *.
  - rewrite (newCursor_NoDup Commit C _ _
               (k + 1 + (JsArray.len (subset Commit C k) - 1)) ND).
    + simpl. rewrite (len_subset_forward C k Hk). lia.
    + apply get_in_range. rewrite (len_subset_forward C k Hk) in *. lia.
    + exact P.
  - rewrite (newCursor_NoDup Rollback C _ _
               (k - (JsArray.len (subset Rollback C k) - 1)) ND).
    + simpl. rewrite (len_subset_backward C k Hk). lia.
    + apply get_in_range. rewrite (len_subset_backward C k Hk) in *. lia.
    + exact P.
Qed.

(** X5. Fast-forward: with [--all] the stopping offset is the last one, so
    the whole subset is selected; in a catalog of distinct names with the
    cursor in range, a commit then moves the cursor to the last unit and a
    rollback to [-1] (clean). *)
Theorem fast_forward (C : list string) (k : Z) (c : command) :
  NoDup C ->
  -1 <= k < JsArray.len C ->
  subset c C k <> [] ->
  selected (subset c C k) (JsArray.len (subset c C k) - 1) = subset c C k /\
  newCursor c C (subset c C k) (JsArray.len (subset c C k) - 1)
  = if is_commit c then JsArray.len C - 1 else -1.
Proof.
  intros ND Hk Hne. split; [|now apply fast_forward_cursor].
  unfold selected. rewrite slice_prefix by (unfold JsArray.len; lia).
  replace (JsArray.len (subset c C k) - 1 + 1)
    with (JsArray.len (subset c C k)) by lia.
  unfold JsArray.len. rewrite Nat2Z.id. apply firstn_all.
Qed.

Lemma fast_forward_witness :
  selected (subset Rollback ["A"; "B"; "C"; "D"]%string 2) 2
  = ["C"; "B"; "A"]%string /\
  newCursor Rollback ["A"; "B"; "C"; "D"]%string
    (subset Rollback ["A"; "B"; "C"; "D"]%string 2) 2 = -1.
Proof.
  apply (fast_forward ["A"; "B"; "C"; "D"]%string 2 Rollback).
  - repeat constructor; simpl; intuition discriminate.
  - vm_compute. split; congruence.
  - discriminate.
Defined.

Lemma subset_at_end (C : list string) (c : command) :
  subset c C (if is_commit c then JsArray.len C - 1 else -1) = [].
Proof.
  destruct c; unfold subset; cbn [is_commit].
  - rewrite slice_from_skipn by (unfold JsArray.len; lia).
    apply skipn_all2. unfold JsArray.len. lia.
  - rewrite reverse_rev.
    rewrite slice_from_skipn by (rewrite len_rev; unfold JsArray.len; lia).
    apply skipn_all2. unfold JsArray.len. rewrite length_rev. lia.
Qed.

(** X6. Fast-forward twice: after an operation with [--all] has gone
    through (distinct names, cursor in range, cursor table with a row), the
    same operation run again finds an empty subset, prints the no-op
    message and exits with status 0, leaving the database as it is. *)
Theorem fast_forward_twice {data : Type}
    (pg : server data)
    (env : environment) (a : arguments) (pathToMigrations : string)
    (w : world data) (listing : list string) (texts : list string)
    (after : session data) (row : Z) (rows : list Z) :
  let dirNames := dirNames_of listing in
  let sub := subset (cmd a) dirNames (cursor_of w) in
  let n := newCursor (cmd a) dirNames sub (JsArray.len sub - 1) in
  working w = None ->
  all a = true ->
  readdirSync env pathToMigrations = inr listing ->
  NoDup dirNames ->
  -1 <= cursor_of w < JsArray.len dirNames ->
  JsCoerce.array_lt_one sub = false ->
  Forall2 (script_text env (cmd a))
    (map (resolve pathToMigrations) (selected sub (JsArray.len sub - 1)))
    texts ->
  answered pg (sent w ++ [BOOTSTRAP; SELECT_CURSOR])
    [BEGIN; QUERY (sql_of texts); UPDATE_CURSOR n; COMMIT] = true ->
  sql_exec pg (sql_of texts) (begun (bootstrap_store (durable w)))
  = (after, None) ->
  migrations (present after) = Some (row :: rows) ->
  let first := run pg env a pathToMigrations w in
  let again := run pg env a pathToMigrations (snd first) in
  fst first = Exited 0 /\
  fst again = Exited 0 /\
  durable (snd again) = durable (snd first) /\
  sent (snd again) = sent (snd first) ++ [BOOTSTRAP; SELECT_CURSOR] /\
  console (snd again)
  = console (resolved (snd first) dirNames) ++ [cannot_perform (cmd a)].
Proof.
  intros dirNames sub n Hw Ha Hl ND Hk Hn Hr Hans He Hm first again.
  assert (offset env a sub = inr (JsArray.len sub - 1)) as Ho
    by (unfold offset; now rewrite Ha).
  assert (sub <> []) as Hne by (intros E; rewrite E in Hn; discriminate Hn).
  pose proof (fast_forward_cursor dirNames (cursor_of w) (cmd a) ND Hk Hne)
    as Hc. fold sub in Hc.
  pose proof (run_succeeds pg env a pathToMigrations w listing
                (JsArray.len sub - 1) texts after (row :: rows)
                Hw Hl Hn Ho Hr Hans He Hm) as E1.
  cbv zeta in E1. fold dirNames sub n first in E1.
  split; [now rewrite E1|].
  assert (cursor_of (snd first)
          = if is_commit (cmd a) then JsArray.len dirNames - 1 else -1) as Ec.
  { rewrite E1. unfold cursor_of. simpl. exact Hc. }
  unfold again.
  rewrite (run_noop pg env a pathToMigrations (snd first) listing Hl).
  - simpl. repeat split. rewrite E1. reflexivity.
  - fold dirNames. rewrite Ec. now rewrite subset_at_end.
Qed.

Lemma fast_forward_twice_witness :
  let first :=
    run Example.reliable
      (Example.env ["A"; "B"; "C"]%string Example.unit_files (inr 0))
      (mkArgs Commit true) "/m" (Example.start (Some [0])) in
  let again :=
    run Example.reliable
      (Example.env ["A"; "B"; "C"]%string Example.unit_files (inr 0))
      (mkArgs Commit true) "/m" (snd first) in
  fst first = Exited 0 /\
  fst again = Exited 0 /\
  durable (snd again) = durable (snd first).
Proof.
  destruct (fast_forward_twice Example.reliable
              (Example.env ["A"; "B"; "C"]%string Example.unit_files (inr 0))
              (mkArgs Commit true) "/m" (Example.start (Some [0]))
              ["A"; "B"; "C"]%string
              ["</m/B/commit.sql>"; "</m/C/commit.sql>"]%string
              (mkStore (Some [0]) [],
               Some
                 (mkStore (Some [0])
                    [sql_of
                       ["</m/B/commit.sql>"; "</m/C/commit.sql>"]%string]))
              0 [] eq_refl eq_refl eq_refl)
    as (E1 & E2 & E3 & _).
  - repeat constructor; simpl; intuition discriminate.
  - vm_compute. split; congruence.
  - reflexivity.
  - repeat constructor;
      exists Example.unit_files, "commit.sql"%string; repeat split.
  - reflexivity.
  - reflexivity.
  - reflexivity.
  - split; [exact E1|]. split; [exact E2 | exact E3].
Defined.

(** ** A cursor beyond the catalog *)

(** X7. A stale cursor: when the persisted cursor is at or beyond the
    length of the catalog (migration directories were removed), a commit
    resolves the empty subset, and a rollback resolves the reverse of the
    first [cursor + 1 - len] units: the oldest units, not the most recently
    applied ones. *)
Theorem stale_cursor (C : list string) (k : Z) :
  JsArray.len C <= k ->
  subset Commit C k = [] /\
  subset Rollback C k = rev (firstn (Z.to_nat (k + 1 - JsArray.len C)) C).
Proof.
  intros Hk. unfold JsArray.len in Hk. split.
  - unfold subset, JsArray.slice_from, JsArray.rel_index, JsArray.len. simpl.
    destruct (Z.ltb_spec (k + 1) 0); [lia|].
    rewrite Z.min_r by lia. apply skipn_all2. lia.
  - unfold subset. simpl. rewrite reverse_rev.
    unfold JsArray.slice_from, JsArray.rel_index. rewrite len_rev.
    unfold JsArray.len.
    destruct (Z.ltb_spec (Z.of_nat (List.length C) - (k + 1)) 0); [|lia].
    destruct (Z.le_gt_cases (k + 1) (2 * Z.of_nat (List.length C))) as [L|G].
    + rewrite Z.max_l by lia.
      replace (Z.to_nat (Z.of_nat (List.length C)
                         + (Z.of_nat (List.length C) - (k + 1))))
        with (List.length C
              - Z.to_nat (k + 1 - Z.of_nat (List.length C)))%nat by lia.
      apply skipn_rev_firstn. lia.
    + rewrite Z.max_r by lia. simpl.
      now rewrite firstn_all2 by lia.
Qed.

Lemma stale_cursor_witness :
  subset Commit ["A"; "B"; "C"]%string 3 = [] /\
  subset Rollback ["A"; "B"; "C"]%string 3 = ["A"]%string.
Proof.
  apply (stale_cursor ["A"; "B"; "C"]%string 3).
  vm_compute. congruence.
Defined.

(** ** Every way an operation can end *)

(** Every way the transaction can go: which statement is refused, whether
    the script fails, whether the cursor table is still there. *)
Ltac transact_cases Hw :=
  run_transact Hw;
  repeat
    (match goal with
     | |- context [refused ?pg ?h] => destruct (refused pg h) eqn:?
     | |- context [sql_exec ?pg ?q ?db] =>
         destruct (sql_exec pg q db) as [[? ?] [?|]] eqn:?
     | |- context [migrations ?st] =>
         match st with
         | context [match ?t with _ => _ end] => destruct t eqn:?
         | _ => destruct (migrations st) eqn:?
         end
     end;
     run_transact Hw).

Lemma transact_outcomes {data : Type} (pg : server data) (c : command)
    (dirNames : list string) (sql : string) (n : Z) (w : world data) :
  working w = None ->
  exists (code : Z) (final : world data) (tail : list pg_command),
    transact pg c dirNames sql n w = (Exited code, final) /\
    sent final = sent w ++ BEGIN :: tail /\
    ((code = 1 /\ last (BEGIN :: tail) BOOTSTRAP = ROLLBACK /\
      refused pg (sent final) = None /\ working final = None)
     \/ (code = 0 /\ last (BEGIN :: tail) BOOTSTRAP = COMMIT /\
         refused pg (sent final) = None /\ working final = None)
     \/ (code = 0 /\ last (BEGIN :: tail) BOOTSTRAP = ROLLBACK /\
         refused pg (sent final) <> None)) /\
    ((forall script, exists t r,
         sql_exec pg script (begun (durable w)) = ((durable w, Some t), r)) ->
     durable final = durable w
     \/ (code = 0 /\ last (BEGIN :: tail) BOOTSTRAP = COMMIT)).
Proof.
  intros Hw.
  transact_cases Hw;
    (eexists _, _, _; split; [reflexivity|];
     split; [cbn [sent]; reflexivity|];
     cbn [sent working durable last]; split;
     [ first [ left; repeat split; (assumption || congruence)
             | right; left; repeat split; (assumption || congruence)
             | right; right; repeat split; (assumption || congruence) ]
     | intros K;
       first [ left; reflexivity | right; split; reflexivity
             | destruct (K sql) as (t' & r' & K');
               match goal with
               | E : sql_exec pg sql _ = _ |- _ =>
                   rewrite K' in E;
                   first [ discriminate E
                         | injection E as E1 E2 E3; left; congruence ]
               end ] ]).
Qed.

(** X8. Started with no open transaction, and with the pool answering
    its two statements and giving a client, an operation always ends in
    [process.exit], with status 0 or 1.  Status 1 means that nothing was
    sent after the bootstrap or after the cursor query, or that the last
    statement sent is a ROLLBACK that was answered.  Status 0 means a
    no-op (nothing sent after the cursor query), a COMMIT that was
    answered, or a ROLLBACK that was refused, in which case the failure
    that led to it is not reported.  When the scripts leave the committed
    database and the open transaction alone, the committed database is
    the bootstrapped one unless the run ended on COMMIT. *)
Theorem operation_outcomes {data : Type} (pg : server data)
    (env : environment) (a : arguments) (pathToMigrations : string)
    (w : world data) :
  working w = None ->
  exists (code : Z) (final : world data) (tail : list pg_command),
    run pg env a pathToMigrations w = (Exited code, final) /\
    sent final = sent w ++ BOOTSTRAP :: tail /\
    ((code = 1 /\
      (tail = [] \/ tail = [SELECT_CURSOR] \/
       (last tail BOOTSTRAP = ROLLBACK /\
        refused pg (sent final) = None /\ working final = None)))
     \/
     (code = 0 /\
      (tail = [SELECT_CURSOR] \/
       (last tail BOOTSTRAP = COMMIT /\
        refused pg (sent final) = None /\ working final = None) \/
       (last tail BOOTSTRAP = ROLLBACK /\
        refused pg (sent final) <> None)))) /\
    ((forall script, exists t r,
         sql_exec pg script (begun (bootstrap_store (durable w)))
         = ((bootstrap_store (durable w), Some t), r)) ->
     durable final = bootstrap_store (durable w)
     \/ (code = 0 /\ last tail BOOTSTRAP = COMMIT)).
Proof.
  intros Hw.
  destruct (readdirSync env pathToMigrations) as [e|listing] eqn:Hl.
  { rewrite (run_listing_fails pg env a pathToMigrations w e Hl).
    eexists 1, _, []. split; [reflexivity|]. cbn [sent durable].
    repeat split; auto. }
  set (dirNames := dirNames_of listing).
  set (sub := subset (cmd a) dirNames (cursor_of w)).
  destruct (JsCoerce.array_lt_one sub) eqn:Hn.
  { rewrite (run_noop pg env a pathToMigrations w listing Hl Hn).
    eexists 0, _, [SELECT_CURSOR]. split; [reflexivity|]. cbn [sent durable].
    repeat split; auto. }
  destruct (offset env a sub) as [e|s] eqn:Ho.
  { rewrite (run_cancelled pg env a pathToMigrations w listing Hl Hn
               e Ho).
    eexists 1, _, [SELECT_CURSOR]. split; [reflexivity|]. cbn [sent durable].
    repeat split; auto. }
  destruct (@read_sql_outcome data env (cmd a)
              (map (resolve pathToMigrations) (selected sub s)))
    as [(texts & F & _) | (e & He)].
  2:{ rewrite (run_unreadable pg env a pathToMigrations w listing Hl Hn
                 s e Ho He).
      eexists 1, _, [SELECT_CURSOR]. split; [reflexivity|].
      cbn [sent durable]. repeat split; auto. }
  rewrite (run_to_transact pg env a pathToMigrations w listing Hl
             s texts Hn Ho F).
  fold dirNames sub.
  set (n := newCursor (cmd a) dirNames sub s).
  set (w2 := prompted a (resolved w dirNames)).
  assert (working w2 = None) as Hi
    by (unfold w2; now rewrite working_prompted).
  destruct (transact_outcomes pg (cmd a) dirNames (sql_of texts) n w2 Hi)
    as (code & final & tail & E & Es & Cases & Kept).
  unfold w2 in Es, Kept. rewrite sent_prompted in Es.
  rewrite durable_prompted in Kept.
  exists code, final, (SELECT_CURSOR :: BEGIN :: tail).
  split; [exact E|]. split.
  { rewrite Es. now rewrite <- app_assoc. }
  change (last (SELECT_CURSOR :: BEGIN :: tail) BOOTSTRAP)
    with (last (BEGIN :: tail) BOOTSTRAP).
  split; [|exact Kept].
  destruct Cases as [(-> & L & R & W) | [(-> & L & R & W) | (-> & L & R)]].
  - left. split; [reflexivity|]. right. right. auto.
  - right. split; [reflexivity|]. right. left. auto.
  - right. split; [reflexivity|]. right. right. auto.
Qed.

(** A run in which the script fails and the ROLLBACK is refused: the
    status is 0 and the failure is not reported. *)
Lemma operation_outcomes_witness :
  let result :=
    run (Example.postgres 4)
      (Example.env ["FAIL"]%string Example.unit_files (inr 0))
      (mkArgs Commit false) "/m" (Example.start None) in
  fst result = Exited 0 /\
  last (sent (snd result)) BOOTSTRAP = ROLLBACK /\
  refused (Example.postgres 4) (sent (snd result)) <> None /\
  durable (snd result) = mkStore (Some [-1]) [].
Proof.
  destruct (operation_outcomes (Example.postgres 4)
              (Example.env ["FAIL"]%string Example.unit_files (inr 0))
              (mkArgs Commit false) "/m" (Example.start None) eq_refl)
    as (code & final & tail & E & Es & Cases & Kept).
  vm_compute in E. injection E as <- <-.
  split; [reflexivity|]. split; [reflexivity|].
  destruct Cases as [(C1 & _) | (_ & [C | [(C & _) | (_ & C)]])].
  - discriminate C1.
  - subst tail. discriminate Es.
  - injection Es as <-. discriminate C.
  - split; [exact C | reflexivity].
Defined.


(** * The command line *)

Section ArgvLoop.
Import ParseArgv.

(** The loop goes on where a complete run of options ends. *)
Lemma parse_loop_app (n : nat) :
  forall (pre rest : list string) (o o1 : options),
    (List.length pre <= n)%nat ->
    parse_loop o pre = inr o1 ->
    parse_loop o (pre ++ rest) = parse_loop o1 rest.
Proof.
  induction n as [|n IH]; intros pre rest o o1 Hlen E.
  - destruct pre; [|simpl in Hlen; lia]. simpl in E. now injection E as <-.
  - destruct pre as [|arg pre]; [simpl in E; now injection E as <-|].
    simpl in Hlen. cbn [app parse_loop] in *.
    destruct (resolve_arg o arg) as [k| | | |].
    + destruct (expect k) as [r|].
      * destruct pre as [|v pre]; [discriminate E|].
        cbn [app]. destruct (v =? "")%string; [discriminate E|].
        destruct (test r v); [|discriminate E].
        apply IH; [simpl in Hlen; lia | exact E].
      * apply IH; [lia | exact E].
    + apply IH; [lia | exact E].
    + apply IH; [lia | exact E].
    + apply IH; [lia | exact E].
    + discriminate E.
Qed.

Lemma resolve_arg_alias (o : options) (alias long : string) :
  aliases alias = Some long ->
  resolve_arg o alias = resolve_arg o long.
Proof.
  unfold aliases. intros E.
  destruct (String.eqb_spec alias "-a") as [->|_];
    [injection E as <-; now destruct o as [? ? ? ? []]|].
  destruct (String.eqb_spec alias "-e") as [->|_];
    [injection E as <-; now destruct o as [? ? ? ? []]|].
  destruct (String.eqb_spec alias "-m") as [->|_];
    [injection E as <-; now destruct o as [? ? ? ? []]|].
  destruct (String.eqb_spec alias "-p") as [->|_];
    [injection E as <-; now destruct o as [? ? ? ? []]|].
  discriminate E.
Qed.

End ArgvLoop.

Section ArgvFacts.
Import ParseArgv Settings.

Lemma test_nonempty (r : regex) (v : string) :
  test r v = true -> (v =? "")%string = false.
Proof. destruct v; [destruct r; discriminate | reflexivity]. Qed.

Lemma resolve_arg_rendered (o : options) (s : setting) :
  resolve_arg o
    (if by_alias s then alias_of (setting_key s)
     else key_name (setting_key s))
  = own (setting_key s).
Proof.
  destruct s as [[] [] v]; destruct o as [? ? ? ? []]; reflexivity.
Qed.

(** Parsing what was written out gives back the options one by one. *)
Lemma parse_loop_rendered (ss : list setting) :
  forall o : options,
    Forall well_formed ss ->
    parse_loop o (flat_map render ss) = inr (fold_left apply_setting ss o).
Proof.
  induction ss as [|s ss IH]; intros o F; [reflexivity|].
  inversion F as [|s' ss' Hs Hss]; subst.
  cbn [flat_map fold_left]. unfold render at 1. cbn [app parse_loop].
  rewrite resolve_arg_rendered.
  unfold well_formed in Hs. unfold apply_setting at 2. unfold given.
  destruct (expect (setting_key s)) as [r|].
  - cbn [app]. rewrite (test_nonempty r _ Hs), Hs. now apply IH.
  - cbn [app]. now apply IH.
Qed.

Lemma own_value_set (k' k : key) (v : js_value) (o : options) :
  own_value (set_value k' v o) k
  = if key_eqb k' k then Some v else own_value o k.
Proof. destruct k', k; reflexivity. Qed.

Lemma polluted_set (k : key) (v : js_value) (o : options) :
  polluted (set_value k v o) = polluted o.
Proof. destruct k; reflexivity. Qed.

Lemma own_value_settings (k : key) (ss : list setting) :
  forall o : options,
    own_value (fold_left apply_setting ss o) k
    = match last_given k ss with
      | Some v => Some v
      | None => own_value o k
      end.
Proof.
  induction ss as [|s ss IH]; intros o; [reflexivity|].
  cbn [fold_left last_given]. rewrite IH.
  destruct (last_given k ss); [reflexivity|].
  unfold apply_setting. rewrite own_value_set.
  now destruct (key_eqb (setting_key s) k).
Qed.

Lemma polluted_settings (ss : list setting) :
  forall o : options,
    polluted (fold_left apply_setting ss o) = polluted o.
Proof.
  induction ss as [|s ss IH]; intros o; [reflexivity|].
  cbn [fold_left]. rewrite IH. apply polluted_set.
Qed.

Lemma last_given_truthy (k : key) (ss : list setting) (v : js_value) :
  Forall well_formed ss -> last_given k ss = Some v -> truthy v = true.
Proof.
  induction 1 as [|s ss Hs F IH]; [discriminate|].
  cbn [last_given]. destruct (last_given k ss) as [v'|].
  - intros E. injection E as ->. now apply IH.
  - destruct (key_eqb (setting_key s) k); [|discriminate].
    intros E. injection E as <-. unfold given, well_formed in *.
    destruct (expect (setting_key s)) as [r|]; [|reflexivity].
    simpl. now rewrite (test_nonempty r _ Hs).
Qed.

Lemma or_default_settings (k : key) (ss : list setting) :
  Forall well_formed ss ->
  or_default (fold_left apply_setting ss initial) k = chosen k ss.
Proof.
  intros F. unfold or_default, read_value, chosen.
  rewrite own_value_settings, polluted_settings.
  destruct (last_given k ss) as [v|] eqn:E.
  - now rewrite (last_given_truthy k ss v F E).
  - now destruct k.
Qed.

Lemma key_eqb_eq (a b : key) : key_eqb a b = true -> a = b.
Proof. destruct a, b; simpl; congruence. Qed.

(** The loop keeps the values validated and never clears the mark on
    [Object.prototype]. *)
Lemma parse_loop_invariant (n : nat) :
  forall (args : list string) (o o' : options),
    (List.length args <= n)%nat ->
    parse_loop o args = inr o' ->
    (forall k v, own_value o k = Some v -> validated k v) ->
    (forall k v, own_value o' k = Some v -> validated k v) /\
    (polluted o = true -> polluted o' = true).
Proof.
  induction n as [|n IH]; intros args o o' Hlen E Hv.
  - destruct args; [|simpl in Hlen; lia]. simpl in E. injection E as <-.
    auto.
  - destruct args as [|arg args]; [simpl in E; injection E as <-; auto|].
    simpl in Hlen. cbn [parse_loop] in E.
    destruct (resolve_arg o arg) as [k| | | |].
    + destruct (expect k) as [r|] eqn:Ek.
      * destruct args as [|v args]; [discriminate E|].
        destruct (v =? "")%string; [discriminate E|].
        destruct (test r v) eqn:Et; [|discriminate E].
        destruct (IH args (set_value k (js_string v) o) o') as [I1 I2];
          [simpl in Hlen; lia | exact E | | ].
        -- intros k0 v0. rewrite own_value_set.
           destruct (key_eqb k k0) eqn:Ekk; [|apply Hv].
           intros E0. injection E0 as <-.
           apply key_eqb_eq in Ekk. subst k0.
           unfold validated. rewrite Ek. now exists v.
        -- split; [exact I1|]. now rewrite polluted_set in I2.
      * destruct (IH args (set_value k js_true o) o') as [I1 I2];
          [lia | exact E | | ].
        -- intros k0 v0. rewrite own_value_set.
           destruct (key_eqb k k0) eqn:Ekk; [|apply Hv].
           intros E0. injection E0 as <-.
           apply key_eqb_eq in Ekk. subst k0.
           unfold validated. now rewrite Ek.
        -- split; [exact I1|]. now rewrite polluted_set in I2.
    + destruct (IH args (pollute o) o') as [I1 I2];
        [lia | exact E | | ].
      * intros k0 v0 E0. apply Hv. now destruct k0.
      * split; [exact I1|]. intros _. now apply I2.
    + apply (IH args o o'); [lia | exact E | exact Hv].
    + apply (IH args o o'); [lia | exact E | exact Hv].
    + discriminate E.
Qed.

Lemma initial_validated (k : key) (v : js_value) :
  own_value initial k = Some v -> validated k v.
Proof. destruct k; discriminate. Qed.

Lemma or_default_cases (o : options) (k : key) :
  (forall k v, own_value o k = Some v -> validated k v) ->
  validated k (or_default o k)
  \/ or_default o k = default k
  \/ (or_default o k = js_true /\ polluted o = true).
Proof.
  intros Hv. unfold or_default, read_value.
  destruct (own_value o k) as [v|] eqn:E.
  - destruct (truthy v); [|now right; left]. left. now apply Hv.
  - destruct (polluted o); [now right; right | now right; left].
Qed.

End ArgvFacts.

(** X9. Wherever the parser expects the name of an option, an alias
    ([-a], [-e], [-m], [-p]) gives the same result as its long form. *)
Theorem alias_as_long_form (node script c alias long : string)
    (pre rest : list string) (o1 : ParseArgv.options) :
  ParseArgv.aliases alias = Some long ->
  ParseArgv.parse_loop ParseArgv.initial pre = inr o1 ->
  ParseArgv.parse_argv (node :: script :: c :: pre ++ alias :: rest)
  = ParseArgv.parse_argv (node :: script :: c :: pre ++ long :: rest).
Proof.
  intros Ea Ep. unfold ParseArgv.parse_argv.
  destruct (existsb (String.eqb c) ParseArgv.commands); [|reflexivity].
  rewrite !(parse_loop_app _ pre _ _ o1 (le_n _) Ep).
  cbn [ParseArgv.parse_loop].
  now rewrite (resolve_arg_alias o1 alias long Ea).
Qed.

Lemma alias_as_long_form_witness :
  ParseArgv.parse_argv
    ["node"; "migres"; "commit"; "--all"; "-m"; "db/migrations"]%string
  = ParseArgv.parse_argv
      ["node"; "migres"; "commit"; "--all"; "--migrations";
       "db/migrations"]%string.
Proof.
  exact (alias_as_long_form "node" "migres" "commit" "-m" "--migrations"
           ["--all"]%string ["db/migrations"]%string
           (ParseArgv.set_value ParseArgv.all_key ParseArgv.js_true
              ParseArgv.initial)
           eq_refl eq_refl).
Defined.

(** X10. Round trip: for each of the three commands, a command line made
    of options written by name or alias, each value passing the test of
    its option, is accepted, and every option is exported with the value
    given last for it, or with its default.  The table [valid_for] plays no
    part: [--all] is accepted for [create] and [--prefix] for [commit]. *)
Theorem written_options_parse (node script c : string)
    (ss : list Settings.setting) :
  In c ParseArgv.commands ->
  Forall Settings.well_formed ss ->
  ParseArgv.parse_argv
    (node :: script :: c :: flat_map Settings.render ss)
  = inr (ParseArgv.mkExported c
           (Settings.chosen ParseArgv.all_key ss)
           (Settings.chosen ParseArgv.env_key ss)
           (Settings.chosen ParseArgv.migrations_key ss)
           (Settings.chosen ParseArgv.prefix_key ss)
           None).
Proof.
  intros Hc F. unfold ParseArgv.parse_argv.
  assert (existsb (String.eqb c) ParseArgv.commands = true) as ->.
  { apply existsb_exists. exists c. split; [exact Hc|].
    apply String.eqb_refl. }
  rewrite (parse_loop_rendered ss ParseArgv.initial F).
  unfold ParseArgv.finish.
  rewrite !(or_default_settings _ ss F), polluted_settings.
  reflexivity.
Qed.

Lemma written_options_parse_witness :
  ParseArgv.parse_argv
    ["node"; "migres"; "create"; "-m"; "old"; "--all"; "--migrations";
     "db/new"]%string
  = inr (ParseArgv.mkExported "create" ParseArgv.js_true
           (ParseArgv.js_string ".env") (ParseArgv.js_string "db/new")
           (ParseArgv.js_string "time") None).
Proof.
  apply (written_options_parse "node" "migres" "create"
           [Settings.mkSetting ParseArgv.migrations_key true "old";
            Settings.mkSetting ParseArgv.all_key false "";
            Settings.mkSetting ParseArgv.migrations_key false "db/new"]).
  - simpl. auto.
  - repeat constructor.
Defined.

(** X11. Whatever is accepted: the command is one of [create], [commit],
    [rollback], and every exported option is a validated value ([true] for
    the flag, a string that passes the test of the option), or its
    default, or the [true] that an argument [__proto__] has put on
    [Object.prototype], in which case the exported object also has the
    key [value]. *)
Theorem parsed_values_validated (argv : list string)
    (e : ParseArgv.exported) :
  ParseArgv.parse_argv argv = inr e ->
  In (ParseArgv.cmd e) ParseArgv.commands /\
  forall k : ParseArgv.key,
    Settings.validated k (Settings.field e k)
    \/ Settings.field e k = ParseArgv.default k
    \/ (Settings.field e k = ParseArgv.js_true /\
        ParseArgv.value e = Some ParseArgv.js_true).
Proof.
  unfold ParseArgv.parse_argv.
  destruct argv as [|node [|script [|c args]]]; try discriminate.
  destruct (existsb (String.eqb c) ParseArgv.commands) eqn:Ec;
    [|discriminate].
  destruct (ParseArgv.parse_loop ParseArgv.initial args) as [err|o] eqn:Ep;
    [discriminate|].
  intros E. injection E as <-.
  destruct (parse_loop_invariant _ args ParseArgv.initial o (le_n _) Ep
              initial_validated) as [Hv _].
  split.
  - apply existsb_exists in Ec as (x & Hx & Ex).
    apply String.eqb_eq in Ex. now subst x.
  - intros k. destruct (or_default_cases o k Hv) as [V|[D|[T P]]].
    + left. now destruct k.
    + right. left. now destruct k.
    + right. right. unfold ParseArgv.finish. simpl. rewrite P.
      split; [now destruct k | reflexivity].
Qed.

Lemma parsed_values_validated_witness :
  In "rollback"%string ParseArgv.commands /\
  Settings.validated ParseArgv.env_key (ParseArgv.js_string "test.env").
Proof.
  destruct (parsed_values_validated
              ["node"; "migres"; "rollback"; "-e"; "test.env"]%string
              (ParseArgv.mkExported "rollback" ParseArgv.js_false
                 (ParseArgv.js_string "test.env")
                 (ParseArgv.js_string "postgres_migrations")
                 (ParseArgv.js_string "time") None)
              eq_refl) as [Hc Hk].
  split; [exact Hc|].
  destruct (Hk ParseArgv.env_key) as [V|[D|[T _]]];
    [exact V | discriminate D | discriminate T].
Defined.

Section ArgvUntouched.
Import ParseArgv.
Import Settings.

(** Only its name and its alias lead to an option. *)
Lemma resolve_arg_own (o : options) (arg : string) (k : key) :
  resolve_arg o arg = own k ->
  arg = key_name k \/ arg = alias_of k.
Proof.
  unfold resolve_arg, lookup, own_option, aliases.
  destruct (String.eqb_spec arg "--all") as [->|_];
    [intros E; injection E as <-; now left|].
  destruct (String.eqb_spec arg "--env") as [->|_];
    [intros E; injection E as <-; now left|].
  destruct (String.eqb_spec arg "--migrations") as [->|_];
    [intros E; injection E as <-; now left|].
  destruct (String.eqb_spec arg "--prefix") as [->|_];
    [intros E; injection E as <-; now left|].
  destruct (String.eqb_spec arg "-a") as [->|_];
    [destruct (polluted o); intros E; injection E as <-; now right|].
  destruct (String.eqb_spec arg "-e") as [->|_];
    [destruct (polluted o); intros E; injection E as <-; now right|].
  destruct (String.eqb_spec arg "-m") as [->|_];
    [destruct (polluted o); intros E; injection E as <-; now right|].
  destruct (String.eqb_spec arg "-p") as [->|_];
    [destruct (polluted o); intros E; injection E as <-; now right|].
  destruct (arg =? "__proto__")%string; [discriminate|].
  destruct (existsb (String.eqb arg) prototype_functions); [discriminate|].
  destruct (polluted o && (arg =? "value")%string); discriminate.
Qed.

(** An option whose name and alias do not occur among the arguments
    keeps the value it had. *)
Lemma parse_loop_untouched (k : key) (n : nat) :
  forall (args : list string) (o o' : options),
    (List.length args <= n)%nat ->
    parse_loop o args = inr o' ->
    ~ In (key_name k) args ->
    ~ In (alias_of k) args ->
    own_value o' k = own_value o k.
Proof.
  induction n as [|n IH]; intros args o o' Hlen E N1 N2.
  - destruct args; [|simpl in Hlen; lia]. simpl in E. now injection E as <-.
  - destruct args as [|arg rest]; [simpl in E; now injection E as <-|].
    simpl in Hlen. cbn [parse_loop] in E.
    assert (~ In (key_name k) rest /\ ~ In (alias_of k) rest) as [M1 M2]
      by (split; intros H; [apply N1 | apply N2]; now right).
    destruct (resolve_arg o arg) as [k0| | | |] eqn:Er.
    + assert (key_eqb k0 k = false) as Ne.
      { destruct (key_eqb k0 k) eqn:Ek; [|reflexivity].
        apply key_eqb_eq in Ek. subst k0.
        destruct (resolve_arg_own o arg k Er) as [-> | ->];
          [exfalso; apply N1 | exfalso; apply N2]; now left. }
      destruct (expect k0) as [r|].
      * destruct rest as [|v rest']; [discriminate E|].
        destruct (v =? "")%string; [discriminate E|].
        destruct (test r v); [|discriminate E].
        rewrite (IH rest' (set_value k0 (js_string v) o) o').
        -- now rewrite own_value_set, Ne.
        -- simpl in Hlen. lia.
        -- exact E.
        -- intros H. apply M1. now right.
        -- intros H. apply M2. now right.
      * rewrite (IH rest (set_value k0 js_true o) o');
          try assumption; [|lia].
        now rewrite own_value_set, Ne.
    + rewrite (IH rest (pollute o) o'); try assumption; [|lia].
      now destruct k.
    + apply (IH rest); try assumption. lia.
    + apply (IH rest); try assumption. lia.
    + discriminate E.
Qed.

End ArgvUntouched.

(** X12. An argument [__proto__] where the name of an option is expected
    is not rejected: it sets [Object.prototype.value].  If the rest of the
    command line is accepted, the exported object gets a key [value],
    [all] is exported as [true], and every option whose name and alias do
    not occur on the command line is exported as [true], which is not its
    default; the other options have [true] or a validated value. *)
Theorem proto_argument_overrides_defaults (node script c : string)
    (pre post : list string) (o1 : ParseArgv.options)
    (e : ParseArgv.exported) :
  ParseArgv.parse_loop ParseArgv.initial pre = inr o1 ->
  ParseArgv.parse_argv (node :: script :: c :: pre ++ "__proto__"%string :: post)
  = inr e ->
  ParseArgv.value e = Some ParseArgv.js_true /\
  ParseArgv.all e = ParseArgv.js_true /\
  (forall k : ParseArgv.key,
      ~ In (ParseArgv.key_name k) (pre ++ post) ->
      ~ In (Settings.alias_of k) (pre ++ post) ->
      Settings.field e k = ParseArgv.js_true /\
      Settings.field e k <> ParseArgv.default k) /\
  (forall k : ParseArgv.key,
      Settings.field e k = ParseArgv.js_true
      \/ Settings.validated k (Settings.field e k)).
Proof.
  intros Ep. unfold ParseArgv.parse_argv.
  destruct (existsb (String.eqb c) ParseArgv.commands); [|discriminate].
  rewrite (parse_loop_app _ pre _ _ o1 (le_n _) Ep).
  cbn [ParseArgv.parse_loop].
  assert (ParseArgv.resolve_arg o1 "__proto__" = ParseArgv.object_prototype)
    as -> by reflexivity.
  destruct (ParseArgv.parse_loop (ParseArgv.pollute o1) post)
    as [err|o2] eqn:Eq; [discriminate|].
  intros E. injection E as <-.
  destruct (parse_loop_invariant _ pre ParseArgv.initial o1 (le_n _) Ep
              initial_validated) as [Hv1 _].
  destruct (parse_loop_invariant _ post (ParseArgv.pollute o1) o2 (le_n _) Eq)
    as [Hv2 Hp2].
  { intros k v E. apply Hv1. now destruct k. }
  specialize (Hp2 eq_refl).
  assert (forall k : ParseArgv.key,
             ParseArgv.or_default o2 k = ParseArgv.js_true
             \/ Settings.validated k (ParseArgv.or_default o2 k)) as Hk.
  { intros k. unfold ParseArgv.or_default, ParseArgv.read_value.
    rewrite Hp2.
    destruct (ParseArgv.own_value o2 k) as [v|] eqn:Ev; [|now left].
    pose proof (Hv2 k v Ev) as V. unfold Settings.validated in V |- *.
    destruct (ParseArgv.expect k) as [r|] eqn:Er.
    - destruct V as (s & -> & T). right. simpl.
      rewrite (test_nonempty r s T). simpl. now exists s.
    - subst v. now left. }
  assert (forall k : ParseArgv.key,
             Settings.field (ParseArgv.finish c o2) k
             = ParseArgv.or_default o2 k) as Hf
    by (intros k; now destruct k).
  assert (ParseArgv.or_default o2 ParseArgv.all_key = ParseArgv.js_true) as Ea.
  { destruct (Hk ParseArgv.all_key) as [T|V]; [exact T | exact V]. }
  split; [unfold ParseArgv.finish; simpl; now rewrite Hp2|].
  split; [exact Ea|]. split.
  - intros k N1 N2. rewrite Hf.
    assert (ParseArgv.own_value o2 k = None) as Ev.
    { rewrite (parse_loop_untouched k _ post (ParseArgv.pollute o1) o2
                 (le_n _) Eq).
      - assert (ParseArgv.own_value (ParseArgv.pollute o1) k
                = ParseArgv.own_value o1 k) as -> by (now destruct k).
        rewrite (parse_loop_untouched k _ pre ParseArgv.initial o1
                   (le_n _) Ep).
        + now destruct k.
        + intros H. apply N1. apply in_or_app. now left.
        + intros H. apply N2. apply in_or_app. now left.
      - intros H. apply N1. apply in_or_app. now right.
      - intros H. apply N2. apply in_or_app. now right. }
    assert (ParseArgv.or_default o2 k = ParseArgv.js_true) as ->.
    { unfold ParseArgv.or_default, ParseArgv.read_value.
      now rewrite Ev, Hp2. }
    split; [reflexivity|]. now destruct k.
  - intros k. rewrite Hf. apply Hk.
Qed.

(** [commit -m migrations __proto__]: [env] and [prefix] are exported as
    [true] instead of [.env] and [time]. *)
Lemma proto_argument_overrides_defaults_witness :
  ParseArgv.parse_argv
    ["node"; "migres"; "commit"; "-m"; "migrations"; "__proto__"]%string
  = inr (ParseArgv.mkExported "commit" ParseArgv.js_true ParseArgv.js_true
           (ParseArgv.js_string "migrations") ParseArgv.js_true
           (Some ParseArgv.js_true)) /\
  (forall k : ParseArgv.key,
      ~ In (ParseArgv.key_name k) (["-m"; "migrations"]%string ++ [])%list ->
      ~ In (Settings.alias_of k) (["-m"; "migrations"]%string ++ [])%list ->
      Settings.field
        (ParseArgv.mkExported "commit" ParseArgv.js_true ParseArgv.js_true
           (ParseArgv.js_string "migrations") ParseArgv.js_true
           (Some ParseArgv.js_true)) k = ParseArgv.js_true /\
      Settings.field
        (ParseArgv.mkExported "commit" ParseArgv.js_true ParseArgv.js_true
           (ParseArgv.js_string "migrations") ParseArgv.js_true
           (Some ParseArgv.js_true)) k <> ParseArgv.default k).
Proof.
  split; [reflexivity|].
  exact (proj1 (proj2 (proj2
    (proto_argument_overrides_defaults "node" "migres" "commit"
       ["-m"; "migrations"]%string []
       (ParseArgv.set_value ParseArgv.migrations_key
          (ParseArgv.js_string "migrations") ParseArgv.initial)
       _ eq_refl eq_refl)))).
Defined.

(** X13. The name of a method of [Object.prototype] ([constructor],
    [toString], [valueOf], ...) where the name of an option is expected is
    accepted and has no effect: the result is the one of the command line
    without it. *)
Theorem prototype_names_ignored (node script c name : string)
    (pre rest : list string) (o1 : ParseArgv.options) :
  In name ParseArgv.prototype_functions ->
  ParseArgv.parse_loop ParseArgv.initial pre = inr o1 ->
  ParseArgv.parse_argv (node :: script :: c :: pre ++ name :: rest)
  = ParseArgv.parse_argv (node :: script :: c :: pre ++ rest).
Proof.
  intros Hn Ep. unfold ParseArgv.parse_argv.
  destruct (existsb (String.eqb c) ParseArgv.commands); [|reflexivity].
  rewrite !(parse_loop_app _ pre _ _ o1 (le_n _) Ep).
  cbn [ParseArgv.parse_loop].
  assert (ParseArgv.resolve_arg o1 name = ParseArgv.inherited_function)
    as ->; [|reflexivity].
  simpl in Hn.
  repeat (destruct Hn as [<-|Hn]; [reflexivity|]). destruct Hn.
Qed.

Lemma prototype_names_ignored_witness :
  ParseArgv.parse_argv
    ["node"; "migres"; "rollback"; "-a"; "constructor"; "-e"; "x.env"]%string
  = ParseArgv.parse_argv
      ["node"; "migres"; "rollback"; "-a"; "-e"; "x.env"]%string.
Proof.
  apply (prototype_names_ignored "node" "migres" "rollback" "constructor"
           ["-a"]%string ["-e"; "x.env"]%string
           (ParseArgv.set_value ParseArgv.all_key ParseArgv.js_true
              ParseArgv.initial)).
  - simpl. auto.
  - reflexivity.
Defined.


(** * Naming a new migration *)

Section CreateFacts.
Import Create.

Lemma width_from_ge (fuel : nat) :
  forall (k : nat) (n : Z), (k <= width_from fuel k n)%nat.
Proof.
  induction fuel as [|fuel IH]; intros k n; simpl; [lia|].
  destruct (n <? 10 ^ Z.of_nat k); [lia|].
  specialize (IH (S k) n). lia.
Qed.

Lemma width_positive (n : Z) : exists k, width n = S k.
Proof.
  pose proof (width_from_ge (Z.to_nat (Z.log2 n)) 1 n) as H.
  unfold width. destruct (width_from _ 1 n) as [|k]; [lia|]. now exists k.
Qed.

Lemma code_digit_char (d : Z) :
  0 <= d < 10 -> code (digit_char d) = 48 + d.
Proof.
  intros H. unfold code, digit_char.
  rewrite N_ascii_embedding by lia. lia.
Qed.

Lemma code_inj (a b : ascii) : code a = code b -> a = b.
Proof.
  unfold code. intros H. apply N2Z.inj in H.
  rewrite <- (ascii_N_embedding a), <- (ascii_N_embedding b). now rewrite H.
Qed.

(** The text of a number starts with a digit or a minus sign. *)
Lemma number_toString_head (n : Z) :
  exists (c : ascii) (rest : string),
    number_toString n = String c rest /\
    (code c = 45 \/ 48 <= code c <= 57).
Proof.
  unfold number_toString. destruct (n <? 0).
  - eexists _, _. split; [reflexivity|]. now left.
  - destruct (width_positive n) as [k ->]. cbn [fixed].
    eexists _, _. split; [reflexivity|]. right.
    rewrite code_digit_char by (apply Z.mod_pos_bound; lia).
    pose proof (Z.mod_pos_bound (n / 10 ^ Z.of_nat k) 10). lia.
Qed.

End CreateFacts.

(** X16. The name [create] gives a new migration never starts with a dot:
    a directory of that name is never filtered out of the catalog as a
    hidden entry. *)
Theorem created_name_in_catalog (now : Z) (answer : string)
    (listing : list string) :
  In (Create.migrationName now answer) listing ->
  In (Create.migrationName now answer) (dirNames_of listing).
Proof.
  intros Hin. unfold dirNames_of. apply filter_In. split; [exact Hin|].
  unfold not_hidden, Create.migrationName.
  destruct (number_toString_head now) as (c & rest & -> & Hc).
  cbn [append String.prefix].
  destruct (ascii_dec "."%char c) as [<-|N]; [|reflexivity].
  exfalso. vm_compute in Hc. destruct Hc as [E|[L _]];
    [discriminate E | now apply L].
Qed.

Lemma created_name_in_catalog_witness :
  In "1544000000000_add_users"%string
    (dirNames_of [".git"; "1544000000000_add_users"]%string).
Proof.
  apply (created_name_in_catalog 1544000000000 "add users"
           [".git"; "1544000000000_add_users"]%string).
  right. left. reflexivity.
Defined.

Section NoSpace.
Import Create JsCoerce.

Lemma underscore_spaces_cases (l : list ascii) :
  l = []
  \/ (exists r, underscore_spaces l = "_"%char :: underscore_spaces r /\
                (List.length r < List.length l)%nat)
  \/ (exists a r1, l = a :: r1 /\ kept_at l /\
                   underscore_spaces l = a :: underscore_spaces r1).
Proof.
  destruct l as [|a r1]; [now left|]. right. cbn [underscore_spaces].
  destruct (ws1 (code a)) eqn:W1.
  { left. exists r1. split; [reflexivity | simpl; lia]. }
  destruct r1 as [|b r2].
  { right. exists a, []. repeat split; auto. }
  destruct (ws2 (code a) (code b)) eqn:W2.
  { left. exists r2. split; [reflexivity | simpl; lia]. }
  destruct r2 as [|c r3].
  { right. exists a, [b]. repeat split; auto. }
  destruct (ws3 (code a) (code b) (code c)) eqn:W3.
  { left. exists r3. split; [reflexivity | simpl; lia]. }
  right. exists a, (b :: c :: r3). repeat split; auto.
Qed.

Lemma ws_underscore (a b : Z) :
  ws1 95 = false /\ ws2 95 a = false /\ ws2 a 95 = false /\
  ws3 95 a b = false /\ ws3 a 95 b = false /\ ws3 a b 95 = false.
Proof. unfold ws1, ws2, ws3. repeat split; lia. Qed.

Lemma no_space_underscore (l : list ascii) :
  no_space ("_"%char :: l) = no_space l.
Proof.
  cbn [no_space]. change (code "_"%char) with 95.
  destruct l as [|b [|c r]]; simpl;
    repeat match goal with
           | |- context [ws2 95 ?x] =>
               rewrite (proj1 (proj2 (ws_underscore x 0)))
           | |- context [ws3 95 ?x ?y] =>
               rewrite (proj1 (proj2 (proj2 (proj2 (ws_underscore x y)))))
           end; reflexivity.
Qed.

Lemma no_space_underscore_spaces (n : nat) :
  forall l, (List.length l <= n)%nat -> no_space (underscore_spaces l) = true.
Proof.
  induction n as [|n IH]; intros l Hlen.
  - destruct l; [reflexivity | simpl in Hlen; lia].
  - destruct (underscore_spaces_cases l)
      as [-> | [(r & -> & Hr) | (a & r1 & -> & K & ->)]];
      [reflexivity | | ].
    + rewrite no_space_underscore. apply IH. lia.
    + simpl in Hlen. destruct K as [W1 K].
      cbn [no_space]. rewrite W1, (IH r1) by lia.
      rewrite andb_true_r. cbn [negb andb].
      destruct (underscore_spaces_cases r1)
        as [-> | [(r & -> & Hr) | (b & r2 & -> & Kb & ->)]];
        [reflexivity | | ].
      * change (code "_"%char) with 95.
        rewrite (proj1 (proj2 (proj2 (ws_underscore (code a) 0)))).
        destruct (underscore_spaces r) as [|c ?]; [reflexivity|].
        now rewrite (proj1 (proj2 (proj2 (proj2 (proj2
                       (ws_underscore (code a) (code c))))))).
      * destruct K as [W2 K]. rewrite W2.
        destruct (underscore_spaces_cases r2)
          as [-> | [(r & -> & Hr) | (c & r3 & -> & Kc & ->)]];
          [reflexivity | | ].
        -- change (code "_"%char) with 95.
           now rewrite (proj2 (proj2 (proj2 (proj2 (proj2
                          (ws_underscore (code a) (code b))))))).
        -- now rewrite K.
Qed.

End NoSpace.

Section CreatedName.
Import Create JsCoerce.

Lemma no_space_plain (p l : list ascii) :
  Forall plain p -> no_space (p ++ l) = no_space l.
Proof.
  induction 1 as [|a p [W L] F IH]; [reflexivity|].
  cbn [app no_space]. rewrite W, IH. cbn [negb andb].
  assert (forall b, ws2 (code a) b = false) as W2
    by (intros b; unfold ws2; lia).
  assert (forall b c, ws3 (code a) b c = false) as W3
    by (intros b c; unfold ws3; lia).
  destruct (p ++ l) as [|b [|c r]]; rewrite ?W2, ?W3; reflexivity.
Qed.

Lemma list_ascii_of_string_append (a b : string) :
  list_ascii_of_string (a ++ b)
  = list_ascii_of_string a ++ list_ascii_of_string b.
Proof. induction a as [|x a IH]; simpl; [reflexivity | now rewrite IH]. Qed.

Lemma digit_char_plain (d : Z) : 0 <= d < 10 -> plain (digit_char d).
Proof.
  intros H. unfold plain. rewrite code_digit_char by exact H.
  unfold ws1. lia.
Qed.

Lemma fixed_plain (k : nat) (n : Z) :
  Forall plain (list_ascii_of_string (fixed k n)).
Proof.
  induction k as [|k IH]; simpl; constructor; [|exact IH].
  apply digit_char_plain. apply Z.mod_pos_bound. lia.
Qed.

Lemma number_toString_plain (n : Z) :
  Forall plain (list_ascii_of_string (number_toString n)).
Proof.
  unfold number_toString. destruct (n <? 0).
  - simpl. constructor; [|apply fixed_plain].
    split; [reflexivity | reflexivity].
  - apply fixed_plain.
Qed.

Lemma no_space_sanitise (x : string) :
  no_space (list_ascii_of_string (or_new_migration (sanitise x))) = true.
Proof.
  unfold or_new_migration.
  destruct (sanitise x =? "")%string; [reflexivity|].
  unfold sanitise. rewrite list_ascii_of_string_of_list_ascii.
  exact (no_space_underscore_spaces _ _ (le_n _)).
Qed.

End CreatedName.

(** X17. The name [create] gives a new migration holds no white space at
    all (no space, tab, line break, or white space beyond ASCII), whatever
    was answered at the prompt. *)
Theorem created_name_has_no_space (now : Z) (answer : string) :
  Create.no_space (list_ascii_of_string (Create.migrationName now answer))
  = true.
Proof.
  unfold Create.migrationName.
  rewrite !list_ascii_of_string_append.
  rewrite (no_space_plain _ _ (number_toString_plain now)).
  change (list_ascii_of_string "_") with ["_"%char].
  cbn [app]. rewrite no_space_underscore.
  apply no_space_sanitise.
Qed.

(** ** Names in the order of creation *)

Section Chronology.
Import Create.

Lemma width_from_exact (fuel : nat) :
  forall (j k : nat) (n : Z),
    (1 <= j <= k)%nat ->
    (k - j <= fuel)%nat ->
    10 ^ Z.of_nat (k - 1) <= n < 10 ^ Z.of_nat k ->
    (j = k \/ 10 ^ Z.of_nat j <= n) ->
    width_from fuel j n = k.
Proof.
  induction fuel as [|fuel IH]; intros j k n Hj Hf Hn Hlow; simpl.
  - lia.
  - destruct (Z.ltb_spec n (10 ^ Z.of_nat j)) as [L|G].
    + destruct Hlow as [E|Hlow]; [exact E | lia].
    + assert (j < k)%nat as Hjk.
      { destruct (Nat.lt_ge_cases j k) as [H|H]; [exact H|].
        assert (10 ^ Z.of_nat k <= 10 ^ Z.of_nat j)
          by (apply Z.pow_le_mono_r; lia).
        lia. }
      apply IH; try lia.
      destruct (Nat.eq_dec (S j) k) as [E|N]; [now left|]. right.
      assert (10 ^ Z.of_nat (S j) <= 10 ^ Z.of_nat (k - 1))
        by (apply Z.pow_le_mono_r; lia).
      lia.
Qed.

Lemma width_exact (k : nat) (n : Z) :
  10 ^ Z.of_nat k <= n < 10 ^ Z.of_nat (S k) -> width n = S k.
Proof.
  intros Hn. unfold width.
  assert (0 < 10 ^ Z.of_nat k) as Hp by (apply Z.pow_pos_nonneg; lia).
  apply width_from_exact.
  - lia.
  - assert (2 ^ Z.of_nat k <= 10 ^ Z.of_nat k)
      by (apply Z.pow_le_mono_l; lia).
    assert (Z.of_nat k <= Z.log2 n) by (apply Z.log2_le_pow2; lia).
    lia.
  - replace (S k - 1)%nat with k by lia. exact Hn.
  - destruct k as [|k]; [now left|]. right.
    assert (10 ^ Z.of_nat 1 <= 10 ^ Z.of_nat (S k))
      by (apply Z.pow_le_mono_r; lia).
    lia.
Qed.

Lemma compare_digit_char (a b : Z) :
  0 <= a < 10 -> 0 <= b < 10 ->
  Ascii.compare (digit_char a) (digit_char b) = (a ?= b).
Proof.
  intros Ha Hb. unfold Ascii.compare, digit_char.
  rewrite !N_ascii_embedding by lia.
  rewrite Z2N.inj_compare by lia.
  apply Z.add_compare_mono_l.
Qed.

(** Texts of the same width compare as the numbers do, whatever
    follows. *)
Lemma fixed_lt (k : nat) :
  forall (a b : Z) (s s' : string),
    a mod 10 ^ Z.of_nat k < b mod 10 ^ Z.of_nat k ->
    String.compare (fixed k a ++ s) (fixed k b ++ s') = Lt.
Proof.
  induction k as [|k IH]; intros a b s s' H.
  - simpl in H. rewrite !Z.mod_1_r in H. lia.
  - cbn [fixed append String.compare].
    assert (0 < 10 ^ Z.of_nat k) as Hp by (apply Z.pow_pos_nonneg; lia).
    rewrite Nat2Z.inj_succ, Z.pow_succ_r in H by lia.
    rewrite (Z.mul_comm 10), !Z.rem_mul_r in H by lia.
    pose proof (Z.mod_pos_bound a (10 ^ Z.of_nat k) Hp) as Ba.
    pose proof (Z.mod_pos_bound b (10 ^ Z.of_nat k) Hp) as Bb.
    pose proof (Z.mod_pos_bound (a / 10 ^ Z.of_nat k) 10) as Da.
    pose proof (Z.mod_pos_bound (b / 10 ^ Z.of_nat k) 10) as Db.
    rewrite compare_digit_char by lia.
    destruct (Z.compare_spec ((a / 10 ^ Z.of_nat k) mod 10)
                ((b / 10 ^ Z.of_nat k) mod 10)) as [E|L|G].
    + apply IH. rewrite E in H. lia.
    + reflexivity.
    + exfalso. nia.
Qed.

End Chronology.

(** X18. Names in the order of creation: of two migrations created at
    times whose texts have the same number of digits, the one created
    first has the name that sorts first, whatever was answered at the
    prompts. *)
Theorem created_names_sort_by_time (k : nat) (t1 t2 : Z)
    (answer1 answer2 : string) :
  10 ^ Z.of_nat k <= t1 ->
  t1 < t2 ->
  t2 < 10 ^ Z.of_nat (S k) ->
  String.ltb (Create.migrationName t1 answer1)
    (Create.migrationName t2 answer2) = true.
Proof.
  intros H1 H12 H2. unfold String.ltb, Create.migrationName,
    Create.number_toString.
  assert (0 < 10 ^ Z.of_nat k) as Hp by (apply Z.pow_pos_nonneg; lia).
  destruct (Z.ltb_spec t1 0); [lia|]. destruct (Z.ltb_spec t2 0); [lia|].
  rewrite (width_exact k t1), (width_exact k t2) by lia.
  rewrite fixed_lt; [reflexivity|].
  rewrite !Z.mod_small by lia. exact H12.
Qed.

Lemma created_names_sort_by_time_witness :
  String.ltb "1544000000000_zebra" "1544000000001_apple" = true.
Proof.
  apply (created_names_sort_by_time 12 1544000000000 1544000000001
           "zebra" "apple"); vm_compute; congruence.
Defined.


(** ** Names that are not numbers *)

Section Foreign.
Import JsCoerce.

Variable c : Z.
Hypothesis c_foreign : foreign c = true.

Lemma foreign_facts :
  0 <= c < 128 /\ ws1 c = false /\
  ~ (48 <= c <= 57) /\ ~ (65 <= c <= 90) /\ ~ (97 <= c <= 122) /\
  c <> 43 /\ c <> 45 /\ c <> 46.
Proof.
  pose proof c_foreign as H. unfold foreign in H.
  destruct (ws1 c); [rewrite !andb_false_r in H; discriminate H|].
  repeat split; lia.
Qed.

Lemma digit_value_foreign (radix : Z) : digit_value radix c = None.
Proof.
  destruct foreign_facts as (_ & _ & D & U & L & _).
  unfold digit_value.
  destruct ((48 <=? c) && (c <=? 57)) eqn:E1; [lia|].
  destruct ((97 <=? c) && (c <=? 102)) eqn:E2; [lia|].
  destruct ((65 <=? c) && (c <=? 70)) eqn:E3; [lia|].
  destruct (Z.ltb_spec radix radix); [lia | reflexivity].
Qed.

Lemma read_digits_keeps_foreign (radix : Z) (l : list Z) :
  forall acc count v n rest,
    In c l ->
    read_digits radix l acc count = (v, n, rest) ->
    In c rest.
Proof.
  induction l as [|x l IH]; intros acc count v n rest Hin E.
  - destruct Hin.
  - simpl in E. destruct (digit_value radix x) eqn:D.
    + destruct Hin as [-> | Hin].
      * rewrite digit_value_foreign in D. discriminate D.
      * exact (IH _ _ _ _ _ Hin E).
    + injection E as _ _ <-. exact Hin.
Qed.

Lemma is_nil_foreign (l : list Z) : In c l -> is_nil l = false.
Proof. destruct l; [intros [] | reflexivity]. Qed.

Lemma parse_exponent_foreign (l : list Z) :
  In c l -> parse_exponent l = None.
Proof.
  destruct foreign_facts as (_ & _ & _ & U & L & P & M & _).
  intros Hin. destruct l as [|x r]; [destruct Hin|]. simpl.
  destruct ((x =? 101) || (x =? 69)) eqn:Ex; [|reflexivity].
  assert (x <> c) as Nx by lia.
  destruct Hin as [->|Hin]; [congruence|].
  assert (exists neg ds,
             (match r with
              | [] => (false, r)
              | s :: r' =>
                  if s =? 43 then (false, r')
                  else if s =? 45 then (true, r') else (false, r)
              end) = (neg, ds) /\ In c ds) as (neg & ds & -> & Hds).
  { destruct r as [|s r']; [destruct Hin|].
    destruct (Z.eqb_spec s 43) as [->|N1].
    - exists false, r'. split; [reflexivity|].
      destruct Hin as [E|Hin]; [congruence | exact Hin].
    - destruct (Z.eqb_spec s 45) as [->|N2].
      + exists true, r'. split; [reflexivity|].
        destruct Hin as [E|Hin]; [congruence | exact Hin].
      + exists false, (s :: r'). split; [reflexivity | exact Hin]. }
  destruct (read_digits 10 ds 0 0) as [[v n] rest] eqn:R.
  rewrite (is_nil_foreign rest
             (read_digits_keeps_foreign _ _ _ _ _ _ _ Hds R)).
  now rewrite andb_false_r.
Qed.

Lemma parse_unsigned_foreign (negative : bool) (l : list Z) :
  In c l -> parse_unsigned negative l = NaN.
Proof.
  destruct foreign_facts as (_ & _ & _ & U & L & _ & _ & Dot).
  intros Hin. unfold parse_unsigned.
  destruct (list_eq_dec Z.eq_dec l (codes "Infinity")) as [->|_].
  { exfalso. vm_compute in Hin. lia. }
  destruct (read_digits 10 l 0 0) as [[ip n1] r1] eqn:R1.
  pose proof (read_digits_keeps_foreign _ _ _ _ _ _ _ Hin R1) as H1.
  assert (parse_exponent r1 = None) as P1 by now apply parse_exponent_foreign.
  destruct r1 as [|x r2]; [destruct H1|].
  destruct (Z.eq_dec x 46) as [->|Nx].
  - destruct H1 as [E|H2]; [congruence|].
    destruct (read_digits 10 r2 ip 0) as [[m n2] r3] eqn:R2.
    pose proof (read_digits_keeps_foreign _ _ _ _ _ _ _ H2 R2) as H3.
    rewrite (parse_exponent_foreign r3 H3).
    now destruct ((0 <? n1) || (0 <? n2)).
  - rewrite P1.
    destruct x as [|p|p]; try (now destruct (0 <? n1)).
    do 6 (destruct p as [p|p|]; try (now destruct (0 <? n1))).
Qed.

Lemma parse_decimal_foreign (l : list Z) :
  In c l -> parse_decimal l = NaN.
Proof.
  destruct foreign_facts as (_ & _ & _ & _ & _ & P & M & _).
  intros Hin. unfold parse_decimal.
  destruct l as [|x r]; [destruct Hin|].
  destruct (Z.eq_dec x 43) as [->|N1].
  { destruct Hin as [E|Hin]; [congruence|].
    now apply parse_unsigned_foreign. }
  destruct (Z.eq_dec x 45) as [->|N2].
  { destruct Hin as [E|Hin]; [congruence|].
    now apply parse_unsigned_foreign. }
  destruct x as [|y|y]; try (now apply parse_unsigned_foreign).
  do 6 (destruct y as [y|y|]; try (now apply parse_unsigned_foreign));
    try congruence.
Qed.

Lemma prefix_radix_foreign : prefix_radix c = None.
Proof.
  destruct foreign_facts as (_ & _ & _ & U & L & _).
  unfold prefix_radix.
  destruct ((c =? 120) || (c =? 88)) eqn:E1; [lia|].
  destruct ((c =? 111) || (c =? 79)) eqn:E2; [lia|].
  destruct ((c =? 98) || (c =? 66)) eqn:E3; [lia|]. reflexivity.
Qed.

Lemma parse_numeric_foreign (l : list Z) :
  In c l -> parse_numeric l = NaN.
Proof.
  destruct foreign_facts as (_ & _ & D & _).
  intros Hin. unfold parse_numeric.
  destruct l as [|x r]; [destruct Hin|].
  destruct (Z.eq_dec x 48) as [->|Nx].
  - destruct r as [|p ds]; [now apply parse_decimal_foreign|].
    destruct (prefix_radix p) as [radix|] eqn:Ep;
      [|now apply parse_decimal_foreign].
    destruct Hin as [E|[->|Hin]];
      [lia | rewrite prefix_radix_foreign in Ep; discriminate Ep |].
    destruct (read_digits radix ds 0 0) as [[v n] rest] eqn:R.
    rewrite (is_nil_foreign rest
               (read_digits_keeps_foreign _ _ _ _ _ _ _ Hin R)).
    now rewrite andb_false_r.
  - destruct x as [|y|y]; try (now apply parse_decimal_foreign).
    do 6 (destruct y as [y|y|]; try (now apply parse_decimal_foreign));
      try congruence.
Qed.

Lemma trim_start_keeps_foreign (backwards : bool) (n : nat) :
  forall l, (List.length l <= n)%nat ->
            In c l -> In c (trim_start backwards l).
Proof.
  destruct foreign_facts as (R & W & _).
  induction n as [|n IH]; intros l Hlen Hin.
  - destruct l; [destruct Hin | simpl in Hlen; lia].
  - destruct l as [|a r1]; [destruct Hin|]. simpl in Hlen.
    cbn [trim_start].
    destruct (ws1 a) eqn:W1.
    { apply IH; [lia|]. destruct Hin as [->|Hin]; [congruence|exact Hin]. }
    destruct r1 as [|b r2]; [exact Hin|]. simpl in Hlen.
    destruct (if backwards then ws2 b a else ws2 a b) eqn:W2.
    { apply IH; [lia|].
      assert (a <> c /\ b <> c) as [Na Nb]
        by (destruct backwards; unfold ws2 in W2; lia).
      destruct Hin as [E|[E|Hin]]; [congruence | congruence | exact Hin]. }
    destruct r2 as [|d r3]; [exact Hin|]. simpl in Hlen.
    destruct (if backwards then ws3 d b a else ws3 a b d) eqn:W3;
      [|exact Hin].
    apply IH; [lia|].
    assert (a <> c /\ b <> c /\ d <> c) as (Na & Nb & Nd)
      by (destruct backwards; unfold ws3 in W3; lia).
    destruct Hin as [E|[E|[E|Hin]]]; congruence || exact Hin.
Qed.

(** A text that holds such a character is not a number. *)
Lemma StringToNumber_foreign (s : string) :
  In c (codes s) -> StringToNumber s = NaN.
Proof.
  intros Hin.
  assert (In c (trim (codes s))) as Ht.
  { unfold trim. apply in_rev. rewrite rev_involutive.
    apply (trim_start_keeps_foreign true _ _ (le_n _)).
    apply in_rev. rewrite rev_involutive.
    now apply (trim_start_keeps_foreign false _ _ (le_n _)). }
  unfold StringToNumber.
  destruct (trim (codes s)) as [|x l] eqn:E; [destruct Ht|].
  now apply parse_numeric_foreign.
Qed.

End Foreign.

Lemma created_name_has_underscore (now : Z) (answer : string) :
  In 95 (JsCoerce.codes (Create.migrationName now answer)).
Proof.
  unfold Create.migrationName. rewrite !codes_append.
  apply in_or_app. right. apply in_or_app. left. now left.
Qed.

Lemma foreign_name_not_lt_one (d : string) (c : Z) :
  foreign c = true -> In c (JsCoerce.codes d) ->
  JsCoerce.lt_one (JsCoerce.StringToNumber d) = false.
Proof.
  intros Hc Hin. now rewrite (StringToNumber_foreign c Hc d Hin).
Qed.

(** X19. In a catalog whose directories were all named by [create], the
    misfire of the test [subset < 1] cannot happen: an operation is
    stopped as a no-op exactly when its subset is empty. *)
Theorem created_catalog_noop_exact (C : list string) (c : command) (k : Z) :
  (forall d, In d C ->
             exists now answer, d = Create.migrationName now answer) ->
  JsCoerce.array_lt_one (subset c C k) = true <-> subset c C k = [].
Proof.
  intros Hc. split.
  - intros H. apply noop_test_exact in H as [E|(d & E & L)]; [exact E|].
    exfalso.
    assert (In d C) as Hd
      by (apply (subset_incl c C k); rewrite E; now left).
    destruct (Hc d Hd) as (now & answer & ->).
    rewrite (foreign_name_not_lt_one _ 95 eq_refl
               (created_name_has_underscore now answer)) in L.
    discriminate L.
  - intros ->. reflexivity.
Qed.

Lemma created_catalog_noop_exact_witness :
  JsCoerce.array_lt_one
    (subset Rollback ["0_init"; "1_users"]%string 0) = true
  <-> subset Rollback ["0_init"; "1_users"]%string 0 = [].
Proof.
  apply (created_catalog_noop_exact ["0_init"; "1_users"]%string Rollback 0).
  intros d [<-|[<-|[]]].
  - exists 0, "init"%string. reflexivity.
  - exists 1, "users"%string. reflexivity.
Defined.

(** X20. The two files [create] writes are told apart by the operation
    when the listing of the directory is in ascending order: a commit
    takes the file ending in [_commit.sql] and a rollback the file ending
    in [_rollback.sql]. *)
Theorem created_files_picked (migrationName : string) (files : list string)
    (c : command) :
  Permutation files
    [commit_file migrationName; rollback_file migrationName] ->
  Sorted name_le files ->
  pick_script c files
  = Some (if is_commit c then commit_file migrationName
          else rollback_file migrationName).
Proof.
  intros P S.
  assert (files = [commit_file migrationName; rollback_file migrationName])
    as ->; [|now destruct c].
  apply Permutation_sym, Permutation_length_2_inv in P as [->| ->];
    [reflexivity|].
  exfalso.
  apply Sorted_inv in S as [_ Hd]. apply HdRel_inv in Hd.
  pose proof (commit_before_rollback migrationName) as L.
  unfold name_le, String.leb in Hd. unfold String.ltb in L.
  rewrite String.compare_antisym in Hd.
  destruct (String.compare (commit_file migrationName)
              (rollback_file migrationName)); discriminate.
Qed.

Lemma created_files_picked_witness :
  pick_script Rollback
    ["7_x_commit.sql"; "7_x_rollback.sql"]%string
  = Some "7_x_rollback.sql"%string.
Proof.
  apply (created_files_picked "7_x"
           ["7_x_commit.sql"; "7_x_rollback.sql"]%string Rollback).
  - apply Permutation_refl.
  - repeat constructor.
Defined.

(** ** Reasons for a failed connection *)

Lemma filter_nil_iff {A} (f : A -> bool) (l : list A) :
  filter f l = [] <-> forall x, In x l -> f x = false.
Proof.
  induction l as [|a l IH]; simpl.
  - split; [intros _ x [] | reflexivity].
  - destruct (f a) eqn:E.
    + split; [discriminate|]. intros H. specialize (H a (or_introl eq_refl)).
      congruence.
    + rewrite IH. split.
      * intros H x [<-|Hx]; auto.
      * intros H x Hx. apply H. now right.
Qed.

(** X21. [verifyEnv] gives no reason exactly when each of the five
    connection variables is set to a non-empty text and the env file
    exists; it never gives more than two reasons. *)
Theorem verifyEnv_reasons (process_env : string -> option string)
    (existsSync : string -> bool) (pathToEnv : string) :
  (verifyEnv process_env existsSync pathToEnv = [] <->
   (forall v, In v pgVars ->
              exists text, process_env v = Some text /\ text <> ""%string)
   /\ existsSync pathToEnv = true)
  /\ (List.length (verifyEnv process_env existsSync pathToEnv) <= 2)%nat.
Proof.
  unfold verifyEnv.
  set (missing := filter (not_present process_env) pgVars).
  assert (missing = [] <->
          forall v, In v pgVars ->
                    exists text, process_env v = Some text /\ text <> ""%string)
    as Hm.
  { unfold missing. rewrite filter_nil_iff. unfold not_present.
    split; intros H v Hv; specialize (H v Hv).
    - destruct (process_env v) as [text|]; [|discriminate H].
      exists text. split; [reflexivity|]. now apply String.eqb_neq.
    - destruct H as (text & -> & N). now apply String.eqb_neq. }
  split.
  - rewrite <- Hm. unfold JsArray.len.
    destruct missing as [|m ms]; destruct (existsSync pathToEnv); simpl;
      split; try discriminate; try tauto; intros [? ?]; discriminate.
  - destruct (0 <? JsArray.len missing), (existsSync pathToEnv); simpl; lia.
Qed.

Lemma verifyEnv_reasons_witness :
  verifyEnv
    (fun v => if existsb (String.eqb v) pgVars then Some "x"%string else None)
    (fun _ => true) ".env" = [].
Proof.
  apply (proj1 (verifyEnv_reasons
                  (fun v => if existsb (String.eqb v) pgVars
                            then Some "x"%string else None)
                  (fun _ => true) ".env")).
  split; [|reflexivity].
  intros v Hv. exists "x"%string. split; [|discriminate].
  simpl in Hv. repeat (destruct Hv as [<-|Hv]; [reflexivity|]). destruct Hv.
Defined.

(** ** Command lines that are rejected *)

(** X14. Where the name of an option is expected, an argument that is
    neither an option, nor an alias, nor a name found on
    [Object.prototype] is rejected, and the error (whose text reads
    [Argument undefined is invalid]) does not say which argument it
    was. *)
Theorem unknown_argument_rejected (node script c arg : string)
    (pre rest : list string) (o1 : ParseArgv.options) :
  In c ParseArgv.commands ->
  ParseArgv.parse_loop ParseArgv.initial pre = inr o1 ->
  ParseArgv.own_option arg = None ->
  ParseArgv.aliases arg = None ->
  arg <> "__proto__"%string ->
  ~ In arg ParseArgv.prototype_functions ->
  arg <> "value"%string ->
  ParseArgv.parse_argv (node :: script :: c :: pre ++ arg :: rest)
  = inl ParseArgv.invalid_argument.
Proof.
  intros Hc Ep Ho Ha Hp Hf Hv. unfold ParseArgv.parse_argv.
  assert (existsb (String.eqb c) ParseArgv.commands = true) as ->.
  { apply existsb_exists. exists c. split; [exact Hc|].
    apply String.eqb_refl. }
  rewrite (parse_loop_app _ pre _ _ o1 (le_n _) Ep).
  cbn [ParseArgv.parse_loop].
  assert (ParseArgv.resolve_arg o1 arg = ParseArgv.undefined) as ->;
    [|reflexivity].
  unfold ParseArgv.resolve_arg, ParseArgv.lookup. rewrite Ho, Ha.
  apply String.eqb_neq in Hp, Hv. rewrite Hp, Hv, andb_false_r.
  destruct (existsb (String.eqb arg) ParseArgv.prototype_functions) eqn:E;
    [|reflexivity].
  exfalso. apply Hf. apply existsb_exists in E as (x & Hx & Ex).
  apply String.eqb_eq in Ex. now subst x.
Qed.

Lemma unknown_argument_rejected_witness :
  ParseArgv.parse_argv
    ["node"; "migres"; "commit"; "-a"; "--verbose"; "-m"; "x"]%string
  = inl ParseArgv.invalid_argument.
Proof.
  apply (unknown_argument_rejected "node" "migres" "commit" "--verbose"
           ["-a"]%string ["-m"; "x"]%string
           (ParseArgv.set_value ParseArgv.all_key ParseArgv.js_true
              ParseArgv.initial));
    try reflexivity; try discriminate.
  - simpl. auto.
  - simpl. intuition discriminate.
Defined.

(** X15. An option that takes a value is rejected when nothing follows it,
    when an empty text follows it, and when the text that follows fails
    the test of the option; the error names the option by its long form
    also when the alias was given. *)
Theorem value_option_errors (node script c : string)
    (pre rest : list string) (o1 : ParseArgv.options)
    (s : Settings.setting) (r : ParseArgv.regex) :
  In c ParseArgv.commands ->
  ParseArgv.parse_loop ParseArgv.initial pre = inr o1 ->
  ParseArgv.expect (Settings.setting_key s) = Some r ->
  let name :=
    if Settings.by_alias s then Settings.alias_of (Settings.setting_key s)
    else ParseArgv.key_name (Settings.setting_key s) in
  let long := ParseArgv.key_name (Settings.setting_key s) in
  ParseArgv.parse_argv (node :: script :: c :: pre ++ [name])
  = inl (ParseArgv.no_value long) /\
  ParseArgv.parse_argv (node :: script :: c :: pre ++ name :: ""%string :: rest)
  = inl (ParseArgv.no_value long) /\
  (ParseArgv.test r (Settings.setting_value s) = false ->
   Settings.setting_value s <> ""%string ->
   ParseArgv.parse_argv
     (node :: script :: c :: pre ++ name :: Settings.setting_value s :: rest)
   = inl (ParseArgv.invalid_value long (Settings.setting_value s) r)).
Proof.
  intros Hc Ep Er name long. unfold ParseArgv.parse_argv.
  assert (existsb (String.eqb c) ParseArgv.commands = true) as ->.
  { apply existsb_exists. exists c. split; [exact Hc|].
    apply String.eqb_refl. }
  rewrite !(parse_loop_app _ pre _ _ o1 (le_n _) Ep).
  cbn [ParseArgv.parse_loop]. unfold name.
  rewrite (resolve_arg_rendered o1 s), Er.
  repeat split.
  intros Ht Hv. apply String.eqb_neq in Hv. now rewrite Hv, Ht.
Qed.

Lemma value_option_errors_witness :
  ParseArgv.parse_argv ["node"; "migres"; "commit"; "-m"]%string
  = inl (ParseArgv.no_value "--migrations") /\
  ParseArgv.parse_argv ["node"; "migres"; "commit"; "-m"; "a*b"]%string
  = inl (ParseArgv.invalid_value "--migrations" "a*b" ParseArgv.filenameRgx).
Proof.
  destruct (value_option_errors "node" "migres" "commit" [] []
              ParseArgv.initial
              (Settings.mkSetting ParseArgv.migrations_key true "a*b")
              ParseArgv.filenameRgx
              (or_intror (or_introl eq_refl)) eq_refl eq_refl)
    as (E1 & _ & E3).
  split; [exact E1|]. apply E3; [reflexivity | discriminate].
Defined.

(** * The earlier version of the operation *)

Section LegacyFacts.
Context {data : Type}.
Variable pg : server data.
Variable format_error : string -> string.
Variable env : environment.
Variable existsSync : string -> bool.
Variable pathToMigrations prompt cmd : string.
Variable w : world data.
Variable listing : list string.

Hypothesis exists_dir : existsSync pathToMigrations = true.
Hypothesis listed : readdirSync env pathToMigrations = inr listing.
Hypothesis idle : working w = None.

Ltac legacy_steps :=
  repeat progress
    (unfold Legacy.commitOrRollback, try_finally, try_catch, bind, print,
       pg_bootstrap, pg_select_cursor, send, process_exit, await, ret, throw;
     cbn [durable sent console working negb fst snd app];
     rewrite <- ?app_assoc;
     rewrite ?idle).

Ltac legacy_start :=
  legacy_steps; rewrite exists_dir; legacy_steps; rewrite listed;
  legacy_steps;
  let rows := fresh "rows" in
  let Er := fresh "Er" in
  destruct (bootstrap_store_rows (durable w)) as [rows Er];
  unfold cursor_of in *; rewrite Er in *; legacy_steps.

Lemma legacy_noop :
  JsCoerce.array_lt_one
    (subset (Legacy.direction cmd) (dirNames_of listing) (cursor_of w))
  = true ->
  let result :=
    Legacy.commitOrRollback pg format_error env existsSync
      pathToMigrations prompt cmd w in
  fst result = Exited 0 /\
  durable (snd result) = bootstrap_store (durable w) /\
  working (snd result) = None /\
  sent (snd result) = sent w ++ [BOOTSTRAP; SELECT_CURSOR].
Proof.
  intros T result. unfold result. legacy_start. rewrite T. legacy_steps.
  repeat split.
Qed.

Hypothesis nonempty :
  JsCoerce.array_lt_one
    (subset (Legacy.direction cmd) (dirNames_of listing) (cursor_of w))
  = false.

(** A failure before BEGIN: ROLLBACK is sent all the same, and the exit
    status is 0. *)
Lemma legacy_cancelled (e : string) :
  spawnSelection env
    (subset (Legacy.direction cmd) (dirNames_of listing) (cursor_of w))
  = inl e ->
  let result :=
    Legacy.commitOrRollback pg format_error env existsSync
      pathToMigrations prompt cmd w in
  fst result = Exited 0 /\
  durable (snd result) = bootstrap_store (durable w) /\
  sent (snd result) = sent w ++ [BOOTSTRAP; SELECT_CURSOR; ROLLBACK].
Proof.
  intros Hs result. unfold result. pose proof nonempty as T.
  legacy_start. rewrite T. legacy_steps. rewrite Hs. legacy_steps.
  transact_cases idle; repeat split.
Qed.

Variable s : Z.
Hypothesis chosen :
  spawnSelection env
    (subset (Legacy.direction cmd) (dirNames_of listing) (cursor_of w))
  = inr s.

Lemma legacy_unreadable (e : string) :
  (forall w' : world data,
      read_sql env (Legacy.direction cmd)
        (map (resolve pathToMigrations)
           (selected
              (subset (Legacy.direction cmd) (dirNames_of listing)
                 (cursor_of w)) s))
        w' = (Thrown e, w')) ->
  let result :=
    Legacy.commitOrRollback pg format_error env existsSync
      pathToMigrations prompt cmd w in
  fst result = Exited 0 /\
  durable (snd result) = bootstrap_store (durable w) /\
  sent (snd result) = sent w ++ [BOOTSTRAP; SELECT_CURSOR; ROLLBACK].
Proof.
  intros Hr result. unfold result. pose proof nonempty as T.
  pose proof chosen as Hs.
  legacy_start. rewrite T. legacy_steps. rewrite Hs. legacy_steps.
  rewrite Hr. legacy_steps.
  transact_cases idle; repeat split.
Qed.

Variable texts : list string.
Hypothesis readable :
  Forall2 (script_text env (Legacy.direction cmd))
    (map (resolve pathToMigrations)
       (selected
          (subset (Legacy.direction cmd) (dirNames_of listing) (cursor_of w))
          s))
    texts.

(** With the scripts read, the earlier version sends the statements the
    present one sends, and ROLLBACK after a failure. *)
Lemma legacy_transaction :
  exists (final : world data) (tail : list pg_command),
    Legacy.commitOrRollback pg format_error env existsSync
      pathToMigrations prompt cmd w
    = (Exited 0, final) /\
    sent final = sent w ++ BOOTSTRAP :: SELECT_CURSOR :: BEGIN :: tail /\
    (last (BEGIN :: tail) BOOTSTRAP = ROLLBACK
     \/ (last (BEGIN :: tail) BOOTSTRAP = COMMIT /\
         refused pg (sent final) = None)) /\
    ((forall script, exists t r,
         sql_exec pg script (begun (bootstrap_store (durable w)))
         = ((bootstrap_store (durable w), Some t), r)) ->
     durable final = bootstrap_store (durable w)
     \/ last (BEGIN :: tail) BOOTSTRAP = COMMIT).
Proof.
  pose proof nonempty as T. pose proof chosen as Hs.
  pose proof readable as Hr.
  legacy_start. rewrite T. legacy_steps. rewrite Hs. legacy_steps.
  rewrite (read_sql_ok env _ _ texts _ Hr). legacy_steps.
  transact_cases idle;
    (eexists _, _; split; [reflexivity|];
     split; [cbn [sent]; reflexivity|];
     cbn [sent working durable last]; split;
     [ first [ left; reflexivity
             | right; split; [reflexivity | assumption] ]
     | intros K;
       first [ left; reflexivity | right; reflexivity
             | destruct (K (sql_of texts)) as (t' & r' & K');
               match goal with
               | E : sql_exec pg (sql_of texts) _ = _ |- _ =>
                   rewrite K' in E;
                   first [ discriminate E
                         | injection E as E1 E2 E3; left; congruence ]
               end ] ]).
Qed.

(** The present version, entering the transaction in the same session,
    leaves the same committed database. *)
Lemma legacy_as_transact (dirNames : list string) (w2 : world data) :
  durable w2 = bootstrap_store (durable w) ->
  working w2 = None ->
  sent w2 = sent w ++ [BOOTSTRAP; SELECT_CURSOR] ->
  let n :=
    newCursor (Legacy.direction cmd) (dirNames_of listing)
      (subset (Legacy.direction cmd) (dirNames_of listing) (cursor_of w)) s in
  let present :=
    transact pg (Legacy.direction cmd) dirNames (sql_of texts) n w2 in
  durable
    (snd (Legacy.commitOrRollback pg format_error env existsSync
            pathToMigrations prompt cmd w))
  = durable (snd present) /\
  (fst present = Exited 0 \/ fst present = Exited 1).
Proof.
  intros Ed Ew Es n present. unfold present, n.
  pose proof nonempty as T. pose proof chosen as Hs.
  pose proof readable as Hr.
  legacy_start. rewrite T. legacy_steps. rewrite Hs. legacy_steps.
  rewrite (read_sql_ok env _ _ texts _ Hr). legacy_steps.
  run_transact Ew. rewrite ?Ed, ?Es. run_transact idle.
  transact_cases idle; rewrite ?Ed, ?Es; transact_cases idle;
    split; auto.
Qed.

End LegacyFacts.

Lemma direction_cmd_name (c : command) : Legacy.direction (cmd_name c) = c.
Proof. now destruct c. Qed.

(** X22. Once the directory is listed, the earlier version always exits
    with status 0: on a no-op, when it goes through, and also when the
    selection is cancelled, a script cannot be read or a statement of the
    transaction fails.  In those cases it sends ROLLBACK last, even when
    no BEGIN was sent.  When the scripts leave the committed database and
    the open transaction alone, the committed database is the
    bootstrapped one unless the run ended on COMMIT. *)
Theorem legacy_always_exits_zero {data : Type} (pg : server data)
    (format_error : string -> string) (env : environment)
    (existsSync : string -> bool) (pathToMigrations prompt cmd : string)
    (w : world data) (listing : list string) :
  existsSync pathToMigrations = true ->
  readdirSync env pathToMigrations = inr listing ->
  working w = None ->
  let sub :=
    subset (Legacy.direction cmd) (dirNames_of listing) (cursor_of w) in
  let result :=
    Legacy.commitOrRollback pg format_error env existsSync
      pathToMigrations prompt cmd w in
  fst result = Exited 0 /\
  exists tail : list pg_command,
    sent (snd result) = sent w ++ BOOTSTRAP :: SELECT_CURSOR :: tail /\
    (if JsCoerce.array_lt_one sub then tail = []
     else last tail BOOTSTRAP = ROLLBACK
          \/ (last tail BOOTSTRAP = COMMIT /\
              refused pg (sent (snd result)) = None)) /\
    (JsCoerce.array_lt_one sub = false ->
     forall e, spawnSelection env sub = inl e -> tail = [ROLLBACK]) /\
    ((forall script, exists t r,
         sql_exec pg script (begun (bootstrap_store (durable w)))
         = ((bootstrap_store (durable w), Some t), r)) ->
     durable (snd result) = bootstrap_store (durable w)
     \/ last tail BOOTSTRAP = COMMIT).
Proof.
  intros Hx Hl Hw sub result. unfold result.
  destruct (JsCoerce.array_lt_one sub) eqn:Hn.
  { destruct (legacy_noop pg format_error env existsSync
                pathToMigrations prompt cmd w listing Hx Hl Hw Hn)
      as (E1 & E2 & E3 & E4).
    split; [exact E1|]. exists []. repeat split; auto. discriminate. }
  destruct (spawnSelection env sub) as [e|s] eqn:Hs.
  { destruct (legacy_cancelled pg format_error env existsSync
                pathToMigrations prompt cmd w listing Hx Hl Hw Hn e Hs)
      as (E1 & E2 & E4).
    split; [exact E1|]. exists [ROLLBACK]. repeat split; auto. }
  destruct (@read_sql_outcome data env (Legacy.direction cmd)
              (map (resolve pathToMigrations) (selected sub s)))
    as [(texts & F & _) | (e & He)].
  2:{ destruct (legacy_unreadable pg format_error env existsSync
                  pathToMigrations prompt cmd w listing Hx Hl Hw Hn s Hs
                  e He) as (E1 & E2 & E4).
      split; [exact E1|]. exists [ROLLBACK]. repeat split; auto. }
  destruct (legacy_transaction pg format_error env existsSync
              pathToMigrations prompt cmd w listing Hx Hl Hw Hn s Hs
              texts F) as (final & tail & E & Es & L & K).
  rewrite E. cbn [fst snd]. split; [reflexivity|].
  exists (BEGIN :: tail). split; [exact Es|]. split; [exact L|].
  split; [|exact K]. intros _ e He. discriminate He.
Qed.

(** A cancelled selection in the earlier version: status 0, and a
    ROLLBACK with no BEGIN. *)
Lemma legacy_always_exits_zero_witness :
  let result :=
    Legacy.commitOrRollback Example.reliable (fun e => e)
      (Example.env ["A"; "B"]%string Example.unit_files (inl "cancel"%string))
      (fun _ => true) "/m" "Please select" "commit"
      (Example.start None) in
  fst result = Exited 0 /\
  sent (snd result) = [BOOTSTRAP; SELECT_CURSOR; ROLLBACK].
Proof.
  destruct (legacy_always_exits_zero Example.reliable (fun e => e)
              (Example.env ["A"; "B"]%string Example.unit_files
                 (inl "cancel"%string))
              (fun _ => true) "/m" "Please select" "commit"
              (Example.start None) ["A"; "B"]%string
              eq_refl eq_refl eq_refl)
    as (E1 & tail & Es & _ & C & _).
  split; [exact E1|].
  rewrite Es. now rewrite (C eq_refl "cancel"%string eq_refl).
Defined.

(** X23. The two versions have the same effect on the database: for the
    same command, listing, answer of the menu, scripts and server, the
    earlier version and the present one without [--all] leave the same
    committed database (the cursor column and the tables the scripts
    touch; the column [completed], which only the present version
    updates, is not part of the model), whether the operation goes
    through or not.  They differ in the exit status, which is always 0 in
    the earlier version and 0 or 1 in the present one. *)
Theorem versions_leave_same_database {data : Type}
    (pg : server data)
    (format_error : string -> string) (env : environment)
    (existsSync : string -> bool) (pathToMigrations prompt : string)
    (a : arguments) (w : world data) (listing : list string) :
  existsSync pathToMigrations = true ->
  readdirSync env pathToMigrations = inr listing ->
  working w = None ->
  all a = false ->
  let earlier :=
    Legacy.commitOrRollback pg format_error env existsSync
      pathToMigrations prompt (cmd_name (cmd a)) w in
  let present := run pg env a pathToMigrations w in
  durable (snd earlier) = durable (snd present) /\
  fst earlier = Exited 0 /\
  (fst present = Exited 0 \/ fst present = Exited 1).
Proof.
  intros Hx Hl Hw Ha earlier present. unfold earlier, present.
  pose proof (direction_cmd_name (cmd a)) as Hd.
  set (sub := subset (cmd a) (dirNames_of listing) (cursor_of w)).
  assert (offset env a sub = spawnSelection env sub) as Ho
    by (unfold offset; now rewrite Ha).
  destruct (JsCoerce.array_lt_one sub) eqn:Hn.
  { rewrite (run_noop pg env a pathToMigrations w listing Hl Hn).
    destruct (legacy_noop pg format_error env existsSync
                pathToMigrations prompt (cmd_name (cmd a)) w listing
                Hx Hl Hw) as (E1 & E2 & _); [now rewrite Hd|].
    cbn [fst snd durable]. auto. }
  assert (JsCoerce.array_lt_one
            (subset (Legacy.direction (cmd_name (cmd a)))
               (dirNames_of listing) (cursor_of w)) = false) as Hn'
    by (now rewrite Hd).
  destruct (spawnSelection env sub) as [e|s] eqn:Hs.
  { rewrite (run_cancelled pg env a pathToMigrations w listing Hl Hn
               e Ho).
    assert (spawnSelection env
              (subset (Legacy.direction (cmd_name (cmd a)))
                 (dirNames_of listing) (cursor_of w)) = inl e) as Hs'
      by (now rewrite Hd).
    destruct (legacy_cancelled pg format_error env existsSync
                pathToMigrations prompt (cmd_name (cmd a)) w listing
                Hx Hl Hw Hn' e Hs') as (E1 & E2 & _).
    cbn [fst snd durable]. auto. }
  assert (spawnSelection env
            (subset (Legacy.direction (cmd_name (cmd a)))
               (dirNames_of listing) (cursor_of w)) = inr s) as Hs'
    by (now rewrite Hd).
  destruct (@read_sql_outcome data env (cmd a)
              (map (resolve pathToMigrations) (selected sub s)))
    as [(texts & F & _) | (e & He)].
  2:{ rewrite (run_unreadable pg env a pathToMigrations w listing Hl Hn
                 s e Ho He).
      assert (forall w' : world data,
                 read_sql env (Legacy.direction (cmd_name (cmd a)))
                   (map (resolve pathToMigrations)
                      (selected
                         (subset (Legacy.direction (cmd_name (cmd a)))
                            (dirNames_of listing) (cursor_of w)) s))
                   w' = (Thrown e, w')) as He'
        by (now rewrite Hd).
      destruct (legacy_unreadable pg format_error env existsSync
                  pathToMigrations prompt (cmd_name (cmd a)) w listing
                  Hx Hl Hw Hn' s Hs' e He') as (E1 & E2 & _).
      cbn [fst snd durable]. auto. }
  rewrite (run_to_transact pg env a pathToMigrations w listing Hl
             s texts Hn Ho F).
  assert (Forall2
            (script_text env (Legacy.direction (cmd_name (cmd a))))
            (map (resolve pathToMigrations)
               (selected
                  (subset (Legacy.direction (cmd_name (cmd a)))
                     (dirNames_of listing) (cursor_of w)) s))
            texts) as F'
    by (now rewrite Hd).
  pose proof (legacy_as_transact pg format_error env existsSync
                pathToMigrations prompt (cmd_name (cmd a)) w listing
                Hx Hl Hw Hn' s Hs' texts F' (dirNames_of listing)
                (prompted a (resolved w (dirNames_of listing)))
                (durable_prompted a w (dirNames_of listing))
                (eq_trans (working_prompted a w (dirNames_of listing)) Hw)
                (sent_prompted a w (dirNames_of listing))) as H.
  cbv zeta in H. rewrite Hd in H. fold sub in H.
  destruct H as [H1 H2].
  destruct (legacy_transaction pg format_error env existsSync
              pathToMigrations prompt (cmd_name (cmd a)) w listing
              Hx Hl Hw Hn' s Hs' texts F') as (final & tail & E & _).
  split; [exact H1|]. split; [now rewrite E | exact H2].
Qed.

Lemma versions_leave_same_database_witness :
  durable
    (snd (Legacy.commitOrRollback Example.reliable (fun e => e)
            (Example.env ["A"; "B"]%string Example.unit_files (inr 1))
            (fun _ => true) "/m" "Please select" "commit"
            (Example.start None)))
  = durable
      (snd (run Example.reliable
              (Example.env ["A"; "B"]%string Example.unit_files (inr 1))
              (mkArgs Commit false) "/m" (Example.start None))).
Proof.
  exact (proj1 (versions_leave_same_database Example.reliable (fun e => e)
                  (Example.env ["A"; "B"]%string Example.unit_files (inr 1))
                  (fun _ => true) "/m" "Please select"
                  (mkArgs Commit false) (Example.start None)
                  ["A"; "B"]%string eq_refl eq_refl eq_refl eq_refl)).
Defined.
